(** * Semantic analysis visitors of the COOL compiler

    A shallow embedding of [src/compiler/utils/visitors_definitions.py]:
    the generic [NodeVisitor] dispatch and the visitors of pass 1
    ([TypeCollectorVisitor]), pass 2 ([TypeInheritanceVisitor]), pass 3
    ([TypeBuilderVisitor]) and pass 4 ([TypeCheckerVisitor]).

    The visitors are Python methods working on mutable dictionaries and on
    the process-wide [programContext] object.  They are modelled in a state
    and exception monad whose state holds

    - a store of dictionaries (environments are passed by reference, so a
      callee's [update] is seen by every holder of the same reference),
    - the state of [programContext],
    - a chronological trace of the visits made and of the calls placed on
      [programContext]. *)

From stdpp Require Import gmap strings list.
From Stdlib Require Import ZArith.

Set Default Proof Using "Type".
Set Warnings "-register-all".

(** ** Values *)

(** A source position [(line, column)]. *)
Definition Pos : Type := Z * Z.

(** Modelled from the spec: the class [error] of [utils/errors.py], which is
    imported but not part of the sources at hand.  The spec describes a
    diagnostic as a kind, a human-readable message and a source position. *)
Record error : Type := mk_error {
  error_kind : string;
  error_message : string;
  error_pos : Pos
}.

(** The Python values that travel through the visitors: [None], a type name
    (a [str]) or an [error] instance. *)
Inductive Val : Type :=
  | VNone
  | VStr (s : string)
  | VErr (e : error).

(** [type(v) is error] *)
Definition is_error (v : Val) : bool :=
  match v with
  | VErr _ => true
  | _ => false
  end.

(** Python truthiness, as used by [if result:].  [None] and the empty string
    are false; an instance of a plain class such as [error] is true. *)
Definition truthy (v : Val) : bool :=
  match v with
  | VNone => false
  | VStr s => negb (String.eqb s "")
  | VErr _ => true
  end.

(** An environment is a Python [dict] from names to values. *)
Abbreviation Env := (gmap string Val).

(** A reference to a dictionary in the store. *)
Definition loc : Type := nat.

(** ** The methods of the checker *)

(** The [visit_] methods that the class [TypeCheckerVisitor] defines. *)
Inductive Method : Type :=
  | visit_NodeProgram_
  | visit_NodeClass_
  | visit_NodeClassMethod_
  | visit_NodeString_
  | visit_NodeAttr_
  | visit_NodeLetComplex_
  | visit_NodeLet_
  | visit_NodeAssignment_
  | visit_NodeBinaryOperation_
  | visit_NodeNewObject_
  | visit_NodeExpr_
  | visit_NodeInteger_
  | visit_NodeBoolean_
  | visit_NodeBooleanComplement_
  | visit_NodeObject_
  | visit_NodeDynamicDispatch_
  | visit_NodeSelf_.

Definition method_name (m : Method) : string :=
  match m with
  | visit_NodeProgram_ => "visit_NodeProgram"
  | visit_NodeClass_ => "visit_NodeClass"
  | visit_NodeClassMethod_ => "visit_NodeClassMethod"
  | visit_NodeString_ => "visit_NodeString"
  | visit_NodeAttr_ => "visit_NodeAttr"
  | visit_NodeLetComplex_ => "visit_NodeLetComplex"
  | visit_NodeLet_ => "visit_NodeLet"
  | visit_NodeAssignment_ => "visit_NodeAssignment"
  | visit_NodeBinaryOperation_ => "visit_NodeBinaryOperation"
  | visit_NodeNewObject_ => "visit_NodeNewObject"
  | visit_NodeExpr_ => "visit_NodeExpr"
  | visit_NodeInteger_ => "visit_NodeInteger"
  | visit_NodeBoolean_ => "visit_NodeBoolean"
  | visit_NodeBooleanComplement_ => "visit_NodeBooleanComplement"
  | visit_NodeObject_ => "visit_NodeObject"
  | visit_NodeDynamicDispatch_ => "visit_NodeDynamicDispatch"
  | visit_NodeSelf_ => "visit_NodeSelf"
  end.

Definition all_methods : list Method :=
  [ visit_NodeProgram_; visit_NodeClass_; visit_NodeClassMethod_;
    visit_NodeString_; visit_NodeAttr_; visit_NodeLetComplex_;
    visit_NodeLet_; visit_NodeAssignment_; visit_NodeBinaryOperation_;
    visit_NodeNewObject_; visit_NodeExpr_; visit_NodeInteger_;
    visit_NodeBoolean_; visit_NodeBooleanComplement_; visit_NodeObject_;
    visit_NodeDynamicDispatch_; visit_NodeSelf_ ].

(** [getattr(self, name, default)] restricted to the [visit_] methods:
    [None] stands for the default. *)
Definition getattr (name : string) : option Method :=
  List.find (λ m, String.eqb (method_name m) name) all_methods.

(** ** Abstract syntax *)

(** [utils/AST_definitions.py] is imported but not part of the sources at
    hand.  The node classes below are the ones the visitors name, with the
    attributes the visitors read; every node carries a source position. *)

(** Modelled from the spec: the class [NodeLet] of
    [utils/AST_definitions.py], over the type [E] of expressions: a name,
    a declared type, an initializer and a position. *)
Record NodeLetOf (E : Type) : Type := mkNodeLet {
  let_idName : string;
  let_type : string;
  let_body : E;
  let_pos : Pos
}.
Arguments mkNodeLet {E} _ _ _ _.
Arguments let_idName {E} _.
Arguments let_type {E} _.
Arguments let_body {E} _.
Arguments let_pos {E} _.

(** Modelled from the spec: the subclasses of [NodeBinaryOperation] in
    [utils/AST_definitions.py].  The visitor names five of them;
    [OtherBinary] stands for any further subclass (its class name is
    kept). *)
Inductive BinaryKind : Type :=
  | NodeAddition
  | NodeSubtraction
  | NodeMultiplication
  | NodeDivision
  | NodeEqual
  | OtherBinary (name : string).

(** [getattr(self, 'visit_' + name, ...)] finds no method: [name] is not
    the name of a class the checker has a method for. *)
Definition unnamed_class (name : string) : Prop :=
  getattr ("visit_" +:+ name) = None.

(** Modelled from the spec: the expression nodes of
    [utils/AST_definitions.py].  A node is an instance of its class: a
    node of a class that the checker names is given by the constructor of
    that class, with the attributes the method for it reads.  [NodeExpr]
    is a direct instance of the base class of expressions.  [NodeOther] is
    a node of any other class, whose first base class is not
    [NodeBinaryOperation]: its class name is kept, with the evidence that
    the class is none of those the checker has a method for.  (The nodes of
    declarations, [NodeAttr], [NodeClassMethod], [NodeClass] and
    [NodeProgram], are the records further down; they are not
    expressions.) *)
Inductive Node : Type :=
  | NodeInteger (pos : Pos)
  | NodeBoolean (pos : Pos)
  | NodeString (pos : Pos)
  | NodeBooleanComplement (expr : Node) (pos : Pos)
  | NodeObject (idName : string) (pos : Pos)
  | NodeSelf (pos : Pos)
  | NodeNewObject (type : string) (pos : Pos)
  | NodeAssignment (idName : string) (expr : Node) (pos : Pos)
  | NodeBinaryOperation (kind : BinaryKind) (first second : Node) (pos : Pos)
  | NodeLet (nodeLet : NodeLetOf Node)
  | NodeLetComplex (nestedLets : list (NodeLetOf Node)) (body : Node) (pos : Pos)
  | NodeDynamicDispatch (expr : Node) (method : string) (arguments : list Node)
      (pos : Pos)
  | NodeExpr (pos : Pos)
  | NodeOther (name : string) (pos : Pos) (other : unnamed_class name).

Definition NodeLet_ : Type := NodeLetOf Node.

(** *** Induction on nodes

    [Node] is nested in [list] and [NodeLetOf]; the principle gives the
    induction hypothesis for the nodes under them. *)

Section NodeInduction.
Variable P : Node → Prop.
Hypothesis P_integer : ∀ pos, P (NodeInteger pos).
Hypothesis P_boolean : ∀ pos, P (NodeBoolean pos).
Hypothesis P_string : ∀ pos, P (NodeString pos).
Hypothesis P_complement : ∀ expr pos, P expr → P (NodeBooleanComplement expr pos).
Hypothesis P_object : ∀ idName pos, P (NodeObject idName pos).
Hypothesis P_self : ∀ pos, P (NodeSelf pos).
Hypothesis P_new : ∀ type pos, P (NodeNewObject type pos).
Hypothesis P_assignment :
  ∀ idName expr pos, P expr → P (NodeAssignment idName expr pos).
Hypothesis P_binary :
  ∀ kind first second pos,
    P first → P second → P (NodeBinaryOperation kind first second pos).
Hypothesis P_let : ∀ nodeLet, P (let_body nodeLet) → P (NodeLet nodeLet).
Hypothesis P_let_complex :
  ∀ nestedLets body pos,
    Forall (λ nodeLet, P (let_body nodeLet)) nestedLets → P body →
    P (NodeLetComplex nestedLets body pos).
Hypothesis P_dispatch :
  ∀ expr method arguments pos,
    P expr → Forall P arguments →
    P (NodeDynamicDispatch expr method arguments pos).
Hypothesis P_expr : ∀ pos, P (NodeExpr pos).
Hypothesis P_other : ∀ name pos other, P (NodeOther name pos other).

Fixpoint Node_nested_ind (node : Node) : P node :=
  match node with
  | NodeInteger pos => P_integer pos
  | NodeBoolean pos => P_boolean pos
  | NodeString pos => P_string pos
  | NodeBooleanComplement expr pos => P_complement expr pos (Node_nested_ind expr)
  | NodeObject idName pos => P_object idName pos
  | NodeSelf pos => P_self pos
  | NodeNewObject type pos => P_new type pos
  | NodeAssignment idName expr pos =>
      P_assignment idName expr pos (Node_nested_ind expr)
  | NodeBinaryOperation kind first second pos =>
      P_binary kind first second pos (Node_nested_ind first)
        (Node_nested_ind second)
  | NodeLet nodeLet => P_let nodeLet (Node_nested_ind (let_body nodeLet))
  | NodeLetComplex nestedLets body pos =>
      P_let_complex nestedLets body pos
        ((fix lets (ls : list (NodeLetOf Node))
            : Forall (λ nodeLet, P (let_body nodeLet)) ls :=
            match ls with
            | [] => Forall_nil_2 _
            | l :: ls => Forall_cons_2 _ _ _ (Node_nested_ind (let_body l)) (lets ls)
            end) nestedLets)
        (Node_nested_ind body)
  | NodeDynamicDispatch expr method arguments pos =>
      P_dispatch expr method arguments pos (Node_nested_ind expr)
        ((fix args (ns : list Node) : Forall P ns :=
            match ns with
            | [] => Forall_nil_2 _
            | n :: ns => Forall_cons_2 _ _ _ (Node_nested_ind n) (args ns)
            end) arguments)
  | NodeExpr pos => P_expr pos
  | NodeOther name pos other => P_other name pos other
  end.

End NodeInduction.

(** Modelled from the spec: an attribute declaration. *)
Record NodeAttr : Type := mkNodeAttr {
  attr_idName : string;
  attr_type : string;
  attr_expr : Node;
  attr_pos : Pos
}.

(** Modelled from the spec: a formal parameter of a method. *)
Record FormalParam : Type := mkFormalParam {
  formal_idName : string;
  formal_type : string;
  formal_pos : Pos
}.

(** Modelled from the spec: a method declaration. *)
Record NodeClassMethod : Type := mkNodeClassMethod {
  method_idName : string;
  formal_param_list : list FormalParam;
  returnType : string;
  method_body : Node;
  method_pos : Pos
}.

(** Modelled from the spec: a class declaration. *)
Record NodeClass : Type := mkNodeClass {
  class_idName : string;
  class_parent : string;
  class_line : Z;
  class_column : Z;
  attributes : list NodeAttr;
  methods : list NodeClassMethod
}.

(** Modelled from the spec: the root of a program. *)
Record NodeProgram : Type := mkNodeProgram {
  class_list : list NodeClass
}.

(** [node.line, node.column] *)
Definition node_pos (node : Node) : Pos :=
  match node with
  | NodeInteger p | NodeBoolean p | NodeString p | NodeBooleanComplement _ p
  | NodeObject _ p | NodeSelf p | NodeNewObject _ p | NodeAssignment _ _ p
  | NodeBinaryOperation _ _ _ p | NodeLetComplex _ _ p
  | NodeDynamicDispatch _ _ _ p | NodeExpr p | NodeOther _ p _ => p
  | NodeLet l => let_pos l
  end.

Definition binary_clsname (kind : BinaryKind) : string :=
  match kind with
  | NodeAddition => "NodeAddition"
  | NodeSubtraction => "NodeSubtraction"
  | NodeMultiplication => "NodeMultiplication"
  | NodeDivision => "NodeDivision"
  | NodeEqual => "NodeEqual"
  | OtherBinary name => name
  end.

(** [node.clsname] *)
Definition clsname (node : Node) : string :=
  match node with
  | NodeInteger _ => "NodeInteger"
  | NodeBoolean _ => "NodeBoolean"
  | NodeString _ => "NodeString"
  | NodeBooleanComplement _ _ => "NodeBooleanComplement"
  | NodeObject _ _ => "NodeObject"
  | NodeSelf _ => "NodeSelf"
  | NodeNewObject _ _ => "NodeNewObject"
  | NodeAssignment _ _ _ => "NodeAssignment"
  | NodeBinaryOperation kind _ _ _ => binary_clsname kind
  | NodeLet _ => "NodeLet"
  | NodeLetComplex _ _ _ => "NodeLetComplex"
  | NodeDynamicDispatch _ _ _ _ => "NodeDynamicDispatch"
  | NodeExpr _ => "NodeExpr"
  | NodeOther name _ _ => name
  end.

(** [node.__class__.__bases__[0] is NodeBinaryOperation] *)
Definition base_is_NodeBinaryOperation (node : Node) : bool :=
  match node with
  | NodeBinaryOperation _ _ _ _ => true
  | _ => false
  end.

(** [type(node) in {NodeAddition, NodeSubtraction, NodeDivision,
    NodeMultiplication}] *)
Definition is_arithmetic (kind : BinaryKind) : bool :=
  match kind with
  | NodeAddition | NodeSubtraction | NodeDivision | NodeMultiplication => true
  | _ => false
  end.

(** [type(node) is NodeEqual] *)
Definition is_equal (kind : BinaryKind) : bool :=
  match kind with
  | NodeEqual => true
  | _ => false
  end.

(** ** The context object *)

(** Modelled from the spec: the object that [programContext.types] holds
    under a type name ([utils/context.py] is not part of the sources at
    hand); the visitors read its [parent]. *)
Record TypeInfo : Type := mkTypeInfo {
  parent : Val
}.

(** [utils/context.py] is imported but not part of the sources at hand.
    The methods of [programContext] are taken as parameters: a [Context]
    gives, for a type [Reg] of states of [programContext], the effect and
    the answer of every method the visitors call.  Environments are handed
    over by content: following the spec (an environment is extended, never
    mutated in place), a method reads the environment it is given, and
    [buildEnv] and [buildEnvForMethod] answer with a new dictionary. *)
Record Context (Reg : Type) : Type := mkContext {
  (* programContext.types, a dict keyed by type name, in insertion order *)
  types : Reg → list (string * TypeInfo);
  createType : NodeClass → Reg → Reg * Val;
  relateInheritance : string → Val → Pos → Reg → Reg * Val;
  getType : string → Pos → Reg → Reg * Val;
  buildEnv : string → Reg → Reg * Env;
  buildEnvForMethod : NodeClassMethod → Env → Reg → Reg * (error + Env);
  checkReturnType : NodeClassMethod → Val → Reg → Reg * Val;
  (* checkAssign(idName, declared, exprType, pos), as visit_NodeLet calls it *)
  checkAssign : string → Val → Val → Pos → Reg → Reg * Val;
  (* checkAssign(node, result, previousEnv), as visit_NodeAssignment calls it *)
  checkAssign_node : Node → Val → Env → Reg → Reg * Val;
  checkArithmetic : Val → Val → Pos → Reg → Reg * Val;
  checkEqualOp : Val → Val → Pos → Reg → Reg * Val;
  searchValue : Node → Env → Reg → Reg * Val;
  checkDynamicDispatch : Val → string → list Val → Pos → Reg → Reg * Val
}.
Arguments types {Reg} _ _.
Arguments createType {Reg} _ _ _.
Arguments relateInheritance {Reg} _ _ _ _ _.
Arguments getType {Reg} _ _ _ _.
Arguments buildEnv {Reg} _ _ _.
Arguments buildEnvForMethod {Reg} _ _ _ _.
Arguments checkReturnType {Reg} _ _ _ _.
Arguments checkAssign {Reg} _ _ _ _ _ _.
Arguments checkAssign_node {Reg} _ _ _ _ _.
Arguments checkArithmetic {Reg} _ _ _ _ _.
Arguments checkEqualOp {Reg} _ _ _ _ _.
Arguments searchValue {Reg} _ _ _ _.
Arguments checkDynamicDispatch {Reg} _ _ _ _ _ _.

(** ** Traces *)

(** A call placed on [programContext], with its arguments. *)
Inductive Call : Type :=
  | CreateType (node : NodeClass)
  | RelateInheritance (_type : string) (parent : Val) (line_and_col : Pos)
  | GetType (idName : string) (row_and_col : Pos)
  | BuildEnv (typeName : string)
  | BuildEnvForMethod (node : NodeClassMethod) (previousEnv : Env)
  | CheckReturnType (node : NodeClassMethod) (typeResult : Val)
  | CheckAssign (idName : string) (declared exprType : Val) (pos : Pos)
  | CheckAssignNode (node : Node) (result : Val) (previousEnv : Env)
  | CheckArithmetic (typeFirstExpr typeSecondExpr : Val) (pos : Pos)
  | CheckEqualOp (typeFirstExpr typeSecondExpr : Val) (pos : Pos)
  | SearchValue (node : Node) (previousEnv : Env)
  | CheckDynamicDispatch (typeExpr : Val) (method : string)
      (argTypes : list Val) (pos : Pos).

Inductive Event : Type :=
  | EvVisit (node : Node) (previousEnv : loc)
      (* [visit] was entered on an expression node *)
  | EvCall (c : Call).

(** ** The monad *)

Inductive Exn : Type :=
  | Exception (msg : string)
  | KeyError (key : string)
  | AttributeError (attr : string)
  | TypeError (keyword : string)
      (* "... got an unexpected keyword argument '<keyword>'" *)
  | UnboundLocalError (name : string)
  | RuntimeError (msg : string)
  | RecursionError.

Inductive Outcome (A : Type) : Type :=
  | Ret (a : A)
  | Raise (e : Exn).
Arguments Ret {A} _.
Arguments Raise {A} _.

Record State (Reg : Type) : Type := mkState {
  heap : list Env;
  registry : Reg;
  trace : list Event
}.
Arguments mkState {Reg} _ _ _.
Arguments heap {Reg} _.
Arguments registry {Reg} _.
Arguments trace {Reg} _.

Definition M (Reg : Type) (A : Type) : Type :=
  State Reg → State Reg * Outcome A.

#[global] Instance M_ret {Reg} : MRet (M Reg) :=
  λ A a s, (s, Ret a).

#[global] Instance M_bind {Reg} : MBind (M Reg) :=
  λ A B f m s,
    match m s with
    | (s', Ret a) => f a s'
    | (s', Raise e) => (s', Raise e)
    end.

Definition raise {Reg A} (e : Exn) : M Reg A :=
  λ s, (s, Raise e).

Definition log {Reg} (ev : Event) : M Reg unit :=
  λ s, (mkState (heap s) (registry s) (trace s ++ [ev]), Ret tt).

(** *** Dictionaries in the store *)

Definition deref {Reg} (l : loc) (s : State Reg) : Env :=
  default ∅ (heap s !! l).

(** a new dictionary object *)
Definition env_new {Reg} (e : Env) : M Reg loc :=
  λ s, (mkState (heap s ++ [e]) (registry s) (trace s), Ret (length (heap s))).

(** [d.copy()] *)
Definition env_copy {Reg} (l : loc) : M Reg loc :=
  λ s, env_new (deref l s) s.

(** [d.update({k: v})] *)
Definition env_update {Reg} (l : loc) (k : string) (v : Val) : M Reg unit :=
  λ s, (mkState (<[l := <[k := v]> (deref l s)]> (heap s)) (registry s) (trace s),
        Ret tt).

(** [d[k]] *)
Definition env_get {Reg} (l : loc) (k : string) : M Reg Val :=
  λ s, match deref l s !! k with
       | Some v => (s, Ret v)
       | None => (s, Raise (KeyError k))
       end.

(** the content of a dictionary, for handing it to [programContext] *)
Definition env_read {Reg} (l : loc) : M Reg Env :=
  λ s, (s, Ret (deref l s)).

(** *** Calls on [programContext] *)

Definition call {Reg A} (c : Call) (f : Reg → Reg * A) : M Reg A :=
  λ s, let '(r, a) := f (registry s) in
       (mkState (heap s) r (trace s ++ [EvCall c]), Ret a).

(** *** The accumulating [for] loop

    [for x in xs: result = visit(x); if test(result): errors.append(result)],
    the loop shared by the program and class visitors. *)
Fixpoint for_append {Reg A} (visit_item : A → M Reg Val) (test : Val → bool)
    (xs : list A) (errors : list Val) : M Reg (list Val) :=
  match xs with
  | [] => mret errors
  | x :: xs =>
      result ← visit_item x;
      for_append visit_item test xs
        (if test result then errors ++ [result] else errors)
  end.

(** ** NodeVisitor *)

Module NodeVisitor.

(** [visitor_method_name = 'visit_' + node.clsname] *)
Definition visitor_method_name (node : Node) : string :=
  "visit_" +:+ clsname node.

(** [raise Exception('Not implemented visit_{} method'.format(node.clsname))] *)
Definition not_implemented {Reg A} (node : Node) : M Reg A :=
  raise (Exception ("Not implemented visit_" +:+ clsname node +:+ " method")).

End NodeVisitor.

(** ** TypeCheckerVisitor (pass 4) *)

Module TypeCheckerVisitor.

Section WithContext.
Context {Reg : Type} (programContext : Context Reg).

Local Abbreviation M := (M Reg).

(** *** The methods, over the recursive [visit] *)
Section Methods.
Variable visit : Node → loc → M Val.

Definition visit_NodeLet (node : NodeLet_) (previousEnv : loc) : M Val :=
  exprType ← visit (let_body node) previousEnv;
  if is_error exprType then mret exprType else
  env_update previousEnv (let_idName node) (VStr (let_type node));;
  declared ← env_get previousEnv (let_idName node);
  call (CheckAssign (let_idName node) declared exprType
          (node_pos (let_body node)))
       (checkAssign programContext (let_idName node) declared exprType
          (node_pos (let_body node))).

(** [self.visit(nodeLet, previousEnv= newEnv)] on a nested let: the
    class name of [nodeLet] selects [visit_NodeLet]. *)
Definition visit_nodeLet (nodeLet : NodeLet_) (newEnv : loc) : M Val :=
  log (EvVisit (NodeLet nodeLet) newEnv);;
  visit_NodeLet nodeLet newEnv.

(** The [for] loop and the rest of [visit_NodeLetComplex]; [newEnv]
    is the local variable of that name, unbound until the loop body
    has run once. *)
Definition visit_NodeLetComplex_loop (body : Node) (previousEnv : loc)
    : list NodeLet_ → option loc → M Val :=
  fix loop (nestedLets : list NodeLet_) (newEnv : option loc) : M Val :=
    match nestedLets with
    | [] =>
        match newEnv with
        | None => raise (UnboundLocalError "newEnv")
        | Some newEnv => visit body newEnv
        end
    | nodeLet :: nestedLets =>
        newEnv ← env_copy previousEnv;
        result ← visit_nodeLet nodeLet newEnv;
        if is_error result then mret result else
        env_update newEnv (let_idName nodeLet) result;;
        loop nestedLets (Some newEnv)
    end.

Definition visit_NodeLetComplex (nestedLets : list NodeLet_)
    (body : Node) (previousEnv : loc) : M Val :=
  visit_NodeLetComplex_loop body previousEnv nestedLets None.

Definition visit_NodeAssignment (node expr : Node) (previousEnv : loc)
    : M Val :=
  result ← visit expr previousEnv;
  if is_error result then mret result else
  env ← env_read previousEnv;
  call (CheckAssignNode node result env)
       (checkAssign_node programContext node result env).

Definition visit_NodeBinaryOperation (kind : BinaryKind)
    (first second : Node) (pos : Pos) (previousEnv : loc) : M Val :=
  typeFirstExpr ← visit first previousEnv;
  typeSecondExpr ← visit second previousEnv;
  if is_error typeFirstExpr then mret typeFirstExpr else
  if is_error typeSecondExpr then mret typeSecondExpr else
  if is_arithmetic kind then
    call (CheckArithmetic typeFirstExpr typeSecondExpr pos)
         (checkArithmetic programContext typeFirstExpr typeSecondExpr pos)
  else if is_equal kind then
    call (CheckEqualOp typeFirstExpr typeSecondExpr pos)
         (checkEqualOp programContext typeFirstExpr typeSecondExpr pos)
  else mret VNone.

(** The [for] loop over [node.arguments] and the final call. *)
Definition visit_NodeDynamicDispatch_loop (typeExpr : Val)
    (method : string) (pos : Pos) (previousEnv : loc)
    : list Node → list Val → M Val :=
  fix loop (arguments : list Node) (argTypes : list Val) : M Val :=
    match arguments with
    | [] =>
        call (CheckDynamicDispatch typeExpr method argTypes pos)
             (checkDynamicDispatch programContext typeExpr method
                argTypes pos)
    | arg :: arguments =>
        currenttypeExpr ← visit arg previousEnv;
        if is_error currenttypeExpr then mret currenttypeExpr else
        loop arguments (argTypes ++ [currenttypeExpr])
    end.

Definition visit_NodeDynamicDispatch (expr : Node) (method : string)
    (arguments : list Node) (pos : Pos) (previousEnv : loc) : M Val :=
  typeExpr ← visit expr previousEnv;
  if is_error typeExpr then mret typeExpr else
  visit_NodeDynamicDispatch_loop typeExpr method pos previousEnv
    arguments [].

End Methods.

Definition visit_NodeString : M Val := mret (VStr "String").
Definition visit_NodeInteger : M Val := mret (VStr "Int").
Definition visit_NodeBoolean : M Val := mret (VStr "Bool").
Definition visit_NodeBooleanComplement : M Val := mret (VStr "Bool").

Definition visit_NodeNewObject (type : string) (pos : Pos) : M Val :=
  result ← call (GetType type pos) (getType programContext type pos);
  if is_error result then mret result else mret (VStr type).

Definition visit_NodeObject (node : Node) (previousEnv : loc) : M Val :=
  env ← env_read previousEnv;
  call (SearchValue node env) (searchValue programContext node env).

Definition visit_NodeSelf (previousEnv : loc) : M Val :=
  env_get previousEnv "wrapperType".

(** *** [visit], on an expression node

    [NodeVisitor.visit] with [self] a [TypeCheckerVisitor]: a node
    whose first base class is [NodeBinaryOperation] goes to
    [visit_NodeBinaryOperation]; any other node goes to the method
    that [getattr] finds under the name ['visit_' + node.clsname], or
    to [not_implemented].  A method reads the attributes of the node it
    is given; a node without them makes it raise [AttributeError], and
    [visit_NodeProgram], which takes no [previousEnv], raises [TypeError]
    when it is called with one.  As a node is an instance of its class,
    the method found is the one for the class of the node (lemmas
    [visit_method_of] and [declaration_method_not_found]): the branches
    where a method meets a node of another class, and those of the four
    methods for declarations, are never taken.
    [visit_NodeExpr] calls [self.visit] on the very node it was given,
    which ends in [RecursionError].  The recursion limit of the
    interpreter is not modelled otherwise: [visit] follows an expression
    however deep it is, where the interpreter gives up with
    [RecursionError] once the calls are nested too deep. *)
Fixpoint visit (node : Node) (previousEnv : loc) {struct node} : M Val :=
  log (EvVisit node previousEnv);;
  if base_is_NodeBinaryOperation node then
    match node with
    | NodeBinaryOperation kind first second pos =>
        visit_NodeBinaryOperation visit kind first second pos previousEnv
    | _ => raise (AttributeError "first")
    end
  else
    match getattr (NodeVisitor.visitor_method_name node) with
    | None => NodeVisitor.not_implemented node
    | Some visit_NodeString_ => visit_NodeString
    | Some visit_NodeInteger_ => visit_NodeInteger
    | Some visit_NodeBoolean_ => visit_NodeBoolean
    | Some visit_NodeBooleanComplement_ => visit_NodeBooleanComplement
    | Some visit_NodeObject_ => visit_NodeObject node previousEnv
    | Some visit_NodeSelf_ => visit_NodeSelf previousEnv
    | Some visit_NodeExpr_ => raise RecursionError
    | Some visit_NodeNewObject_ =>
        match node with
        | NodeNewObject type pos => visit_NodeNewObject type pos
        | _ => raise (AttributeError "type")
        end
    | Some visit_NodeAssignment_ =>
        match node with
        | NodeAssignment _ expr _ =>
            visit_NodeAssignment visit node expr previousEnv
        | _ => raise (AttributeError "expr")
        end
    | Some visit_NodeLet_ =>
        match node with
        | NodeLet nodeLet => visit_NodeLet visit nodeLet previousEnv
        | _ => raise (AttributeError "body")
        end
    | Some visit_NodeLetComplex_ =>
        match node with
        | NodeLetComplex nestedLets body _ =>
            visit_NodeLetComplex visit nestedLets body previousEnv
        | _ => raise (AttributeError "nestedLets")
        end
    | Some visit_NodeDynamicDispatch_ =>
        match node with
        | NodeDynamicDispatch expr method arguments pos =>
            visit_NodeDynamicDispatch visit expr method arguments pos
              previousEnv
        | _ => raise (AttributeError "expr")
        end
    | Some visit_NodeBinaryOperation_ => raise (AttributeError "first")
    (* the methods for declarations: never found for an expression *)
    | Some visit_NodeAttr_ => raise (AttributeError "expr")
    | Some visit_NodeClassMethod_ => raise (AttributeError "body")
    | Some visit_NodeClass_ => raise (AttributeError "attributes")
    | Some visit_NodeProgram_ => raise (TypeError "previousEnv")
    end.

(** *** Declarations *)

Definition visit_NodeAttr (node : NodeAttr) (previousEnv : loc) : M Val :=
  visit (attr_expr node) previousEnv.

Definition visit_NodeClassMethod (node : NodeClassMethod)
    (previousEnv : loc) : M Val :=
  env ← env_read previousEnv;
  newEnv ← call (BuildEnvForMethod node env)
                (buildEnvForMethod programContext node env);
  match newEnv with
  | inl e => mret (VErr e)
  | inr newEnv =>
      newEnv ← env_new newEnv;
      typeResult ← visit (method_body node) newEnv;
      if is_error typeResult then mret typeResult else
      call (CheckReturnType node typeResult)
           (checkReturnType programContext node typeResult)
  end.

Definition visit_NodeClass (node : NodeClass) (previousEnv : loc)
    : M (list Val) :=
  errors ← for_append (λ nodeAttr, visit_NodeAttr nodeAttr previousEnv)
             is_error (attributes node) [];
  for_append (λ nodeClassMethod,
                visit_NodeClassMethod nodeClassMethod previousEnv)
    is_error (methods node) errors.

Fixpoint visit_NodeProgram_loop (classes : list NodeClass)
    (errors : list Val) : M (list Val) :=
  match classes with
  | [] => mret errors
  | nodeClass :: classes =>
      environment ← call (BuildEnv (class_idName nodeClass))
                         (buildEnv programContext (class_idName nodeClass));
      environment ← env_new environment;
      errs ← visit_NodeClass nodeClass environment;
      visit_NodeProgram_loop classes (errors ++ errs)
  end.

Definition visit_NodeProgram (node : NodeProgram) : M (list Val) :=
  visit_NodeProgram_loop (class_list node) [].

End WithContext.
End TypeCheckerVisitor.

(** ** TypeCollectorVisitor (pass 1) *)

Module TypeCollectorVisitor.
Section WithContext.
Context {Reg : Type} (programContext : Context Reg).

Local Abbreviation M := (M Reg).

Definition visit_NodeClass (node : NodeClass) : M Val :=
  call (CreateType node) (createType programContext node).

Fixpoint visit_NodeProgram_loop (classes : list NodeClass)
    (errors : list Val) (line_and_col : gmap string Pos)
    : M (list Val * gmap string Pos) :=
  match classes with
  | [] => mret (errors, line_and_col)
  | nodeClass :: classes =>
      let line_and_col :=
        <[class_idName nodeClass :=
            (class_line nodeClass, class_column nodeClass)]> line_and_col in
      result ← visit_NodeClass nodeClass;
      visit_NodeProgram_loop classes
        (if truthy result then errors ++ [result] else errors)
        line_and_col
  end.

Definition visit_NodeProgram (node : NodeProgram)
    : M (list Val * gmap string Pos) :=
  visit_NodeProgram_loop (class_list node) [] ∅.

End WithContext.
End TypeCollectorVisitor.

(** ** TypeInheritanceVisitor (pass 2) *)

Module TypeInheritanceVisitor.
Section WithContext.
Context {Reg : Type} (programContext : Context Reg).

Local Abbreviation M := (M Reg).

(** [d[k]] on a dict given by its items *)
Definition dict_get {A} (d : list (string * A)) (k : string) : option A :=
  snd <$> List.find (λ kv, String.eqb (fst kv) k) d.

Definition visitForInherit (_type : string) (line_and_col : Pos) : M Val :=
  λ s,
    match dict_get (types programContext (registry s)) _type with
    | None => (s, Raise (KeyError _type))
    | Some info =>
        call (RelateInheritance _type (parent info) line_and_col)
             (relateInheritance programContext _type (parent info)
                line_and_col) s
    end.

(** [for _type in programContext.types: ...] walks the live dictionary:
    the iterator remembers the size [used] the dictionary had when the
    loop started and the index [pos] of the next item; every step
    first compares the present size with [used] and raises
    [RuntimeError] when they differ.  [fuel] counts the items left.
    [types] gives the items without the places of removed keys: a
    [relateInheritance] that removes a key during the walk (and adds
    another, so that the size stays) is beyond this model. *)
Fixpoint visit_NodeProgram_loop (line_and_col_dict : gmap string Pos)
    (used : nat) (fuel : nat) (pos : nat) (errors : list Val)
    : M (list Val) :=
  λ s,
    let items := types programContext (registry s) in
    if negb (length items =? used) then
      (s, Raise (RuntimeError "dictionary changed size during iteration"))
    else
      match fuel, items !! pos with
      | S fuel, Some (_type, _) =>
          if negb (String.eqb _type "Object") then
            (result ← visitForInherit _type
                        (default (0, 0)%Z (line_and_col_dict !! _type));
             visit_NodeProgram_loop line_and_col_dict used fuel (S pos)
               (if is_error result then errors ++ [result] else errors)) s
          else
            visit_NodeProgram_loop line_and_col_dict used fuel (S pos)
              errors s
      | _, _ => (s, Ret errors)
      end.

Definition visit_NodeProgram (node : NodeProgram)
    (line_and_col_dict : gmap string Pos) : M (list Val) :=
  λ s,
    let used := length (types programContext (registry s)) in
    visit_NodeProgram_loop line_and_col_dict used used 0 [] s.

End WithContext.
End TypeInheritanceVisitor.

(** ** TypeBuilderVisitor (pass 3) *)

Module TypeBuilderVisitor.

(** The two further methods of [programContext] that pass 3 calls
    ([utils/context.py] is not part of the sources at hand), taken as
    parameters like the ones of [Context]. *)
Record Definitions (Reg : Type) : Type := mkDefinitions {
  defineAttrInType : string → NodeAttr → Reg → Reg * Val;
  defineMethod : string → NodeClassMethod → Reg → Reg * Val
}.
Arguments defineAttrInType {Reg} _ _ _ _.
Arguments defineMethod {Reg} _ _ _ _.

(** A call that pass 3 places on [programContext], with its arguments. *)
Inductive BuilderCall : Type :=
  | DefineAttrInType (typeName : string) (node : NodeAttr)
  | GetTypeOf (idName : string) (row_and_col : Pos)
  | DefineMethod (typeName : string) (node : NodeClassMethod).

(** The state pass 3 works on: the field [currentTypeName] of the
    visitor, the state of [programContext] and the calls placed so far. *)
Record Builder (Reg : Type) : Type := mkBuilder {
  currentTypeName : string;
  builder_registry : Reg;
  builder_trace : list BuilderCall
}.
Arguments mkBuilder {Reg} _ _ _.
Arguments currentTypeName {Reg} _.
Arguments builder_registry {Reg} _.
Arguments builder_trace {Reg} _.

(** [TypeBuilderVisitor()]: [__init__] sets [currentTypeName] to [''] *)
Definition init {Reg} (r : Reg) : Builder Reg := mkBuilder "" r [].

Definition B (Reg : Type) (A : Type) : Type := Builder Reg → Builder Reg * A.

#[global] Instance B_ret {Reg} : MRet (B Reg) := λ A a s, (s, a).

#[global] Instance B_bind {Reg} : MBind (B Reg) :=
  λ A B f m s, let '(s', a) := m s in f a s'.

Definition builder_call {Reg} (c : BuilderCall) (f : Reg → Reg * Val)
    : B Reg Val :=
  λ s, let '(r, v) := f (builder_registry s) in
       (mkBuilder (currentTypeName s) r (builder_trace s ++ [c]), v).

(** [self.currentTypeName] *)
Definition get_currentTypeName {Reg} : B Reg string :=
  λ s, (s, currentTypeName s).

(** [self.currentTypeName = name] *)
Definition set_currentTypeName {Reg} (name : string) : B Reg unit :=
  λ s, (mkBuilder name (builder_registry s) (builder_trace s), tt).

(** [for x in xs: errors += self.visit(x)] *)
Fixpoint for_extend {Reg A} (visit_item : A → B Reg (list Val)) (xs : list A)
    (errors : list Val) : B Reg (list Val) :=
  match xs with
  | [] => mret errors
  | x :: xs => result ← visit_item x; for_extend visit_item xs (errors ++ result)
  end.

(** [[f(x) for x in xs]] *)
Fixpoint comprehension {Reg A} (f : A → B Reg Val) (xs : list A)
    : B Reg (list Val) :=
  match xs with
  | [] => mret []
  | x :: xs => v ← f x; vs ← comprehension f xs; mret (v :: vs)
  end.

Section WithContext.
Context {Reg : Type} (programContext : Context Reg)
  (definitions : Definitions Reg).

Definition visit_NodeAttr (node : NodeAttr) : B Reg (list Val) :=
  typeName ← get_currentTypeName;
  resultOp ← builder_call (DefineAttrInType typeName node)
                (defineAttrInType definitions typeName node);
  if is_error resultOp then mret [resultOp] else mret [].

Definition visit_NodeClassMethod (node : NodeClassMethod) : B Reg (list Val) :=
  of_return ← builder_call (GetTypeOf (returnType node) (method_pos node))
                 (getType programContext (returnType node) (method_pos node));
  of_formals ← comprehension
                  (λ formal_param,
                     builder_call
                       (GetTypeOf (formal_type formal_param)
                          (formal_pos formal_param))
                       (getType programContext (formal_type formal_param)
                          (formal_pos formal_param)))
                  (formal_param_list node);
  typeName ← get_currentTypeName;
  of_define ← builder_call (DefineMethod typeName node)
                 (defineMethod definitions typeName node);
  mret (List.filter is_error ([of_return] ++ of_formals ++ [of_define])).

Definition visit_NodeClass (node : NodeClass) : B Reg (list Val) :=
  set_currentTypeName (class_idName node);;
  errors ← for_extend visit_NodeAttr (attributes node) [];
  for_extend visit_NodeClassMethod (methods node) errors.

Definition visit_NodeProgram (node : NodeProgram) : B Reg (list Val) :=
  for_extend visit_NodeClass (class_list node) [].

End WithContext.
End TypeBuilderVisitor.

(** ** A reference context *)

(** Modelled from the spec: the object [programContext] of
    [utils/context.py], which is imported but not part of the sources at
    hand; its methods follow section 4.1 of the spec.  Where the spec only
    says when a method fails, a successful call answers with the type it
    has checked ([checkAssign], [checkReturnType], [getType]), with the
    result type of the operation ([checkArithmetic], [checkEqualOp],
    [checkDynamicDispatch]) or with [None] ([createType],
    [relateInheritance]).  The general theorems below hold for every
    [Context]; this one serves to run the visitors on concrete programs. *)
Module SpecContext.

(** Modelled from the spec: an entry of the registry, with the parent name,
    the attributes and the signatures of the methods of a class. *)
Record ClassInfo : Type := mkClassInfo {
  info_parent : Val;
  info_attrs : list (string * string);
  info_methods : list (string * (list string * string))
}.

(** Modelled from the spec: the table from class names to entries, in
    insertion order. *)
Definition Registry : Type := list (string * ClassInfo).

Definition lookup (reg : Registry) (name : string) : option ClassInfo :=
  snd <$> List.find (λ kv, String.eqb (fst kv) name) reg.

(** Modelled from the spec: the root type and the primitive types, which
    are registered before pass 1 runs. *)
Definition builtins : Registry :=
  [ ("Object", mkClassInfo VNone [] []);
    ("Int", mkClassInfo (VStr "Object") [] []);
    ("Bool", mkClassInfo (VStr "Object") [] []);
    ("String", mkClassInfo (VStr "Object") [] []) ].

(** Modelled from the spec: the primitive types are final. *)
Definition is_primitive (name : string) : bool :=
  String.eqb name "Int" || String.eqb name "Bool" || String.eqb name "String".

(** Modelled from the spec: a diagnostic of the given kind. *)
Definition err (kind : string) (what : string) (pos : Pos) : Val :=
  VErr (mk_error kind what pos).

(** Modelled from the spec: walk the parent links from [a], looking for
    [b]. *)
Fixpoint reaches (reg : Registry) (fuel : nat) (a b : string) : bool :=
  String.eqb a b ||
  match fuel with
  | O => false
  | S fuel =>
      match info_parent <$> lookup reg a with
      | Some (VStr p) => reaches reg fuel p b
      | _ => false
      end
  end.

(** Modelled from the spec: A conforms to B iff A equals B or B is an
    ancestor of A in the parent chain. *)
Definition conforms (reg : Registry) (a b : Val) : bool :=
  match a, b with
  | VStr a, VStr b => reaches reg (length reg) a b
  | _, _ => false
  end.

(** Modelled from the spec: [createType] registers a new entry and fails
    with [DuplicateType] if the name already exists. *)
Definition createType (node : NodeClass) (reg : Registry) : Registry * Val :=
  match lookup reg (class_idName node) with
  | Some _ =>
      (reg, err "DuplicateType" (class_idName node)
              (class_line node, class_column node))
  | None =>
      (reg ++ [(class_idName node,
                mkClassInfo (VStr (class_parent node)) [] [])], VNone)
  end.

(** Modelled from the spec: [getType] fails with [UnknownType] if the name
    is absent. *)
Definition getType (name : string) (pos : Pos) (reg : Registry)
    : Registry * Val :=
  match lookup reg name with
  | Some _ => (reg, VStr name)
  | None => (reg, err "UnknownType" name pos)
  end.

(** Modelled from the spec: [relateInheritance] fails with [InvalidParent]
    if the parent is unknown, is a primitive type, or if walking the
    parent chain from the parent reaches the child. *)
Definition relateInheritance (child : string) (parentName : Val) (pos : Pos)
    (reg : Registry) : Registry * Val :=
  match parentName with
  | VStr p =>
      if bool_decide (lookup reg p = None) || is_primitive p
         || reaches reg (length reg) p child
      then (reg, err "InvalidParent" child pos)
      else (reg, VNone)
  | _ => (reg, err "InvalidParent" child pos)
  end.

(** Modelled from the spec: the attributes visible on a type, inherited
    ones first, so that own ones take precedence. *)
Fixpoint visible_attrs (reg : Registry) (fuel : nat) (name : string)
    : list (string * string) :=
  match fuel, lookup reg name with
  | S fuel, Some info =>
      match info_parent info with
      | VStr p => visible_attrs reg fuel p
      | _ => []
      end ++ info_attrs info
  | _, _ => []
  end.

(** Modelled from the spec: an environment extended with bindings. *)
Definition extend (env : Env) (bindings : list (string * string)) : Env :=
  foldl (λ e kv, <[fst kv := VStr (snd kv)]> e) env bindings.

(** Modelled from the spec: [buildEnv] returns a new environment with all
    attributes visible on the type and the binding of the self type. *)
Definition buildEnv (typeName : string) (reg : Registry) : Registry * Env :=
  (reg, <["wrapperType" := VStr typeName]>
          (extend ∅ (visible_attrs reg (length reg) typeName))).

(** Modelled from the spec: a name that occurs twice among the formals. *)
Fixpoint has_duplicate (names : list string) : option string :=
  match names with
  | [] => None
  | n :: names =>
      if existsb (String.eqb n) names then Some n else has_duplicate names
  end.

(** Modelled from the spec: [buildEnvForMethod] extends the environment
    with the formals of the method and fails with [DuplicateFormal] if two
    formals share a name. *)
Definition buildEnvForMethod (node : NodeClassMethod) (env : Env)
    (reg : Registry) : Registry * (error + Env) :=
  match has_duplicate (formal_idName <$> formal_param_list node) with
  | Some n => (reg, inl (mk_error "DuplicateFormal" n (method_pos node)))
  | None =>
      (reg, inr (extend env
                   ((λ f, (formal_idName f, formal_type f))
                      <$> formal_param_list node)))
  end.

(** Modelled from the spec: the type of the body must conform to the
    declared return type, else [ReturnTypeMismatch]. *)
Definition checkReturnType (node : NodeClassMethod) (typeResult : Val)
    (reg : Registry) : Registry * Val :=
  if conforms reg typeResult (VStr (returnType node))
  then (reg, VStr (returnType node))
  else (reg, err "ReturnTypeMismatch" (method_idName node) (method_pos node)).

(** Modelled from the spec: the type of the expression must conform to the
    declared type, else [TypeMismatch]. *)
Definition checkAssign (idName : string) (declared exprType : Val)
    (pos : Pos) (reg : Registry) : Registry * Val :=
  if conforms reg exprType declared then (reg, declared)
  else (reg, err "TypeMismatch" idName pos).

(** Modelled from the spec: a plain assignment fails with
    [UnknownVariable] if the target has no binding in the environment. *)
Definition checkAssign_node (node : Node) (result : Val) (env : Env)
    (reg : Registry) : Registry * Val :=
  match node with
  | NodeAssignment idName _ pos =>
      match env !! idName with
      | None => (reg, err "UnknownVariable" idName pos)
      | Some declared => checkAssign idName declared result pos reg
      end
  | _ => (reg, VNone)
  end.

(** Modelled from the spec: both operand types must be the integer type;
    the result is that type, else [TypeMismatch]. *)
Definition checkArithmetic (a b : Val) (pos : Pos) (reg : Registry)
    : Registry * Val :=
  match a, b with
  | VStr a, VStr b =>
      if String.eqb a "Int" && String.eqb b "Int" then (reg, VStr "Int")
      else (reg, err "TypeMismatch" "arithmetic" pos)
  | _, _ => (reg, err "TypeMismatch" "arithmetic" pos)
  end.

(** Modelled from the spec: the comparison is allowed when both types are
    identical or when neither is primitive, else [IllegalComparison]. *)
Definition checkEqualOp (a b : Val) (pos : Pos) (reg : Registry)
    : Registry * Val :=
  match a, b with
  | VStr a, VStr b =>
      if String.eqb a b || (negb (is_primitive a) && negb (is_primitive b))
      then (reg, VStr "Bool")
      else (reg, err "IllegalComparison" "=" pos)
  | _, _ => (reg, err "IllegalComparison" "=" pos)
  end.

(** Modelled from the spec: a variable reference looks the name up in the
    environment and fails with [UnknownVariable] if it is absent. *)
Definition searchValue (node : Node) (env : Env) (reg : Registry)
    : Registry * Val :=
  match node with
  | NodeObject idName pos =>
      match env !! idName with
      | Some v => (reg, v)
      | None => (reg, err "UnknownVariable" idName pos)
      end
  | _ => (reg, VNone)
  end.

(** Modelled from the spec: the signature of [method] on [name] or on its
    nearest ancestor. *)
Fixpoint find_method (reg : Registry) (fuel : nat) (name method : string)
    : option (list string * string) :=
  match fuel, lookup reg name with
  | S fuel, Some info =>
      match snd <$> List.find (λ kv, String.eqb (fst kv) method)
                      (info_methods info) with
      | Some sig => Some sig
      | None =>
          match info_parent info with
          | VStr p => find_method reg fuel p method
          | _ => None
          end
      end
  | _, _ => None
  end.

(** Modelled from the spec: the type of the receiver or an ancestor must
    declare the method ([UnknownMethod]), with as many formals as there
    are arguments ([ArityMismatch]), every argument type conforming to its
    formal ([ArgumentTypeMismatch]); the result is the declared return
    type. *)
Definition checkDynamicDispatch (typeExpr : Val) (method : string)
    (argTypes : list Val) (pos : Pos) (reg : Registry) : Registry * Val :=
  match typeExpr with
  | VStr t =>
      match find_method reg (length reg) t method with
      | None => (reg, err "UnknownMethod" method pos)
      | Some (formals, ret) =>
          if negb (length formals =? length argTypes)
          then (reg, err "ArityMismatch" method pos)
          else if forallb (λ af, conforms reg (fst af) (VStr (snd af)))
                    (zip argTypes formals)
          then (reg, VStr ret)
          else (reg, err "ArgumentTypeMismatch" method pos)
      end
  | _ => (reg, err "UnknownMethod" method pos)
  end.

(** Modelled from the spec: the context object made of the methods above. *)
Definition programContext : Context Registry :=
  mkContext Registry
    (λ reg, (λ kv, (fst kv, mkTypeInfo (info_parent (snd kv)))) <$> reg)
    createType relateInheritance getType buildEnv buildEnvForMethod
    checkReturnType checkAssign checkAssign_node checkArithmetic
    checkEqualOp searchValue checkDynamicDispatch.

(** a start state: the built-in types, one dictionary [env] in the
    store (at reference 0) and an empty trace *)
Definition start (env : Env) : State Registry :=
  mkState [env] builtins [].

End SpecContext.

(** * Vocabulary of the statements *)

(** the state right after [visit] has been entered on [node] *)
Definition enter {Reg} (node : Node) (previousEnv : loc) (s : State Reg)
    : State Reg :=
  mkState (heap s) (registry s) (trace s ++ [EvVisit node previousEnv]).

(** the state right after a call on [programContext] *)
Definition called {Reg} (c : Call) (r : Reg) (s : State Reg) : State Reg :=
  mkState (heap s) r (trace s ++ [EvCall c]).

(** the calls placed on [programContext], in order *)
Definition calls_of (tr : list Event) : list Call :=
  omap (λ ev, match ev with EvCall c => Some c | EvVisit _ _ => None end) tr.

(** the expression nodes visited, in order *)
Definition visits_of (tr : list Event) : list Node :=
  omap (λ ev, match ev with EvVisit n _ => Some n | EvCall _ => None end) tr.

(** the state in which the body of a method is visited: after the call
    of [buildEnvForMethod], with the environment it answered stored as a
    new dictionary *)
Definition method_state {Reg} (node : NodeClassMethod) (previousEnv : loc)
    (newEnv : Env) (r : Reg) (s : State Reg) : State Reg :=
  mkState (heap s ++ [newEnv]) r
    (trace s ++ [EvCall (BuildEnvForMethod node (deref previousEnv s))]).

(** ** Evaluating a list of items in order *)

(** [visit_all f xs] evaluates the items of [xs] with [f] one after the
    other, each in the state left by the one before, and returns their
    results in order; an exception ends it. *)
Fixpoint visit_all {Reg A} (f : A → M Reg Val) (xs : list A)
    : M Reg (list Val) :=
  match xs with
  | [] => mret []
  | x :: xs => v ← f x; vs ← visit_all f xs; mret (v :: vs)
  end.

(** no value of [vs] is a diagnostic *)
Definition all_types (vs : list Val) : Prop :=
  Forall (λ v, is_error v = false) vs.

(** ** Positions recorded by pass 1 *)

(** the declarations of [classes] named [name], in order *)
Definition declarations_of (name : string) (classes : list NodeClass)
    : list NodeClass :=
  List.filter (λ c, String.eqb (class_idName c) name) classes.

Definition class_pos (c : NodeClass) : Pos := (class_line c, class_column c).

(** the dictionary [line_and_col] after the classes have been walked *)
Definition recorded_positions (classes : list NodeClass) : gmap string Pos :=
  foldl (λ line_and_col c, <[class_idName c := class_pos c]> line_and_col)
    ∅ classes.

(** ** Pass 2, as the spec words it

    "For every registered type except the root, call [relateInheritance]
    with its declared parent and the recorded position": [relate_all]
    walks the names [names] in order and returns the state of
    [programContext] after the calls together with, for every call placed,
    the call and its answer.  The parent handed over is the one the
    registry holds for the type when the call is placed; the position is
    the one recorded under the name of the type, or [(0, 0)] when there is
    none. *)
Fixpoint relate_all {Reg} (ctx : Context Reg) (line_and_col : gmap string Pos)
    (names : list string) (reg : Reg) : Reg * list (Call * Val) :=
  match names with
  | [] => (reg, [])
  | _type :: names =>
      if String.eqb _type "Object" then relate_all ctx line_and_col names reg
      else
        let declared :=
          default VNone
            (parent <$> TypeInheritanceVisitor.dict_get (types ctx reg) _type) in
        let pos := default (0, 0)%Z (line_and_col !! _type) in
        let answer := relateInheritance ctx _type declared pos reg in
        let rest := relate_all ctx line_and_col names answer.1 in
        (rest.1, (RelateInheritance _type declared pos, answer.2) :: rest.2)
  end.

(** the names of the registered types, in the order of the dictionary *)
Definition names_of {Reg} (ctx : Context Reg) (r : Reg) : list string :=
  (types ctx r).*1.

(** [relateInheritance] changes neither the set nor the order of the
    registered names *)
Definition keeps_names {Reg} (ctx : Context Reg) : Prop :=
  ∀ _type declared pos r,
    names_of ctx (relateInheritance ctx _type declared pos r).1 = names_of ctx r.

(** the registered types but the root *)
Definition non_root (names : list string) : list string :=
  List.filter (λ t, negb (String.eqb t "Object")) names.

(** ** What a computation may touch in the store *)

(** [touches_only env m]: running [m] keeps every dictionary of the store
    in place, and leaves the content of every dictionary that existed
    before the run as it was, except possibly the one at [env]. *)
Definition touches_only {Reg A} (env : option loc) (m : M Reg A) : Prop :=
  ∀ s s' o, m s = (s', o) →
    length (heap s) ≤ length (heap s')
    ∧ ∀ l, l < length (heap s) → Some l ≠ env → heap s' !! l = heap s !! l.

(** ** Example inputs *)

Definition p0 : Pos := (1, 1)%Z.

(** [let a: Int <- 1, b: Int <- a + 1 in b] *)
Definition let_chain : Node :=
  NodeLetComplex
    [ mkNodeLet "a" "Int" (NodeInteger p0) p0;
      mkNodeLet "b" "Int"
        (NodeBinaryOperation NodeAddition (NodeObject "a" p0) (NodeInteger p0)
           p0) p0 ]
    (NodeObject "b" p0) p0.

(** [f(x: Int, x: Int): Int { 1 }] *)
Definition method_duplicate_formal : NodeClassMethod :=
  mkNodeClassMethod "f" [mkFormalParam "x" "Int" p0; mkFormalParam "x" "Int" p0]
    "Int" (NodeInteger p0) p0.

(** [f(x: Int): Int { x }] *)
Definition method_identity : NodeClassMethod :=
  mkNodeClassMethod "f" [mkFormalParam "x" "Int" p0] "Int" (NodeObject "x" p0) p0.

(** [self.foo(1, true)] on a class whose method [foo] takes an [Int] and
    a [Bool] and returns a [String] *)
Definition registry_with_foo : SpecContext.Registry :=
  SpecContext.builtins ++
  [("A", SpecContext.mkClassInfo (VStr "Object") []
           [("foo", (["Int"; "Bool"], "String"))])].

Definition dispatch_foo (arguments : list Node) : Node :=
  NodeDynamicDispatch (NodeSelf p0) "foo" arguments p0.

Definition env_self_A : Env := {["wrapperType" := VStr "A"]}.

(** [class A], [class A] again, [class B] *)
Definition program_duplicate : NodeProgram :=
  mkNodeProgram
    [ mkNodeClass "A" "Object" 1 1 [] [];
      mkNodeClass "A" "Object" 5 1 [] [];
      mkNodeClass "B" "A" 9 1 [] [] ].

(** the built-in types and the classes [A] (child of [B]) and [B] (child
    of [A]) *)
Definition registry_cycle : SpecContext.Registry :=
  SpecContext.builtins ++
  [ ("A", SpecContext.mkClassInfo (VStr "B") [] []);
    ("B", SpecContext.mkClassInfo (VStr "A") [] []) ].

Definition positions_cycle : gmap string Pos :=
  {["A" := (1, 1)%Z; "B" := (5, 1)%Z]}.

(** [let a: Int <- 1] on its own *)
Definition bare_let : NodeLet_ := mkNodeLet "a" "Int" (NodeInteger p0) p0.

(** ** Checking the members of a class *)

(** [checked_in_order check xs s s' vs]: every item of [xs] is checked,
    one after the other from the state [s], each in the state that the one
    before has left and whatever the ones before have yielded; [vs] holds
    their results in order and [s'] is the state after the last one. *)
Inductive checked_in_order {Reg A}
    (check : A → State Reg → State Reg → Val → Prop)
    : list A → State Reg → State Reg → list Val → Prop :=
  | checked_nil s : checked_in_order check [] s s []
  | checked_cons x xs s s1 s2 v vs :
      check x s s1 v →
      checked_in_order check xs s1 s2 vs →
      checked_in_order check (x :: xs) s s2 (v :: vs).

(** The initializer of the attribute is evaluated against the class
    environment [classEnv] and yields [v]. *)
Definition attribute_checked {Reg} (ctx : Context Reg) (classEnv : loc)
    (nodeAttr : NodeAttr) (s s' : State Reg) (v : Val) : Prop :=
  TypeCheckerVisitor.visit ctx (attr_expr nodeAttr) classEnv s = (s', Ret v).

(** The check of a method where the class environment is [classEnv]: the
    method environment is built from the content of the class environment;
    - when that fails, the diagnostic is the result and the body is not
      evaluated;
    - otherwise the body is evaluated against the method environment,
      stored as a new dictionary; a diagnostic of the body is the result;
    - and when the body yields a type, [checkReturnType] is called with
      it, whose answer is the result. *)
Inductive method_checked {Reg} (ctx : Context Reg) (classEnv : loc)
    (node : NodeClassMethod) (s : State Reg) : State Reg → Val → Prop :=
  | method_env_fails r e :
      buildEnvForMethod ctx node (deref classEnv s) (registry s) = (r, inl e) →
      method_checked ctx classEnv node s
        (called (BuildEnvForMethod node (deref classEnv s)) r s) (VErr e)
  | method_body_fails r methodEnv s2 d :
      buildEnvForMethod ctx node (deref classEnv s) (registry s)
        = (r, inr methodEnv) →
      TypeCheckerVisitor.visit ctx (method_body node) (length (heap s))
        (method_state node classEnv methodEnv r s) = (s2, Ret d) →
      is_error d = true →
      method_checked ctx classEnv node s s2 d
  | method_body_checked r methodEnv s2 t :
      buildEnvForMethod ctx node (deref classEnv s) (registry s)
        = (r, inr methodEnv) →
      TypeCheckerVisitor.visit ctx (method_body node) (length (heap s))
        (method_state node classEnv methodEnv r s) = (s2, Ret t) →
      is_error t = false →
      method_checked ctx classEnv node s
        (called (CheckReturnType node t)
           (checkReturnType ctx node t (registry s2)).1 s2)
        (checkReturnType ctx node t (registry s2)).2.

(** Every attribute initializer and every method body of the class has
    been evaluated against the environment [classEnv]: the trace [tr]
    holds a visit of each of them with that environment. *)
Definition members_evaluated_against (c : NodeClass) (classEnv : loc)
    (tr : list Event) : Prop :=
  (∀ nodeAttr, nodeAttr ∈ attributes c →
     EvVisit (attr_expr nodeAttr) classEnv ∈ tr)
  ∧ (∀ nodeClassMethod, nodeClassMethod ∈ methods c →
       EvVisit (method_body nodeClassMethod) classEnv ∈ tr).

(** a class with the attribute [x: Int <- y] and the methods
    [f(x: Int, x: Int): Int { 1 }] and [f(x: Int): Int { x }] *)
Definition class_with_methods : NodeClass :=
  mkNodeClass "A" "Object" 1 1
    [ mkNodeAttr "x" "Int" (NodeObject "y" p0) p0 ]
    [ method_duplicate_formal; method_identity ].

(** ** Steps of a visit *)

(** [steps R m]: every run of [m], whatever its outcome, takes a state to
    a state related to it by [R]. *)
Definition steps {Reg A} (R : State Reg → State Reg → Prop) (m : M Reg A)
    : Prop :=
  ∀ s s' o, m s = (s', o) → R s s'.

(** The calls that the visit of an expression places on [programContext]:
    the method called, with its arguments, and the effect and answer that
    the context gives for it. *)
Inductive placed {Reg} (ctx : Context Reg) : Call → (Reg → Reg * Val) → Prop :=
  | placed_getType type pos :
      placed ctx (GetType type pos) (getType ctx type pos)
  | placed_searchValue node env :
      placed ctx (SearchValue node env) (searchValue ctx node env)
  | placed_checkAssign idName declared exprType pos :
      placed ctx (CheckAssign idName declared exprType pos)
        (checkAssign ctx idName declared exprType pos)
  | placed_checkAssign_node node result env :
      placed ctx (CheckAssignNode node result env)
        (checkAssign_node ctx node result env)
  | placed_checkArithmetic t1 t2 pos :
      placed ctx (CheckArithmetic t1 t2 pos) (checkArithmetic ctx t1 t2 pos)
  | placed_checkEqualOp t1 t2 pos :
      placed ctx (CheckEqualOp t1 t2 pos) (checkEqualOp ctx t1 t2 pos)
  | placed_checkDynamicDispatch typeExpr method argTypes pos :
      placed ctx (CheckDynamicDispatch typeExpr method argTypes pos)
        (checkDynamicDispatch ctx typeExpr method argTypes pos).

(** A relation on states that holds across each elementary step of the
    visit of an expression: entering [visit], creating a dictionary,
    updating one, and placing a call. *)
Record step_relation {Reg} (ctx : Context Reg)
    (R : State Reg → State Reg → Prop) : Prop := mk_step_relation {
  step_refl : ∀ s, R s s;
  step_trans : ∀ s1 s2 s3, R s1 s2 → R s2 s3 → R s1 s3;
  step_enter : ∀ node env s, R s (enter node env s);
  step_new : ∀ e s, R s (mkState (heap s ++ [e]) (registry s) (trace s));
  step_update : ∀ l k v s,
    R s (mkState (<[l := <[k := v]> (deref l s)]> (heap s)) (registry s)
           (trace s));
  step_call : ∀ c f s, placed ctx c f → R s (called c (f (registry s)).1 s)
}.

(** the methods of [programContext] that check an expression *)
Definition is_check (c : Call) : bool :=
  match c with
  | GetType _ _ | SearchValue _ _ | CheckAssign _ _ _ _ | CheckAssignNode _ _ _
  | CheckArithmetic _ _ _ | CheckEqualOp _ _ _
  | CheckDynamicDispatch _ _ _ _ => true
  | _ => false
  end.

(** an event that the visit of an expression may record *)
Definition expression_event (ev : Event) : Prop :=
  match ev with
  | EvVisit _ _ => True
  | EvCall c => is_check c = true
  end.

(** the checks of the context leave its state as it is *)
Definition pure_checks {Reg} (ctx : Context Reg) : Prop :=
  ∀ c f, placed ctx c f → ∀ r, (f r).1 = r.


(** the trace grows by events that the visit of an expression may record *)
Definition records_expression_events {Reg} (s s' : State Reg) : Prop :=
  ∃ evs, trace s' = trace s ++ evs ∧ Forall expression_event evs.


(** ** Shapes of expressions *)

(** No single let is visited with the environment of the caller: a
    [NodeLet] only occurs under a [NodeLetComplex] (whose sub-visits work
    on copies) or under a [NodeBooleanComplement] (whose operand is not
    visited). *)
Fixpoint no_bare_let (node : Node) : bool :=
  match node with
  | NodeLet _ => false
  | NodeAssignment _ expr _ => no_bare_let expr
  | NodeBinaryOperation _ first second _ => no_bare_let first && no_bare_let second
  | NodeDynamicDispatch expr _ arguments _ =>
      no_bare_let expr && forallb no_bare_let arguments
  | _ => true
  end.

(** ** Pass 4 over a program *)

(** the number of attributes and methods that a class declares *)
Definition declared_members (c : NodeClass) : nat :=
  length (attributes c) + length (methods c).

(** the type names [buildEnv] has been called with, in order *)
Definition build_env_calls (tr : list Event) : list string :=
  omap (λ ev, match ev with EvCall (BuildEnv n) => Some n | _ => None end) tr.

(** an event that checking a class may record: the visit of an
    expression, one of the checks of an expression, or a call of
    [buildEnvForMethod] or [checkReturnType] *)
Definition class_event (ev : Event) : Prop :=
  match ev with
  | EvVisit _ _ => True
  | EvCall (BuildEnvForMethod _ _) | EvCall (CheckReturnType _ _) => True
  | EvCall c => is_check c = true
  end.

(** the trace grows by events that satisfy [P] *)
Definition records {Reg} (P : Event → Prop) (s s' : State Reg) : Prop :=
  ∃ evs, trace s' = trace s ++ evs ∧ Forall P evs.

(** [class A { x: Int <- y; }] and [class B { f(): Int { 1 } }] *)
Definition program_two_classes : NodeProgram :=
  mkNodeProgram
    [ mkNodeClass "A" "Object" 1 1
        [mkNodeAttr "x" "Int" (NodeObject "y" p0) p0] [];
      mkNodeClass "B" "Object" 5 1 []
        [mkNodeClassMethod "f" [] "Int" (NodeInteger p0) p0] ].

(** ** Pass 3: the calls for a method, a class, a program *)

(** the calls that registering the signature of a method takes: the
    return type, the type of every formal in order, then the method *)
Definition method_calls (typeName : string) (m : NodeClassMethod)
    : list TypeBuilderVisitor.BuilderCall :=
  TypeBuilderVisitor.GetTypeOf (returnType m) (method_pos m)
  :: ((λ f, TypeBuilderVisitor.GetTypeOf (formal_type f) (formal_pos f))
        <$> formal_param_list m)
  ++ [TypeBuilderVisitor.DefineMethod typeName m].

Definition class_calls (c : NodeClass) : list TypeBuilderVisitor.BuilderCall :=
  (TypeBuilderVisitor.DefineAttrInType (class_idName c) <$> attributes c)
  ++ concat (method_calls (class_idName c) <$> methods c).

(** the most diagnostics a method can give: return type, formals, method *)
Definition method_slots (m : NodeClassMethod) : nat :=
  2 + length (formal_param_list m).

Definition class_slots (c : NodeClass) : nat :=
  length (attributes c) + sum_list_with method_slots (methods c).

(** what a step of pass 3 does, started where [currentTypeName] is
    [name]: it places the calls [calls], leaves [currentTypeName] at
    [name'], and returns at most [slots] values, all diagnostics *)
Definition builder_step {Reg} (name name' : string)
    (calls : list TypeBuilderVisitor.BuilderCall) (slots : nat)
    (m : TypeBuilderVisitor.B Reg (list Val)) : Prop :=
  ∀ s, TypeBuilderVisitor.currentTypeName s = name →
    TypeBuilderVisitor.builder_trace (m s).1 =
      TypeBuilderVisitor.builder_trace s ++ calls
    ∧ TypeBuilderVisitor.currentTypeName (m s).1 = name'
    ∧ Forall (λ v, is_error v = true) (m s).2
    ∧ length (m s).2 ≤ slots.

(** the effect and the answer that [programContext] gives for a call of
    pass 3 *)
Definition answer_of {Reg} (ctx : Context Reg)
    (defs : TypeBuilderVisitor.Definitions Reg)
    (c : TypeBuilderVisitor.BuilderCall) : Reg → Reg * Val :=
  match c with
  | TypeBuilderVisitor.DefineAttrInType typeName node =>
      TypeBuilderVisitor.defineAttrInType defs typeName node
  | TypeBuilderVisitor.GetTypeOf idName row_and_col =>
      getType ctx idName row_and_col
  | TypeBuilderVisitor.DefineMethod typeName node =>
      TypeBuilderVisitor.defineMethod defs typeName node
  end.

(** the answers to [calls], placed one after the other where the state of
    [programContext] is [r], with the state after the last of them *)
Fixpoint answers {Reg} (ctx : Context Reg)
    (defs : TypeBuilderVisitor.Definitions Reg)
    (calls : list TypeBuilderVisitor.BuilderCall) (r : Reg)
    : Reg * list Val :=
  match calls with
  | [] => (r, [])
  | c :: calls =>
      let answer := answer_of ctx defs c r in
      let rest := answers ctx defs calls answer.1 in
      (rest.1, answer.2 :: rest.2)
  end.

(** what a step of pass 3 comes to, started where [currentTypeName] is
    [name]: it places the calls [calls], leaves [currentTypeName] at
    [name'], and returns the diagnostics among the answers to the calls,
    in their order *)
Definition builder_run {Reg} (ctx : Context Reg)
    (defs : TypeBuilderVisitor.Definitions Reg) (name name' : string)
    (calls : list TypeBuilderVisitor.BuilderCall)
    (m : TypeBuilderVisitor.B Reg (list Val)) : Prop :=
  ∀ s, TypeBuilderVisitor.currentTypeName s = name →
    m s =
      (TypeBuilderVisitor.mkBuilder name'
         (answers ctx defs calls (TypeBuilderVisitor.builder_registry s)).1
         (TypeBuilderVisitor.builder_trace s ++ calls),
       List.filter is_error
         (answers ctx defs calls (TypeBuilderVisitor.builder_registry s)).2).

(** ** Passes 1 and 2 together *)

(** the position pass 1 leaves for a type name: the one of the last class
    declared under that name, [(0, 0)] when the program declares none *)
Definition position_of (classes : list NodeClass) (name : string) : Pos :=
  default (0, 0)%Z (class_pos <$> last (declarations_of name classes)).

(** the reference context, except that [relateInheritance] registers a
    new type at every call *)
Definition growing_context : Context SpecContext.Registry :=
  mkContext SpecContext.Registry
    (types SpecContext.programContext)
    SpecContext.createType
    (λ child parentName pos reg,
       (reg ++ [(child +:+ "'", SpecContext.mkClassInfo (VStr "Object") [] [])],
        VNone))
    SpecContext.getType SpecContext.buildEnv SpecContext.buildEnvForMethod
    SpecContext.checkReturnType SpecContext.checkAssign
    SpecContext.checkAssign_node SpecContext.checkArithmetic
    SpecContext.checkEqualOp SpecContext.searchValue
    SpecContext.checkDynamicDispatch.

(** ** The nodes a visit enters, and the exceptions it raises *)

(** The nodes that the visit of [node] may enter: the node itself and,
    below it, the sub-expressions its method visits (the operand of a
    boolean complement is not among them; a nested let of a chain is
    entered as a [NodeLet]). *)
Fixpoint visited_nodes (node : Node) : list Node :=
  node ::
  match node with
  | NodeAssignment _ expr _ => visited_nodes expr
  | NodeBinaryOperation _ first second _ =>
      visited_nodes first ++ visited_nodes second
  | NodeLet nodeLet => visited_nodes (let_body nodeLet)
  | NodeLetComplex nestedLets body _ =>
      flat_map (λ nodeLet, NodeLet nodeLet :: visited_nodes (let_body nodeLet))
        nestedLets
      ++ visited_nodes body
  | NodeDynamicDispatch expr _ arguments _ =>
      visited_nodes expr ++ flat_map visited_nodes arguments
  | _ => []
  end.

(** [cause e n]: the method for the node [n] is what raises [e].
    [RecursionError] has no cause here: the interpreter raises it wherever
    the calls are nested too deep. *)
Definition cause (e : Exn) (n : Node) : Prop :=
  match e, n with
  | Exception msg, NodeOther name _ _ =>
      msg = "Not implemented visit_" +:+ name +:+ " method"
  | KeyError k, NodeSelf _ => k = "wrapperType"
  | UnboundLocalError x, NodeLetComplex [] _ _ => x = "newEnv"
  | _, _ => False
  end.

(** the visits recorded are visits of nodes of [ns] *)
Definition enters_only (ns : list Node) (ev : Event) : Prop :=
  match ev with
  | EvVisit n _ => n ∈ ns
  | EvCall _ => True
  end.

(** [confined ns env m]: run where [env] is a dictionary of the store,
    [m] only enters nodes of [ns], and an exception it raises, unless it
    is [RecursionError], is caused by a node of [ns]. *)
Definition confined {Reg A} (ns : list Node) (env : loc) (m : M Reg A)
    : Prop :=
  ∀ s s' o, env < length (heap s) → m s = (s', o) →
    (∃ evs, trace s' = trace s ++ evs ∧ Forall (enters_only ns) evs)
    ∧ (∀ e, o = Raise e → e ≠ RecursionError → ∃ n, n ∈ ns ∧ cause e n).

(** * Properties *)

(** ** Running the monad *)

Lemma run_bind {Reg A B} (m : M Reg A) (f : A → M Reg B) s :
  (m ≫= f) s =
  match m s with
  | (s', Ret a) => f a s'
  | (s', Raise e) => (s', Raise e)
  end.
Proof. reflexivity. Qed.

Lemma run_bind_ret {Reg A B} (m : M Reg A) (f : A → M Reg B) s s' a :
  m s = (s', Ret a) → (m ≫= f) s = f a s'.
Proof. intros H. rewrite run_bind, H. reflexivity. Qed.

Lemma run_bind_raise {Reg A B} (m : M Reg A) (f : A → M Reg B) s s' e :
  m s = (s', Raise e) → (m ≫= f) s = (s', Raise e).
Proof. intros H. rewrite run_bind, H. reflexivity. Qed.

Lemma run_call {Reg A} (c : Call) (f : Reg → Reg * A) (s : State Reg) :
  call c f s = (called c (f (registry s)).1 s, Ret (f (registry s)).2).
Proof. unfold call, called. destruct (f (registry s)); reflexivity. Qed.

Section VisitEquations.
Context {Reg : Type} (ctx : Context Reg).
Import TypeCheckerVisitor.

Lemma visit_binary kind first second pos env s :
  visit ctx (NodeBinaryOperation kind first second pos) env s =
  visit_NodeBinaryOperation ctx (visit ctx) kind first second pos env
    (enter (NodeBinaryOperation kind first second pos) env s).
Proof. reflexivity. Qed.

Lemma visit_let nodeLet env s :
  visit ctx (NodeLet nodeLet) env s =
  visit_NodeLet ctx (visit ctx) nodeLet env (enter (NodeLet nodeLet) env s).
Proof. reflexivity. Qed.

Lemma visit_dispatch expr method arguments pos env s :
  visit ctx (NodeDynamicDispatch expr method arguments pos) env s =
  visit_NodeDynamicDispatch ctx (visit ctx) expr method arguments pos env
    (enter (NodeDynamicDispatch expr method arguments pos) env s).
Proof. reflexivity. Qed.

End VisitEquations.

(** ** Binary operations *)

Section BinaryOperation.
Context {Reg : Type} (ctx : Context Reg).
Import TypeCheckerVisitor.

(** Both operands are visited before either result is inspected: when
    the first operand yields a diagnostic, the visit of the binary node
    ends in the state reached after the second operand, and an exception
    raised by the second operand replaces the diagnostic. *)
Lemma binary_first_diagnostic kind first second pos env s s1 d s2 o2 :
  visit ctx first env (enter (NodeBinaryOperation kind first second pos) env s)
    = (s1, Ret d) →
  is_error d = true →
  visit ctx second env s1 = (s2, o2) →
  visit ctx (NodeBinaryOperation kind first second pos) env s =
    (s2, match o2 with Ret _ => Ret d | Raise e => Raise e end).
Proof.
  intros H1 Hd H2. rewrite visit_binary. unfold visit_NodeBinaryOperation.
  rewrite (run_bind_ret _ _ _ _ _ H1), run_bind, H2.
  destruct o2; [rewrite Hd|]; reflexivity.
Qed.

(** C3. A binary node that is neither an addition, a subtraction, a
    multiplication, a division nor an equality, and whose two operands
    both yield a value that is not a diagnostic, makes the visitor fall
    through: the visit returns [None], in the state reached after the
    second operand (no check of [programContext] is called). *)
Theorem binary_other_kind_returns_None kind first second pos env s s1 t1 s2 t2 :
  is_arithmetic kind = false →
  is_equal kind = false →
  visit ctx first env (enter (NodeBinaryOperation kind first second pos) env s)
    = (s1, Ret t1) →
  is_error t1 = false →
  visit ctx second env s1 = (s2, Ret t2) →
  is_error t2 = false →
  visit ctx (NodeBinaryOperation kind first second pos) env s = (s2, Ret VNone).
Proof.
  intros Ha He H1 Ht1 H2 Ht2. rewrite visit_binary.
  unfold visit_NodeBinaryOperation.
  rewrite (run_bind_ret _ _ _ _ _ H1), (run_bind_ret _ _ _ _ _ H2).
  rewrite Ht1, Ht2, Ha, He. reflexivity.
Qed.

(** The kinds excluded by C3 are exactly the five the visitor names. *)
Lemma unhandled_kind_iff kind :
  is_arithmetic kind = false ∧ is_equal kind = false ↔
  ∃ name, kind = OtherBinary name.
Proof.
  split.
  - intros [Ha He]. destruct kind; try discriminate. eauto.
  - intros [name ->]. split; reflexivity.
Qed.

End BinaryOperation.


Lemma binary_other_kind_returns_None_witness :
  TypeCheckerVisitor.visit SpecContext.programContext
    (NodeBinaryOperation (OtherBinary "NodeLessThan")
       (NodeInteger p0) (NodeInteger p0) p0) 0 (SpecContext.start ∅)
  = (mkState [∅] SpecContext.builtins
       [ EvVisit (NodeBinaryOperation (OtherBinary "NodeLessThan")
                    (NodeInteger p0) (NodeInteger p0) p0) 0;
         EvVisit (NodeInteger p0) 0; EvVisit (NodeInteger p0) 0 ],
     Ret VNone).
Proof.
  eapply (binary_other_kind_returns_None SpecContext.programContext
            (OtherBinary "NodeLessThan") (NodeInteger p0) (NodeInteger p0) p0 0
            (SpecContext.start ∅) _ (VStr "Int") _ (VStr "Int"));
    reflexivity.
Defined.

(** C1. The sum [x + y], checked where neither [x] nor [y] is bound: the
    first operand yields a diagnostic, and the second operand is visited
    and looked up all the same before that diagnostic is returned.  With a
    second operand of a class the visitor has no method for, the visit
    ends in the exception of the second operand, not in the diagnostic of
    the first. *)
Theorem binary_operation_visits_second_operand_after_diagnostic :
  let x := NodeObject "x" p0 in
  let y := NodeObject "y" p0 in
  let other := NodeOther "NodeIf" p0 eq_refl in
  TypeCheckerVisitor.visit SpecContext.programContext
    (NodeBinaryOperation NodeAddition x y p0) 0 (SpecContext.start ∅)
  = (mkState [∅] SpecContext.builtins
       [ EvVisit (NodeBinaryOperation NodeAddition x y p0) 0;
         EvVisit x 0; EvCall (SearchValue x ∅);
         EvVisit y 0; EvCall (SearchValue y ∅) ],
     Ret (VErr (mk_error "UnknownVariable" "x" p0)))
  ∧
  TypeCheckerVisitor.visit SpecContext.programContext
    (NodeBinaryOperation NodeAddition x other p0) 0 (SpecContext.start ∅)
  = (mkState [∅] SpecContext.builtins
       [ EvVisit (NodeBinaryOperation NodeAddition x other p0) 0;
         EvVisit x 0; EvCall (SearchValue x ∅);
         EvVisit other 0 ],
     Raise (Exception "Not implemented visit_NodeIf method")).
Proof. split; reflexivity. Qed.

(** ** Nodes without a method *)

Section NotImplemented.
Context {Reg : Type} (ctx : Context Reg).
Import TypeCheckerVisitor.

(** C9. A node whose first base class is not [NodeBinaryOperation] and
    for whose class name the visitor has no [visit_] method: visiting it
    raises the exception of [not_implemented]; no value is returned. *)
Theorem visit_without_method_raises node env s :
  base_is_NodeBinaryOperation node = false →
  getattr (NodeVisitor.visitor_method_name node) = None →
  visit ctx node env s =
    (enter node env s,
     Raise (Exception ("Not implemented visit_" +:+ clsname node +:+ " method"))).
Proof.
  intros Hb Hg. destruct node; try discriminate Hb; try discriminate Hg.
  cbn [visit base_is_NodeBinaryOperation]. rewrite run_bind. cbn [log].
  rewrite Hg. reflexivity.
Qed.

End NotImplemented.

Lemma visit_without_method_raises_witness :
  TypeCheckerVisitor.visit SpecContext.programContext (NodeOther "NodeIf" p0 eq_refl) 0
    (SpecContext.start ∅)
  = (mkState [∅] SpecContext.builtins [EvVisit (NodeOther "NodeIf" p0 eq_refl) 0],
     Raise (Exception "Not implemented visit_NodeIf method")).
Proof.
  apply (visit_without_method_raises SpecContext.programContext
           (NodeOther "NodeIf" p0 eq_refl) 0 (SpecContext.start ∅)); reflexivity.
Defined.

(** ** Method declarations *)

Section ClassMethod.
Context {Reg : Type} (ctx : Context Reg).
Import TypeCheckerVisitor.


(** C5. [visit_NodeClassMethod] first calls [buildEnvForMethod] with the
    method and the enclosing environment.
    - When that call answers with a diagnostic, the diagnostic is
      returned in the state reached right after the call: the body is
      not visited and nothing else is called.
    - Otherwise the body is visited in the new environment.  When the
      body raises, or yields a diagnostic, that is the result, in the
      state reached after the body: [checkReturnType] is not called.
    - When the body yields a value that is not a diagnostic,
      [checkReturnType] is called with the method and that value, and
      its answer is the result. *)
Theorem visit_NodeClassMethod_steps node previousEnv s :
  let env := deref previousEnv s in
  let built := buildEnvForMethod ctx node env (registry s) in
  (∀ e, built.2 = inl e →
     visit_NodeClassMethod ctx node previousEnv s =
       (called (BuildEnvForMethod node env) built.1 s, Ret (VErr e)))
  ∧
  (∀ newEnv, built.2 = inr newEnv →
     let s1 := method_state node previousEnv newEnv built.1 s in
     let newloc := length (heap s) in
     (∀ s2 e, visit ctx (method_body node) newloc s1 = (s2, Raise e) →
        visit_NodeClassMethod ctx node previousEnv s = (s2, Raise e))
     ∧
     (∀ s2 d, visit ctx (method_body node) newloc s1 = (s2, Ret d) →
        is_error d = true →
        visit_NodeClassMethod ctx node previousEnv s = (s2, Ret d))
     ∧
     (∀ s2 t, visit ctx (method_body node) newloc s1 = (s2, Ret t) →
        is_error t = false →
        visit_NodeClassMethod ctx node previousEnv s =
          (called (CheckReturnType node t)
             (checkReturnType ctx node t (registry s2)).1 s2,
           Ret (checkReturnType ctx node t (registry s2)).2))).
Proof.
  intros env built. unfold visit_NodeClassMethod.
  rewrite run_bind. cbn [env_read]. rewrite run_bind, run_call.
  fold env. fold built. split.
  - intros e ->. reflexivity.
  - intros newEnv ->. cbn zeta. unfold method_state. fold env.
    rewrite run_bind. cbn [env_new called heap registry trace].
    repeat split.
    + intros s2 e H. rewrite run_bind, H. reflexivity.
    + intros s2 d H Hd. rewrite run_bind, H, Hd. reflexivity.
    + intros s2 t H Ht. rewrite run_bind, H, Ht. apply run_call.
Qed.

End ClassMethod.

Lemma visit_NodeClassMethod_steps_witness :
  TypeCheckerVisitor.visit_NodeClassMethod SpecContext.programContext
    method_duplicate_formal 0 (SpecContext.start ∅)
  = (mkState [∅] SpecContext.builtins
       [EvCall (BuildEnvForMethod method_duplicate_formal ∅)],
     Ret (VErr (mk_error "DuplicateFormal" "x" p0)))
  ∧
  TypeCheckerVisitor.visit_NodeClassMethod SpecContext.programContext
    method_identity 0 (SpecContext.start ∅)
  = (mkState [∅; {["x" := VStr "Int"]}] SpecContext.builtins
       [ EvCall (BuildEnvForMethod method_identity ∅);
         EvVisit (NodeObject "x" p0) 1;
         EvCall (SearchValue (NodeObject "x" p0) {["x" := VStr "Int"]});
         EvCall (CheckReturnType method_identity (VStr "Int")) ],
     Ret (VStr "Int")).
Proof.
  split.
  - apply (proj1 (visit_NodeClassMethod_steps SpecContext.programContext
                    method_duplicate_formal 0 (SpecContext.start ∅))).
    reflexivity.
  - pose proof (proj2 (visit_NodeClassMethod_steps SpecContext.programContext
                         method_identity 0 (SpecContext.start ∅))
                  {["x" := VStr "Int"]} eq_refl) as (_ & _ & H).
    exact (eq_trans
             (H (mkState [∅; {["x" := VStr "Int"]}] SpecContext.builtins
                   [ EvCall (BuildEnvForMethod method_identity ∅);
                     EvVisit (NodeObject "x" p0) 1;
                     EvCall (SearchValue (NodeObject "x" p0)
                               {["x" := VStr "Int"]}) ])
                (VStr "Int") eq_refl eq_refl)
             eq_refl).
Defined.

(** ** Chained lets *)

(** C2. The chain [let a: Int <- 1, b: Int <- a + 1 in b], checked in an
    environment that does not bind [a]: every nested let is visited with a
    new copy of the environment of the caller, so the initializer of [b]
    does not see [a]; [searchValue] is asked for [a] in the empty
    environment and the chain yields its diagnostic, not [Int]. *)
Theorem let_chain_does_not_see_sibling :
  let run := TypeCheckerVisitor.visit SpecContext.programContext let_chain 0
               (SpecContext.start ∅) in
  run.2 = Ret (VErr (mk_error "UnknownVariable" "a" p0))
  ∧ calls_of (trace run.1) =
      [ CheckAssign "a" (VStr "Int") (VStr "Int") p0;
        SearchValue (NodeObject "a" p0) ∅ ]
  ∧ heap run.1 = [∅; {["a" := VStr "Int"]}; ∅].
Proof. repeat split; reflexivity. Qed.

(** ** Dynamic dispatch *)

Section DynamicDispatch.
Context {Reg : Type} (ctx : Context Reg).
Import TypeCheckerVisitor.

Lemma visit_all_app {A} (f : A → M Reg Val) xs ys s s1 vs :
  visit_all f xs s = (s1, Ret vs) →
  visit_all f (xs ++ ys) s =
    match visit_all f ys s1 with
    | (s2, Ret ws) => (s2, Ret (vs ++ ws))
    | (s2, Raise e) => (s2, Raise e)
    end.
Proof.
  revert s vs. induction xs as [|x xs IH]; intros s vs H.
  - cbn in H. injection H as <- <-. cbn. destruct (visit_all f ys s) as [s2 []]; reflexivity.
  - cbn [visit_all app] in *. rewrite run_bind in *.
    destruct (f x s) as [sx [v|e]]; [|discriminate].
    rewrite run_bind in *.
    destruct (visit_all f xs sx) as [sy [vs'|e]] eqn:E; [|discriminate].
    injection H as <- <-.
    rewrite (IH _ _ E).
    destruct (visit_all f ys sy) as [s2 []]; reflexivity.
Qed.

Lemma visit_all_length {A} (f : A → M Reg Val) xs s s1 vs :
  visit_all f xs s = (s1, Ret vs) → length vs = length xs.
Proof.
  revert s vs. induction xs as [|x xs IH]; intros s vs H.
  - injection H as <- <-. reflexivity.
  - cbn [visit_all] in H. rewrite run_bind in H.
    destruct (f x s) as [sx [v|e]]; [|discriminate].
    rewrite run_bind in H.
    destruct (visit_all f xs sx) as [sy [vs'|e]] eqn:E; [|discriminate].
    injection H as <- <-. cbn. f_equal. eauto.
Qed.

(** The loop over the arguments: after a prefix of arguments that all
    yield types, the loop goes on with the rest, the types appended to
    [argTypes] in order. *)
Lemma dispatch_loop_prefix typeExpr method pos env pre rest argTypes s s1 ts :
  visit_all (λ arg, visit ctx arg env) pre s = (s1, Ret ts) →
  all_types ts →
  visit_NodeDynamicDispatch_loop ctx (visit ctx) typeExpr method pos env
    (pre ++ rest) argTypes s =
  visit_NodeDynamicDispatch_loop ctx (visit ctx) typeExpr method pos env
    rest (argTypes ++ ts) s1.
Proof.
  revert argTypes s ts. induction pre as [|a pre IH]; intros argTypes s ts H Hts.
  - injection H as <- <-. rewrite app_nil_r. reflexivity.
  - cbn [visit_all] in H. rewrite run_bind in H.
    destruct (visit ctx a env s) as [sa [t|e]] eqn:Ea; [|discriminate].
    rewrite run_bind in H.
    destruct (visit_all _ pre sa) as [sb [ts'|e]] eqn:Eb; [|discriminate].
    injection H as <- <-. inversion Hts as [|? ? Ht Hts']; subst.
    cbn [app visit_NodeDynamicDispatch_loop]. rewrite run_bind, Ea, Ht.
    rewrite (IH _ _ _ Eb Hts'), <- app_assoc. reflexivity.
Qed.

(** C4. [visit_NodeDynamicDispatch] visits the receiver first.
    - When the receiver yields a diagnostic, that diagnostic is the
      result, in the state reached after the receiver: no argument is
      visited.
    - When the receiver and a prefix of the arguments yield types and the
      next argument yields a diagnostic, that diagnostic is the result, in
      the state reached after that argument: no later argument is visited
      and [checkDynamicDispatch] is not called.
    - When the receiver and all arguments yield types,
      [checkDynamicDispatch] is called with the type of the receiver, the
      method name, the types of the arguments in order and the position of
      the node, and its answer is the result. *)
Theorem visit_NodeDynamicDispatch_steps expr method arguments pos env s :
  let node := NodeDynamicDispatch expr method arguments pos in
  (∀ s1 d, visit ctx expr env (enter node env s) = (s1, Ret d) →
     is_error d = true →
     visit ctx node env s = (s1, Ret d))
  ∧
  (∀ s1 typeExpr, visit ctx expr env (enter node env s) = (s1, Ret typeExpr) →
     is_error typeExpr = false →
     (∀ pre arg post s2 ts s3 d,
        arguments = pre ++ arg :: post →
        visit_all (λ a, visit ctx a env) pre s1 = (s2, Ret ts) →
        all_types ts →
        visit ctx arg env s2 = (s3, Ret d) →
        is_error d = true →
        visit ctx node env s = (s3, Ret d))
     ∧
     (∀ s2 argTypes,
        visit_all (λ a, visit ctx a env) arguments s1 = (s2, Ret argTypes) →
        all_types argTypes →
        let answer :=
          checkDynamicDispatch ctx typeExpr method argTypes pos (registry s2) in
        visit ctx node env s =
          (called (CheckDynamicDispatch typeExpr method argTypes pos)
             answer.1 s2,
           Ret answer.2))).
Proof.
  intros node. subst node. split.
  - intros s1 d H Hd. rewrite visit_dispatch. unfold visit_NodeDynamicDispatch.
    rewrite run_bind, H, Hd. reflexivity.
  - intros s1 typeExpr H Ht. split.
    + intros pre arg post s2 ts s3 d -> Hpre Hts Harg Hd.
      rewrite visit_dispatch. unfold visit_NodeDynamicDispatch.
      rewrite run_bind, H, Ht.
      rewrite (dispatch_loop_prefix _ _ _ _ _ _ _ _ _ _ Hpre Hts).
      cbn [visit_NodeDynamicDispatch_loop]. rewrite run_bind, Harg, Hd.
      reflexivity.
    + intros s2 argTypes Hall Hts answer.
      rewrite visit_dispatch. unfold visit_NodeDynamicDispatch.
      rewrite run_bind, H, Ht.
      rewrite <- (app_nil_r arguments).
      rewrite (dispatch_loop_prefix _ _ _ _ _ _ _ _ _ _ Hall Hts).
      cbn [visit_NodeDynamicDispatch_loop app]. apply run_call.
Qed.

End DynamicDispatch.

(** On the reference context, a dispatch that passes the check yields the
    declared return type of the method. *)
Lemma spec_checkDynamicDispatch_success reg t method formals ret argTypes pos :
  SpecContext.find_method reg (length reg) t method = Some (formals, ret) →
  length formals = length argTypes →
  forallb (λ af, SpecContext.conforms reg (fst af) (VStr (snd af)))
    (zip argTypes formals) = true →
  SpecContext.checkDynamicDispatch (VStr t) method argTypes pos reg
  = (reg, VStr ret).
Proof.
  intros Hfind Hlen Hconf. unfold SpecContext.checkDynamicDispatch.
  rewrite Hfind, Hlen, Nat.eqb_refl, Hconf. reflexivity.
Qed.

Lemma visit_NodeDynamicDispatch_steps_witness :
  (∃ s', TypeCheckerVisitor.visit SpecContext.programContext
           (dispatch_foo
              [NodeInteger p0; NodeObject "y" p0; NodeOther "NodeIf" p0 eq_refl]) 0
           (mkState [env_self_A] registry_with_foo [])
         = (s', Ret (VErr (mk_error "UnknownVariable" "y" p0)))
         ∧ visits_of (trace s') =
             [ dispatch_foo
                 [NodeInteger p0; NodeObject "y" p0; NodeOther "NodeIf" p0 eq_refl];
               NodeSelf p0; NodeInteger p0; NodeObject "y" p0 ])
  ∧
  (∃ s', TypeCheckerVisitor.visit SpecContext.programContext
           (dispatch_foo [NodeInteger p0; NodeBoolean p0]) 0
           (mkState [env_self_A] registry_with_foo [])
         = (s', Ret (VStr "String"))
         ∧ calls_of (trace s') =
             [CheckDynamicDispatch (VStr "A") "foo" [VStr "Int"; VStr "Bool"] p0]).
Proof.
  split.
  - destruct (visit_NodeDynamicDispatch_steps SpecContext.programContext
                (NodeSelf p0) "foo"
                [NodeInteger p0; NodeObject "y" p0; NodeOther "NodeIf" p0 eq_refl]
                p0 0 (mkState [env_self_A] registry_with_foo [])) as [_ H].
    edestruct H as [H1 _]; [reflexivity | reflexivity |].
    eexists. split.
    + eapply (H1 [NodeInteger p0] (NodeObject "y" p0) [NodeOther "NodeIf" p0 eq_refl]);
        [reflexivity | reflexivity | | reflexivity | reflexivity].
      repeat constructor.
    + reflexivity.
  - destruct (visit_NodeDynamicDispatch_steps SpecContext.programContext
                (NodeSelf p0) "foo" [NodeInteger p0; NodeBoolean p0]
                p0 0 (mkState [env_self_A] registry_with_foo [])) as [_ H].
    edestruct H as [_ H2]; [reflexivity | reflexivity |].
    eexists. split.
    + etransitivity; [eapply H2; [reflexivity | repeat constructor] |].
      reflexivity.
    + reflexivity.
Defined.

(** ** Accumulating loops *)

Section ForAppend.
Context {Reg : Type}.

Lemma run_visit_all_cons {A} (f : A → M Reg Val) x xs s :
  visit_all f (x :: xs) s =
  match f x s with
  | (s1, Ret v) =>
      match visit_all f xs s1 with
      | (s2, Ret vs) => (s2, Ret (v :: vs))
      | (s2, Raise e) => (s2, Raise e)
      end
  | (s1, Raise e) => (s1, Raise e)
  end.
Proof.
  cbn [visit_all]. rewrite run_bind. destruct (f x s) as [s1 [v|e]]; [|reflexivity].
  rewrite run_bind. destruct (visit_all f xs s1) as [s2 [vs|e]]; reflexivity.
Qed.

(** The loop evaluates every item, whatever the earlier ones returned,
    and keeps the results that pass the test, in order. *)
Lemma for_append_visit_all {A} (f : A → M Reg Val) test xs errors s :
  for_append f test xs errors s =
  (results ← visit_all f xs; mret (errors ++ List.filter test results)) s.
Proof.
  revert errors s. induction xs as [|x xs IH]; intros errors s.
  - cbn [for_append visit_all]. rewrite run_bind. cbn [mret M_ret List.filter].
    rewrite app_nil_r. reflexivity.
  - cbn [for_append]. rewrite !run_bind, run_visit_all_cons.
    destruct (f x s) as [s1 [v|e]]; [|reflexivity].
    rewrite IH, run_bind.
    destruct (visit_all f xs s1) as [s2 [vs|e]]; [|reflexivity].
    cbn [List.filter mret M_ret]. destruct (test v); [|reflexivity].
    rewrite <- app_assoc. reflexivity.
Qed.

Lemma filter_length_le {A} (test : A → bool) xs :
  length (List.filter test xs) ≤ length xs.
Proof. induction xs as [|x xs IH]; cbn; [lia|]. destruct (test x); cbn; lia. Qed.

End ForAppend.

(** ** Classes *)

Section Class.
Context {Reg : Type} (ctx : Context Reg).
Import TypeCheckerVisitor.

(** [visit_NodeClass] visits every attribute of the class and then
    every method, whatever the earlier ones returned, and keeps the
    diagnostics among their results, in that order. *)
Lemma visit_NodeClass_visit_all node previousEnv s :
  visit_NodeClass ctx node previousEnv s =
    (of_attrs ← visit_all (λ nodeAttr, visit_NodeAttr ctx nodeAttr previousEnv)
                  (attributes node);
     of_methods ← visit_all
                    (λ nodeClassMethod,
                       visit_NodeClassMethod ctx nodeClassMethod previousEnv)
                    (methods node);
     mret (List.filter is_error (of_attrs ++ of_methods))) s.
Proof.
  unfold visit_NodeClass. rewrite !run_bind, for_append_visit_all, run_bind.
  destruct (visit_all _ (attributes node) s) as [s1 [ra|e]]; [|reflexivity].
  cbn [mret M_ret app]. rewrite for_append_visit_all, !run_bind.
  destruct (visit_all _ (methods node) s1) as [s2 [rm|e]]; [|reflexivity].
  cbn [mret M_ret]. rewrite List.filter_app. reflexivity.
Qed.

(** A run of [visit_all] that returns is a chain of runs of the items
    that return, and the other way round. *)
Lemma visit_all_checked_in_order {A} (f : A → M Reg Val) xs s s' vs :
  visit_all f xs s = (s', Ret vs) ↔
  checked_in_order (λ x s s' v, f x s = (s', Ret v)) xs s s' vs.
Proof.
  split.
  - revert s vs. induction xs as [|x xs IH]; intros s vs.
    + intros [= <- <-]. constructor.
    + rewrite run_visit_all_cons.
      destruct (f x s) as [s1 [v|e]] eqn:Ex; [|discriminate].
      destruct (visit_all f xs s1) as [s2 [ws|e]] eqn:Exs; [|discriminate].
      intros [= <- <-]. econstructor; [exact Ex | by apply IH].
  - induction 1 as [s|x xs s s1 s2 v vs Hx _ IH]; [reflexivity|].
    by rewrite run_visit_all_cons, Hx, IH.
Qed.

Lemma checked_in_order_iff {A}
    (check check' : A → State Reg → State Reg → Val → Prop) xs s s' vs :
  (∀ x s s' v, check x s s' v ↔ check' x s s' v) →
  checked_in_order check xs s s' vs ↔ checked_in_order check' xs s s' vs.
Proof.
  intros Hiff. split; induction 1; econstructor; eauto; by apply Hiff.
Qed.

Lemma checked_in_order_length {A}
    (check : A → State Reg → State Reg → Val → Prop) xs s s' vs :
  checked_in_order check xs s s' vs → length vs = length xs.
Proof. induction 1; cbn; congruence. Qed.

(** The runs of [visit_NodeClassMethod] that return are the checks of a
    method that [method_checked] describes. *)
Lemma visit_NodeClassMethod_method_checked node previousEnv s s' v :
  visit_NodeClassMethod ctx node previousEnv s = (s', Ret v) ↔
  method_checked ctx previousEnv node s s' v.
Proof.
  unfold visit_NodeClassMethod. rewrite run_bind. cbn [env_read].
  rewrite run_bind, run_call.
  destruct (buildEnvForMethod ctx node (deref previousEnv s) (registry s))
    as [r [e|methodEnv]] eqn:Ebuilt; cbn [fst snd].
  - split.
    + intros [= <- <-]. by apply method_env_fails.
    + intros [r' e' H'|r' m' s2 d H' _ _|r' m' s2 t H' _ _];
        rewrite Ebuilt in H'; try discriminate H'.
      by injection H' as <- <-.
  - rewrite run_bind. cbn [env_new called heap registry trace].
    fold (method_state node previousEnv methodEnv r s). rewrite run_bind.
    split.
    + destruct (visit ctx (method_body node) (length (heap s))
                  (method_state node previousEnv methodEnv r s))
        as [s2 [t|e]] eqn:Ebody; [|discriminate].
      destruct (is_error t) eqn:Ht.
      * intros [= <- <-]. by eapply method_body_fails.
      * rewrite run_call. intros [= <- <-]. by eapply method_body_checked.
    + intros [r' e' H'|r' m' s2 d H' Hbody Hd|r' m' s2 t H' Hbody Ht];
        rewrite Ebuilt in H'; try discriminate H';
        injection H' as <- <-; rewrite Hbody.
      * by rewrite Hd.
      * rewrite Ht. apply run_call.
Qed.

(** C6. The runs of [visit_NodeClass] that return are these: every
    attribute initializer is evaluated against the class environment, in
    declaration order, and then every method is checked, in declaration
    order, each whatever the earlier ones yielded.  The check of a method
    builds the method environment from the class environment; when that
    fails, its diagnostic is the result of the method and the body is not
    evaluated; otherwise the body is evaluated against the method
    environment, a new dictionary, and not against the class environment.
    The result is the list of the diagnostics among the results of the
    attributes followed by those of the methods, so there is at most one
    per attribute or method. *)
Theorem visit_NodeClass_checks_members node previousEnv s s' errors :
  (visit_NodeClass ctx node previousEnv s = (s', Ret errors) ↔
   ∃ s1 of_attrs of_methods,
     checked_in_order (attribute_checked ctx previousEnv) (attributes node)
       s s1 of_attrs
     ∧ checked_in_order (method_checked ctx previousEnv) (methods node)
         s1 s' of_methods
     ∧ errors = List.filter is_error (of_attrs ++ of_methods))
  ∧
  (visit_NodeClass ctx node previousEnv s = (s', Ret errors) →
   length errors ≤ length (attributes node) + length (methods node)
   ∧ Forall (λ v, is_error v = true) errors).
Proof.
  assert (Hiff :
    visit_NodeClass ctx node previousEnv s = (s', Ret errors) ↔
    ∃ s1 of_attrs of_methods,
      checked_in_order (attribute_checked ctx previousEnv) (attributes node)
        s s1 of_attrs
      ∧ checked_in_order (method_checked ctx previousEnv) (methods node)
          s1 s' of_methods
      ∧ errors = List.filter is_error (of_attrs ++ of_methods)).
  { rewrite visit_NodeClass_visit_all, run_bind. split.
    - destruct (visit_all _ (attributes node) s) as [s1 [ra|e]] eqn:Ea;
        [|discriminate].
      rewrite run_bind.
      destruct (visit_all _ (methods node) s1) as [s2 [rm|e]] eqn:Em;
        [|discriminate].
      intros [= <- <-]. exists s1, ra, rm. split; [|split; [|done]].
      + by apply visit_all_checked_in_order in Ea.
      + apply visit_all_checked_in_order in Em.
        eapply checked_in_order_iff; [|exact Em].
        intros x t t' v. symmetry. apply visit_NodeClassMethod_method_checked.
    - intros (s1 & ra & rm & Ha & Hm & ->).
      apply (visit_all_checked_in_order
               (λ nodeAttr, visit_NodeAttr ctx nodeAttr previousEnv)) in Ha.
      rewrite Ha, run_bind.
      eapply checked_in_order_iff in Hm;
        [|intros x t t' v; apply visit_NodeClassMethod_method_checked].
      apply (visit_all_checked_in_order
               (λ nodeClassMethod,
                  visit_NodeClassMethod ctx nodeClassMethod previousEnv)) in Hm.
      by rewrite Hm. }
  split; [exact Hiff|].
  intros Hrun. apply Hiff in Hrun as (s1 & ra & rm & Ha & Hm & ->). split.
  - etransitivity; [apply filter_length_le|].
    rewrite length_app, (checked_in_order_length _ _ _ _ _ Ha),
      (checked_in_order_length _ _ _ _ _ Hm). lia.
  - apply Forall_forall. intros v Hv. apply list_elem_of_In, List.filter_In in Hv.
    tauto.
Qed.

End Class.

(** Counterexample to C6 as the claim words it, on [class_with_methods]:
    the body of the first method is not evaluated at all
    ([buildEnvForMethod] answers with [DuplicateFormal]), and the body of
    the second one is evaluated against the method environment (the
    dictionary at 1, which binds the formal [x]), where the class
    environment is the dictionary at 0. *)
Lemma visit_NodeClass_not_every_body_in_class_env :
  TypeCheckerVisitor.visit_NodeClass SpecContext.programContext
    class_with_methods 0 (SpecContext.start ∅)
  = (mkState [∅; {["x" := VStr "Int"]}] SpecContext.builtins
       [ EvVisit (NodeObject "y" p0) 0;
         EvCall (SearchValue (NodeObject "y" p0) ∅);
         EvCall (BuildEnvForMethod method_duplicate_formal ∅);
         EvCall (BuildEnvForMethod method_identity ∅);
         EvVisit (NodeObject "x" p0) 1;
         EvCall (SearchValue (NodeObject "x" p0) {["x" := VStr "Int"]});
         EvCall (CheckReturnType method_identity (VStr "Int")) ],
     Ret [ VErr (mk_error "UnknownVariable" "y" p0);
           VErr (mk_error "DuplicateFormal" "x" p0) ])
  ∧ ¬ members_evaluated_against class_with_methods 0
        (trace (TypeCheckerVisitor.visit_NodeClass SpecContext.programContext
                  class_with_methods 0 (SpecContext.start ∅)).1).
Proof.
  split; [reflexivity|]. intros [_ Hmethods].
  assert (Hin : method_duplicate_formal ∈ methods class_with_methods)
    by (apply elem_of_cons; by left).
  pose proof (Hmethods method_duplicate_formal Hin) as Hev.
  clear Hmethods Hin. apply list_elem_of_In in Hev. vm_compute in Hev.
  intuition discriminate.
Qed.

Lemma visit_NodeClass_checks_members_witness :
  TypeCheckerVisitor.visit_NodeClass SpecContext.programContext
    class_with_methods 0 (SpecContext.start ∅)
  = (mkState [∅; {["x" := VStr "Int"]}] SpecContext.builtins
       [ EvVisit (NodeObject "y" p0) 0;
         EvCall (SearchValue (NodeObject "y" p0) ∅);
         EvCall (BuildEnvForMethod method_duplicate_formal ∅);
         EvCall (BuildEnvForMethod method_identity ∅);
         EvVisit (NodeObject "x" p0) 1;
         EvCall (SearchValue (NodeObject "x" p0) {["x" := VStr "Int"]});
         EvCall (CheckReturnType method_identity (VStr "Int")) ],
     Ret [ VErr (mk_error "UnknownVariable" "y" p0);
           VErr (mk_error "DuplicateFormal" "x" p0) ]).
Proof.
  apply (proj1 (visit_NodeClass_checks_members SpecContext.programContext
                  class_with_methods 0 (SpecContext.start ∅) _ _)).
  exists (mkState [∅] SpecContext.builtins
            [ EvVisit (NodeObject "y" p0) 0;
              EvCall (SearchValue (NodeObject "y" p0) ∅) ]),
    [VErr (mk_error "UnknownVariable" "y" p0)],
    [VErr (mk_error "DuplicateFormal" "x" p0); VStr "Int"].
  split; [|split; [|reflexivity]].
  - eapply checked_cons; [reflexivity | apply checked_nil].
  - eapply checked_cons.
    + apply visit_NodeClassMethod_method_checked. reflexivity.
    + eapply checked_cons; [|apply checked_nil].
      apply visit_NodeClassMethod_method_checked. reflexivity.
Defined.

(** ** Pass 1 *)

Section Collector.
Context {Reg : Type} (ctx : Context Reg).
Import TypeCollectorVisitor.

Lemma collector_loop classes errors line_and_col s :
  visit_NodeProgram_loop ctx classes errors line_and_col s =
  (results ← visit_all (visit_NodeClass ctx) classes;
   mret (errors ++ List.filter truthy results,
         foldl (λ m c, <[class_idName c := class_pos c]> m) line_and_col
           classes)) s.
Proof.
  revert errors line_and_col s.
  induction classes as [|c classes IH]; intros errors line_and_col s.
  - cbn [visit_NodeProgram_loop visit_all]. rewrite run_bind.
    cbn [mret M_ret List.filter foldl]. rewrite app_nil_r. reflexivity.
  - cbn [visit_NodeProgram_loop foldl]. rewrite !run_bind, run_visit_all_cons.
    destruct (visit_NodeClass ctx c s) as [s1 [v|e]]; [|reflexivity].
    rewrite IH, run_bind.
    destruct (visit_all _ classes s1) as [s2 [vs|e]]; [|reflexivity].
    cbn [List.filter mret M_ret]. unfold class_pos.
    destruct (truthy v); [|reflexivity].
    rewrite <- app_assoc. reflexivity.
Qed.

(** Every class is handed to [createType], once and in order; the calls
    do not raise. *)
Lemma collector_visits_all classes s :
  ∃ s' results,
    visit_all (visit_NodeClass ctx) classes s = (s', Ret results)
    ∧ length results = length classes
    ∧ calls_of (trace s') = calls_of (trace s) ++ (CreateType <$> classes)
    ∧ heap s' = heap s.
Proof.
  revert s. induction classes as [|c classes IH]; intros s.
  - exists s, []. cbn. rewrite app_nil_r. auto.
  - rewrite run_visit_all_cons. unfold visit_NodeClass at 1. rewrite run_call.
    destruct (IH (called (CreateType c) (createType ctx c (registry s)).1 s))
      as (s' & results & -> & Hlen & Htr & Hheap).
    eexists _, _. split; [reflexivity|]. repeat split.
    + cbn. by rewrite Hlen.
    + rewrite Htr. unfold called, calls_of. cbn [trace].
      rewrite omap_app. cbn. rewrite <- app_assoc. reflexivity.
    + rewrite Hheap. reflexivity.
Qed.

Lemma recorded_positions_lookup classes name :
  recorded_positions classes !! name =
  class_pos <$> last (declarations_of name classes).
Proof.
  unfold recorded_positions, declarations_of.
  induction classes as [|c classes IH] using rev_ind; [reflexivity|].
  rewrite foldl_app, List.filter_app. cbn [foldl List.filter].
  destruct (String.eqb_spec (class_idName c) name) as [->|Hne].
  - rewrite lookup_insert_eq, last_snoc. reflexivity.
  - rewrite lookup_insert_ne, app_nil_r by done. exact IH.
Qed.

Lemma declarations_of_fresh name classes :
  name ∉ class_idName <$> classes → declarations_of name classes = [].
Proof.
  unfold declarations_of. induction classes as [|c classes IH]; [reflexivity|].
  rewrite fmap_cons, not_elem_of_cons. intros [Hne Hnot]. cbn [List.filter].
  destruct (String.eqb_spec (class_idName c) name); [congruence|]. auto.
Qed.

Lemma declarations_of_unique c classes :
  NoDup (class_idName <$> classes) → c ∈ classes →
  declarations_of (class_idName c) classes = [c].
Proof.
  induction classes as [|c0 classes IH]; [by intros _ ?%elem_of_nil|].
  rewrite fmap_cons, NoDup_cons. intros [Hnot Hnd] Hin.
  unfold declarations_of. cbn [List.filter].
  apply elem_of_cons in Hin as [->|Hin].
  - rewrite String.eqb_refl. f_equal. by apply declarations_of_fresh.
  - destruct (String.eqb_spec (class_idName c0) (class_idName c)) as [Heq|Hne].
    + exfalso. apply Hnot. rewrite Heq. by apply list_elem_of_fmap_2.
    + by apply IH.
Qed.

Lemma filter_truthy_keeps_errors results :
  List.filter is_error (List.filter truthy results) = List.filter is_error results.
Proof.
  induction results as [|v results IH]; [reflexivity|].
  destruct v; cbn; rewrite ?IH; try reflexivity.
  destruct (negb _); cbn; rewrite ?IH; reflexivity.
Qed.

(** C7. Pass 1 hands every class of the program to [createType], once
    and in declaration order, and does not stop at a failure: with
    [results] the answers of these calls, it returns the answers that
    Python takes for true, which include every diagnostic, in order,
    together with the dictionary of positions.  Every declared class name
    is a key of that dictionary, whatever [createType] answered; the
    position stored under a name is the one of the last declaration of
    that name, which is the position of the class itself when no two
    classes share a name. *)
Theorem pass1_collects node s :
  let classes := class_list node in
  ∃ s' results,
    visit_all (visit_NodeClass ctx) classes s = (s', Ret results)
    ∧ length results = length classes
    ∧ calls_of (trace s') = calls_of (trace s) ++ (CreateType <$> classes)
    ∧ visit_NodeProgram ctx node s =
        (s', Ret (List.filter truthy results, recorded_positions classes))
    ∧ List.filter is_error (List.filter truthy results) =
        List.filter is_error results
    ∧ (∀ c, c ∈ classes →
         is_Some (recorded_positions classes !! class_idName c)
         ∧ recorded_positions classes !! class_idName c =
             class_pos <$> last (declarations_of (class_idName c) classes))
    ∧ (NoDup (class_idName <$> classes) →
       ∀ c, c ∈ classes →
         recorded_positions classes !! class_idName c = Some (class_pos c)).
Proof.
  intros classes.
  destruct (collector_visits_all classes s) as (s' & results & Hall & Hlen & Htr & _).
  exists s', results. repeat split; try done.
  - unfold visit_NodeProgram. rewrite collector_loop, run_bind. fold classes.
    rewrite Hall. reflexivity.
  - apply filter_truthy_keeps_errors.
  - rewrite recorded_positions_lookup. apply fmap_is_Some.
    assert (Hin : c ∈ declarations_of (class_idName c) classes).
    { apply list_elem_of_In, List.filter_In. split; [by apply list_elem_of_In|].
      apply String.eqb_refl. }
    destruct (declarations_of (class_idName c) classes) as [|d ds] eqn:E using rev_ind.
    + by apply elem_of_nil in Hin.
    + rewrite last_snoc. eauto.
  - apply recorded_positions_lookup.
  - intros Hnd c Hc. rewrite recorded_positions_lookup.
    rewrite (declarations_of_unique c classes Hnd Hc). reflexivity.
Qed.

End Collector.

Lemma pass1_collects_witness :
  TypeCollectorVisitor.visit_NodeProgram SpecContext.programContext
    program_duplicate (mkState [] SpecContext.builtins [])
  = (mkState []
       (SpecContext.builtins ++
        [ ("A", SpecContext.mkClassInfo (VStr "Object") [] []);
          ("B", SpecContext.mkClassInfo (VStr "A") [] []) ])
       (EvCall ∘ CreateType <$> class_list program_duplicate),
     Ret ([VErr (mk_error "DuplicateType" "A" (5, 1)%Z)],
          {["A" := (5, 1)%Z; "B" := (9, 1)%Z]}))
  ∧ recorded_positions (class_list program_duplicate) !! "A"
    = Some (5, 1)%Z.
Proof.
  destruct (pass1_collects SpecContext.programContext program_duplicate
              (mkState [] SpecContext.builtins []))
    as (s' & results & Hall & _ & _ & Hrun & _ & Hpos & _).
  split.
  - rewrite Hrun. injection Hall as <- <-. reflexivity.
  - exact (proj2 (Hpos (mkNodeClass "A" "Object" 1 1 [] [])
                    (list_elem_of_here _ _))).
Defined.

(** ** Pass 2 *)

Section Inheritance.
Context {Reg : Type} (ctx : Context Reg).
Import TypeInheritanceVisitor.

Lemma dict_get_is_Some {A} (d : list (string * A)) k :
  k ∈ d.*1 → is_Some (dict_get d k).
Proof.
  unfold dict_get. induction d as [|[k0 a] d IH]; [by intros ?%elem_of_nil|].
  rewrite fmap_cons, elem_of_cons. cbn [List.find fst].
  destruct (String.eqb_spec k0 k) as [->|Hne]; [by eauto|].
  intros [Heq|Hin]; [congruence|]. by apply IH.
Qed.

Lemma inheritance_loop line_and_col :
  keeps_names ctx →
  ∀ rest pre fuel errors s,
    names_of ctx (registry s) = pre ++ rest →
    length rest ≤ fuel →
    visit_NodeProgram_loop ctx line_and_col (length (pre ++ rest)) fuel
      (length pre) errors s =
    (mkState (heap s) (relate_all ctx line_and_col rest (registry s)).1
       (trace s ++
        (EvCall ∘ fst <$> (relate_all ctx line_and_col rest (registry s)).2)),
     Ret (errors ++
          List.filter is_error
            (snd <$> (relate_all ctx line_and_col rest (registry s)).2))).
Proof.
  intros Hkeep. induction rest as [|t rest IH]; intros pre fuel errors s Hnames Hfuel.
  - assert (Hlen : length (types ctx (registry s)) = length (pre ++ [])).
    { rewrite <- Hnames. unfold names_of. by rewrite length_fmap. }
    destruct fuel; cbn [visit_NodeProgram_loop relate_all fst snd fmap list_fmap
                          List.filter];
      rewrite Hlen, Nat.eqb_refl; cbn [negb];
      rewrite ?lookup_ge_None_2 by (rewrite Hlen, length_app; cbn; lia);
      rewrite !app_nil_r; destruct s; reflexivity.
  - assert (Hlen : length (types ctx (registry s)) = length (pre ++ t :: rest)).
    { rewrite <- Hnames. unfold names_of. by rewrite length_fmap. }
    destruct fuel as [|fuel]; [cbn in Hfuel; lia|].
    assert (Hat : (types ctx (registry s)).*1 !! length pre = Some t).
    { fold (names_of ctx (registry s)). rewrite Hnames. by apply list_lookup_middle. }
    rewrite list_lookup_fmap in Hat.
    destruct (types ctx (registry s) !! length pre) as [[t' info']|] eqn:Eat;
      [|discriminate].
    cbn in Hat. injection Hat as ->.
    cbn [visit_NodeProgram_loop]. rewrite Hlen, Nat.eqb_refl, Eat. cbn [negb].
    assert (Hnext : length (pre ++ t :: rest) = length ((pre ++ [t]) ++ rest)
                    ∧ S (length pre) = length (pre ++ [t])).
    { rewrite <- app_assoc, !length_app. cbn. split; [reflexivity | lia]. }
    destruct Hnext as [-> ->].
    cbn [relate_all]. destruct (String.eqb t "Object"); cbn [negb].
    + apply IH; [by rewrite <- app_assoc | cbn in Hfuel; lia].
    + destruct (dict_get_is_Some (types ctx (registry s)) t) as [info Hinfo].
      { fold (names_of ctx (registry s)). rewrite Hnames. set_solver. }
      rewrite run_bind. unfold visitForInherit. rewrite Hinfo, run_call.
      cbn [fmap option_fmap option_map default fst snd].
      rewrite IH; cbn [registry called heap trace].
      * cbn [fmap option_fmap option_map default fst snd list_fmap
               List.filter compose].
        f_equal; [f_equal; by rewrite <- app_assoc|].
        destruct (is_error _); [by rewrite <- app_assoc | reflexivity].
      * rewrite Hkeep, Hnames. by rewrite <- app_assoc.
      * cbn in Hfuel; lia.
Qed.

Lemma relate_all_calls line_and_col :
  keeps_names ctx →
  ∀ names all r,
    names_of ctx r = all → names ⊆ all →
    Forall2
      (λ _type cv,
         ∃ r_t info,
           names_of ctx r_t = all
           ∧ dict_get (types ctx r_t) _type = Some info
           ∧ cv.1 = RelateInheritance _type (parent info)
                      (default (0, 0)%Z (line_and_col !! _type))
           ∧ cv.2 = (relateInheritance ctx _type (parent info)
                       (default (0, 0)%Z (line_and_col !! _type)) r_t).2)
      (non_root names) (relate_all ctx line_and_col names r).2.
Proof.
  intros Hkeep. induction names as [|t names IH]; intros all r Hall Hsub.
  - constructor.
  - cbn [relate_all non_root List.filter].
    destruct (String.eqb t "Object"); cbn [negb].
    + apply IH; [done | set_solver].
    + destruct (dict_get_is_Some (types ctx r) t) as [info Hinfo].
      { fold (names_of ctx r). rewrite Hall. set_solver. }
      rewrite Hinfo. cbn [fmap option_fmap option_map default snd].
      constructor.
      * exists r, info. auto.
      * apply IH; [by rewrite Hkeep | set_solver].
Qed.

(** C8. Provided [relateInheritance] leaves the names of the registry as
    they are, pass 2 returns, and does exactly what [relate_all] does on
    the registered names: it calls [relateInheritance] once for every
    registered type but [Object], in the order of the registry, with the
    parent the registry holds for the type and with the position recorded
    by pass 1 under the name of the type ([(0, 0)] for a type that pass 1
    recorded no position for); the diagnostics among the answers are
    returned in order, so at most one per type, and a diagnostic does not
    keep the remaining types from being handled. *)
Theorem pass2_relates_every_type node line_and_col s :
  keeps_names ctx →
  let names := names_of ctx (registry s) in
  let done := relate_all ctx line_and_col names (registry s) in
  visit_NodeProgram ctx node line_and_col s =
    (mkState (heap s) done.1 (trace s ++ (EvCall ∘ fst <$> done.2)),
     Ret (List.filter is_error (snd <$> done.2)))
  ∧ Forall2
      (λ _type cv,
         ∃ r_t info,
           names_of ctx r_t = names
           ∧ dict_get (types ctx r_t) _type = Some info
           ∧ cv.1 = RelateInheritance _type (parent info)
                      (default (0, 0)%Z (line_and_col !! _type))
           ∧ cv.2 = (relateInheritance ctx _type (parent info)
                       (default (0, 0)%Z (line_and_col !! _type)) r_t).2)
      (non_root names) done.2
  ∧ length (List.filter is_error (snd <$> done.2)) ≤ length (non_root names).
Proof.
  intros Hkeep names done.
  assert (Hcalls := relate_all_calls line_and_col Hkeep names names (registry s)
                      eq_refl (reflexivity _)).
  fold done in Hcalls. repeat split.
  - unfold visit_NodeProgram.
    pose proof (inheritance_loop line_and_col Hkeep names [] (length names) [] s
                  eq_refl (reflexivity _)) as H.
    cbn [app length] in H. unfold names, names_of in H.
    rewrite length_fmap in H. exact H.
  - exact Hcalls.
  - etransitivity; [apply filter_length_le|].
    rewrite length_fmap. by rewrite (Forall2_length _ _ _ Hcalls).
Qed.

End Inheritance.

Lemma spec_context_keeps_names : keeps_names SpecContext.programContext.
Proof.
  intros t declared pos r. unfold names_of. cbn.
  unfold SpecContext.relateInheritance.
  destruct declared; try reflexivity.
  destruct (_ || _); reflexivity.
Qed.

Lemma pass2_relates_every_type_witness :
  TypeInheritanceVisitor.visit_NodeProgram SpecContext.programContext
    (mkNodeProgram []) positions_cycle (mkState [] registry_cycle [])
  = (mkState [] registry_cycle
       [ EvCall (RelateInheritance "Int" (VStr "Object") (0, 0)%Z);
         EvCall (RelateInheritance "Bool" (VStr "Object") (0, 0)%Z);
         EvCall (RelateInheritance "String" (VStr "Object") (0, 0)%Z);
         EvCall (RelateInheritance "A" (VStr "B") (1, 1)%Z);
         EvCall (RelateInheritance "B" (VStr "A") (5, 1)%Z) ],
     Ret [ VErr (mk_error "InvalidParent" "A" (1, 1)%Z);
           VErr (mk_error "InvalidParent" "B" (5, 1)%Z) ]).
Proof.
  etransitivity;
    [apply (proj1 (pass2_relates_every_type SpecContext.programContext
                     (mkNodeProgram []) positions_cycle
                     (mkState [] registry_cycle [])
                     spec_context_keeps_names))|].
  reflexivity.
Defined.

(** ** The store under the visits *)

Section Store.
Context {Reg : Type}.

Lemma touches_weaken {A} env env' (m : M Reg A) :
  (env = None ∨ env = env') → touches_only env m → touches_only env' m.
Proof.
  intros Hor H s s' o Hrun. destruct (H s s' o Hrun) as [Hlen Hsame].
  split; [exact Hlen|]. intros l Hl Hne. apply Hsame; [exact Hl|].
  destruct Hor as [-> | ->]; [discriminate | exact Hne].
Qed.

Lemma touches_ret {A} env (a : A) : touches_only (Reg := Reg) env (mret a).
Proof. intros s s' o [= <- <-]. auto. Qed.

Lemma touches_raise {A} env e : touches_only (Reg := Reg) (A := A) env (raise e).
Proof. intros s s' o [= <- <-]. auto. Qed.

Lemma touches_log env ev : touches_only (Reg := Reg) env (log ev).
Proof. intros s s' o [= <- <-]. auto. Qed.

Lemma touches_call {A} env c (f : Reg → Reg * A) : touches_only env (call c f).
Proof. intros s s' o. rewrite run_call. intros [= <- <-]. auto. Qed.

Lemma touches_env_read env l : touches_only (Reg := Reg) env (env_read l).
Proof. intros s s' o [= <- <-]. auto. Qed.

Lemma touches_env_get env l k : touches_only (Reg := Reg) env (env_get l k).
Proof.
  intros s s' o. unfold env_get. destruct (deref l s !! k); intros [= <- <-]; auto.
Qed.

Lemma touches_env_update l k v :
  touches_only (Reg := Reg) (Some l) (env_update l k v).
Proof.
  intros s s' o [= <- <-]. cbn [heap]. rewrite length_insert. split; [done|].
  intros l' _ Hne. apply list_lookup_insert_ne. intros ->. by apply Hne.
Qed.

Lemma touches_bind {A B} env (m : M Reg A) (f : A → M Reg B) :
  touches_only env m → (∀ a, touches_only env (f a)) →
  touches_only env (m ≫= f).
Proof.
  intros Hm Hf s s' o. rewrite run_bind.
  destruct (m s) as [s1 [a|e]] eqn:E; destruct (Hm _ _ _ E) as [Hlen Hsame].
  - intros Hrun. destruct (Hf a _ _ _ Hrun) as [Hlen' Hsame']. split; [lia|].
    intros l Hl Hne. rewrite Hsame' by (done || lia). by apply Hsame.
  - intros [= <- <-]. auto.
Qed.

(** A computation that only touches a dictionary made for it touches no
    dictionary that existed before. *)
Lemma touches_new_bind {A} env e (f : loc → M Reg A) :
  (∀ l, touches_only (Some l) (f l)) →
  touches_only env (env_new e ≫= f).
Proof.
  intros Hf s s' o. rewrite run_bind. cbn [env_new]. intros Hrun.
  destruct (Hf _ _ _ _ Hrun) as [Hlen Hsame]. cbn [heap] in *.
  rewrite length_app in *. cbn [length] in *. split; [lia|].
  intros l Hl _. rewrite Hsame by (lia || (intros [= ->]; lia)).
  by apply lookup_app_l.
Qed.

Lemma touches_copy_bind {A} env l0 (f : loc → M Reg A) :
  (∀ l, touches_only (Some l) (f l)) →
  touches_only env (env_copy l0 ≫= f).
Proof.
  intros Hf s s' o Hrun.
  apply (touches_new_bind env (deref l0 s) f Hf s s' o). exact Hrun.
Qed.

End Store.

(** ** Visits and the store *)

Section VisitStore.
Context {Reg : Type} (ctx : Context Reg).
Import TypeCheckerVisitor.

(** [visit] on each class of node, as the method that the dispatch
    selects. *)
Lemma visit_method_of node env :
  visit ctx node env =
  (log (EvVisit node env);;
   match node with
   | NodeInteger _ => visit_NodeInteger
   | NodeBoolean _ => visit_NodeBoolean
   | NodeString _ => visit_NodeString
   | NodeBooleanComplement _ _ => visit_NodeBooleanComplement
   | NodeObject _ _ => visit_NodeObject ctx node env
   | NodeSelf _ => visit_NodeSelf env
   | NodeNewObject type pos => visit_NodeNewObject ctx type pos
   | NodeAssignment _ expr _ => visit_NodeAssignment ctx (visit ctx) node expr env
   | NodeBinaryOperation kind first second pos =>
       visit_NodeBinaryOperation ctx (visit ctx) kind first second pos env
   | NodeLet nodeLet => visit_NodeLet ctx (visit ctx) nodeLet env
   | NodeLetComplex nestedLets body _ =>
       visit_NodeLetComplex ctx (visit ctx) nestedLets body env
   | NodeDynamicDispatch expr method arguments pos =>
       visit_NodeDynamicDispatch ctx (visit ctx) expr method arguments pos env
   | NodeExpr _ => raise RecursionError
   | NodeOther _ _ _ => NodeVisitor.not_implemented node
   end).
Proof.
  destruct node; try reflexivity.
  cbn -[getattr String.append].
  change (NodeVisitor.visitor_method_name (NodeOther name pos other))
    with ("visit_" +:+ name).
  set (node := NodeOther name pos other). clearbody node.
  by rewrite other.
Qed.

(** For a node that goes through [getattr], the dispatch never finds one
    of the methods for declarations. *)
Lemma declaration_method_not_found node :
  base_is_NodeBinaryOperation node = false →
  getattr (NodeVisitor.visitor_method_name node)
  ∉ [ Some visit_NodeProgram_; Some visit_NodeClass_;
      Some visit_NodeClassMethod_; Some visit_NodeAttr_ ].
Proof.
  intros Hbase Hin. destruct node; try discriminate Hbase;
    try (repeat (apply elem_of_cons in Hin as [Hin|Hin]); try discriminate Hin;
         by apply elem_of_nil in Hin).
  change (NodeVisitor.visitor_method_name (NodeOther name pos other))
    with ("visit_" +:+ name) in Hin.
  rewrite other in Hin.
  repeat (apply elem_of_cons in Hin as [Hin|Hin]); try discriminate Hin.
  by apply elem_of_nil in Hin.
Qed.

Ltac touches :=
  repeat first
    [ assumption
    | match goal with
      | H : ∀ env : loc, touches_only (Some env) _ |- _ => apply H
      end
    | apply touches_ret | apply touches_raise | apply touches_log
    | apply touches_call | apply touches_env_read | apply touches_env_get
    | apply touches_env_update
    | match goal with
      | |- touches_only _ (if ?b then _ else _) => destruct b
      | |- touches_only _ (_ ≫= _) => apply touches_bind; [|intros ?]
      end ].

Lemma let_complex_loop_touches body previousEnv nestedLets :
  Forall (λ nodeLet,
            ∀ env, touches_only (Some env) (visit ctx (let_body nodeLet) env))
    nestedLets →
  (∀ env, touches_only (Some env) (visit ctx body env)) →
  ∀ newEnv,
    touches_only newEnv
      (visit_NodeLetComplex_loop ctx (visit ctx) body previousEnv nestedLets
         newEnv).
Proof.
  intros Hlets Hbody. induction Hlets as [|nodeLet nestedLets Hlet _ IH];
    intros newEnv.
  - destruct newEnv as [l|]; cbn [visit_NodeLetComplex_loop]; touches.
  - cbn [visit_NodeLetComplex_loop]. apply touches_copy_bind. intros l.
    apply touches_bind.
    + unfold visit_nodeLet, visit_NodeLet. touches.
    + intros result. touches. apply IH.
Qed.

Lemma dispatch_loop_touches typeExpr method pos env arguments :
  Forall (λ arg, ∀ env, touches_only (Some env) (visit ctx arg env)) arguments →
  ∀ argTypes,
    touches_only (Some env)
      (visit_NodeDynamicDispatch_loop ctx (visit ctx) typeExpr method pos env
         arguments argTypes).
Proof.
  induction 1 as [|arg arguments Harg _ IH]; intros argTypes;
    cbn [visit_NodeDynamicDispatch_loop]; touches; apply IH.
Qed.

(** A visit leaves every dictionary that existed before as it was, except
    possibly the environment it is given. *)
Lemma visit_touches node :
  ∀ env, touches_only (Some env) (visit ctx node env).
Proof.
  induction node using Node_nested_ind; intros env; rewrite visit_method_of;
    (apply touches_bind; [apply touches_log | intros _]).
  - unfold visit_NodeInteger. touches.
  - unfold visit_NodeBoolean. touches.
  - unfold visit_NodeString. touches.
  - unfold visit_NodeBooleanComplement. touches.
  - unfold visit_NodeObject. touches.
  - unfold visit_NodeSelf. touches.
  - unfold visit_NodeNewObject. touches.
  - unfold visit_NodeAssignment. touches.
  - unfold visit_NodeBinaryOperation. touches.
  - unfold visit_NodeLet. touches.
  - unfold visit_NodeLetComplex.
    eapply touches_weaken; [left; reflexivity|].
    by apply let_complex_loop_touches.
  - unfold visit_NodeDynamicDispatch. touches.
    by apply dispatch_loop_touches.
  - touches.
  - unfold NodeVisitor.not_implemented. touches.
Qed.

(** C10. Checking a chained let, whatever its outcome, leaves every
    dictionary that existed before the visit as it was, the environment
    of the caller included: the bindings of the chain go to copies made
    during the visit.  Checking a single let on its own, in contrast,
    writes the binding into the very environment it is given, as soon as
    the initializer has yielded a value that is not a diagnostic. *)
Theorem let_complex_keeps_caller_env previousEnv s :
  previousEnv < length (heap s) →
  (∀ nestedLets body pos s' o,
     visit ctx (NodeLetComplex nestedLets body pos) previousEnv s = (s', o) →
     deref previousEnv s' = deref previousEnv s
     ∧ ∀ l, l < length (heap s) → heap s' !! l = heap s !! l)
  ∧
  (∀ nodeLet s1 exprType,
     visit ctx (let_body nodeLet) previousEnv
       (enter (NodeLet nodeLet) previousEnv s) = (s1, Ret exprType) →
     is_error exprType = false →
     ∃ s2 o,
       visit ctx (NodeLet nodeLet) previousEnv s = (s2, o)
       ∧ deref previousEnv s2 =
           <[let_idName nodeLet := VStr (let_type nodeLet)]>
             (deref previousEnv s1)).
Proof.
  intros Halloc. split.
  - intros nestedLets body pos s' o Hrun.
    assert (Hnone : touches_only None
                      (visit ctx (NodeLetComplex nestedLets body pos) previousEnv)).
    { rewrite visit_method_of. apply touches_bind; [apply touches_log | intros _].
      apply let_complex_loop_touches.
      - apply Forall_forall. intros nodeLet _ env. apply visit_touches.
      - intros env. apply visit_touches. }
    destruct (Hnone _ _ _ Hrun) as [_ Hsame].
    assert (Hall : ∀ l, l < length (heap s) → heap s' !! l = heap s !! l).
    { intros l Hl. by apply Hsame. }
    split; [|exact Hall]. unfold deref. by rewrite Hall.
  - intros nodeLet s1 exprType Hbody Hty.
    destruct (visit_touches (let_body nodeLet) previousEnv _ _ _ Hbody)
      as [Hlen _]. cbn [enter heap] in Hlen.
    rewrite visit_let. unfold visit_NodeLet.
    rewrite (run_bind_ret _ _ _ _ _ Hbody), Hty, run_bind.
    cbn [env_update]. rewrite run_bind. unfold env_get at 1.
    set (s1' := mkState _ _ _).
    assert (Hderef : deref previousEnv s1' =
                     <[let_idName nodeLet := VStr (let_type nodeLet)]>
                       (deref previousEnv s1)).
    { unfold deref at 1. subst s1'. cbn [heap].
      rewrite list_lookup_insert_eq by lia. reflexivity. }
    rewrite Hderef, lookup_insert_eq, run_call.
    eexists _, _. split; [reflexivity|]. exact Hderef.
Qed.

End VisitStore.

Lemma let_complex_keeps_caller_env_witness :
  deref 0 (TypeCheckerVisitor.visit SpecContext.programContext let_chain 0
             (SpecContext.start ∅)).1 = ∅
  ∧ ∃ s2 o,
      TypeCheckerVisitor.visit SpecContext.programContext (NodeLet bare_let) 0
        (SpecContext.start ∅) = (s2, o)
      ∧ deref 0 s2 = {["a" := VStr "Int"]}.
Proof.
  split.
  - destruct (let_complex_keeps_caller_env SpecContext.programContext
                0 (SpecContext.start ∅)) as [H _]; [cbn; lia|].
    destruct (TypeCheckerVisitor.visit SpecContext.programContext let_chain 0
                (SpecContext.start ∅)) as [s' o] eqn:E.
    exact (proj1 (H _ _ _ s' o E)).
  - destruct (let_complex_keeps_caller_env SpecContext.programContext
                0 (SpecContext.start ∅)) as [_ H]; [cbn; lia|].
    destruct (H bare_let
                (mkState [∅] SpecContext.builtins
                   [EvVisit (NodeLet bare_let) 0; EvVisit (NodeInteger p0) 0])
                (VStr "Int") eq_refl eq_refl) as (s2 & o & Hrun & Hd).
    exists s2, o. split; [exact Hrun|]. rewrite Hd. reflexivity.
Defined.

(** ** Relations kept by every step of a visit *)

Section Steps.
Context {Reg : Type} (ctx : Context Reg).
Context (R : State Reg → State Reg → Prop) (HR : step_relation ctx R).
Import TypeCheckerVisitor.

Lemma steps_ret {A} (a : A) : steps R (mret a).
Proof using HR. intros s s' o [= <- <-]. apply (step_refl ctx R HR). Qed.

Lemma steps_raise {A} e : steps (A := A) R (raise e).
Proof using HR. intros s s' o [= <- <-]. apply (step_refl ctx R HR). Qed.

Lemma steps_log node env : steps R (log (EvVisit node env)).
Proof using HR. intros s s' o [= <- <-]. apply (step_enter ctx R HR). Qed.

Lemma steps_call c f : placed ctx c f → steps R (call c f).
Proof using HR.
  intros Hp s s' o. rewrite run_call. intros [= <- <-].
  by apply (step_call ctx R HR).
Qed.

Lemma steps_env_read l : steps R (env_read l).
Proof using HR. intros s s' o [= <- <-]. apply (step_refl ctx R HR). Qed.

Lemma steps_env_get l k : steps R (env_get l k).
Proof using HR.
  intros s s' o. unfold env_get.
  destruct (deref l s !! k); intros [= <- <-]; apply (step_refl ctx R HR).
Qed.

Lemma steps_env_update l k v : steps R (env_update l k v).
Proof using HR. intros s s' o [= <- <-]. apply (step_update ctx R HR). Qed.

Lemma steps_env_copy l : steps R (env_copy l).
Proof using HR. intros s s' o [= <- <-]. apply (step_new ctx R HR). Qed.

Lemma steps_bind {A B} (m : M Reg A) (f : A → M Reg B) :
  steps R m → (∀ a, steps R (f a)) → steps R (m ≫= f).
Proof using HR.
  intros Hm Hf s s' o. rewrite run_bind.
  destruct (m s) as [s1 [a|e]] eqn:E.
  - intros Hrun. eapply (step_trans ctx R HR); [by eapply Hm | by eapply Hf].
  - intros [= <- <-]. by eapply Hm.
Qed.

Ltac stepping :=
  repeat first
    [ assumption
    | match goal with
      | H : ∀ env : loc, steps R _ |- _ => apply H
      end
    | apply steps_ret | apply steps_raise | apply steps_log
    | apply steps_call; constructor
    | apply steps_env_read | apply steps_env_get | apply steps_env_update
    | apply steps_env_copy
    | match goal with
      | |- steps _ (if ?b then _ else _) => destruct b
      | |- steps _ (_ ≫= _) => apply steps_bind; [|intros ?]
      end ].

Lemma let_complex_loop_steps body previousEnv nestedLets :
  Forall (λ nodeLet, ∀ env, steps R (visit ctx (let_body nodeLet) env))
    nestedLets →
  (∀ env, steps R (visit ctx body env)) →
  ∀ newEnv,
    steps R
      (visit_NodeLetComplex_loop ctx (visit ctx) body previousEnv nestedLets
         newEnv).
Proof using HR.
  intros Hlets Hbody. induction Hlets as [|nodeLet nestedLets Hlet _ IH];
    intros newEnv.
  - destruct newEnv as [l|]; cbn [visit_NodeLetComplex_loop]; stepping.
  - cbn [visit_NodeLetComplex_loop]. unfold visit_nodeLet, visit_NodeLet.
    stepping. apply IH.
Qed.

Lemma dispatch_loop_steps typeExpr method pos env arguments :
  Forall (λ arg, ∀ env, steps R (visit ctx arg env)) arguments →
  ∀ argTypes,
    steps R
      (visit_NodeDynamicDispatch_loop ctx (visit ctx) typeExpr method pos env
         arguments argTypes).
Proof using HR.
  induction 1 as [|arg arguments Harg _ IH]; intros argTypes;
    cbn [visit_NodeDynamicDispatch_loop]; stepping; apply IH.
Qed.

(** A relation kept by the elementary steps is kept by a whole visit. *)
Lemma visit_steps node : ∀ env, steps R (visit ctx node env).
Proof using HR.
  induction node using Node_nested_ind; intros env; rewrite visit_method_of;
    (apply steps_bind; [apply steps_log | intros _]).
  - unfold visit_NodeInteger. stepping.
  - unfold visit_NodeBoolean. stepping.
  - unfold visit_NodeString. stepping.
  - unfold visit_NodeBooleanComplement. stepping.
  - unfold visit_NodeObject. stepping.
  - unfold visit_NodeSelf. stepping.
  - unfold visit_NodeNewObject. stepping.
  - unfold visit_NodeAssignment. stepping.
  - unfold visit_NodeBinaryOperation. stepping.
  - unfold visit_NodeLet. stepping.
  - unfold visit_NodeLetComplex. by apply let_complex_loop_steps.
  - unfold visit_NodeDynamicDispatch. stepping. by apply dispatch_loop_steps.
  - stepping.
  - unfold NodeVisitor.not_implemented. stepping.
Qed.

End Steps.

Section VisitEntered.
Context {Reg : Type} (ctx : Context Reg).
Context (R : State Reg → State Reg → Prop) (HR : step_relation ctx R).
Import TypeCheckerVisitor.

(** The relation also holds from the state in which [visit] has just been
    entered to the final one. *)
Lemma visit_steps_entered node env s s' o :
  visit ctx node env s = (s', o) → R (enter node env s) s'.
Proof using HR.
  rewrite visit_method_of, run_bind. cbn [log]. fold (enter node env s).
  revert s' o. generalize (enter node env s). clear s.
  change (steps R
            match node with
            | NodeInteger _ => visit_NodeInteger
            | NodeBoolean _ => visit_NodeBoolean
            | NodeString _ => visit_NodeString
            | NodeBooleanComplement _ _ => visit_NodeBooleanComplement
            | NodeObject _ _ => visit_NodeObject ctx node env
            | NodeSelf _ => visit_NodeSelf env
            | NodeNewObject type pos => visit_NodeNewObject ctx type pos
            | NodeAssignment _ expr _ =>
                visit_NodeAssignment ctx (visit ctx) node expr env
            | NodeBinaryOperation kind first second pos =>
                visit_NodeBinaryOperation ctx (visit ctx) kind first second pos
                  env
            | NodeLet nodeLet => visit_NodeLet ctx (visit ctx) nodeLet env
            | NodeLetComplex nestedLets body _ =>
                visit_NodeLetComplex ctx (visit ctx) nestedLets body env
            | NodeDynamicDispatch expr method arguments pos =>
                visit_NodeDynamicDispatch ctx (visit ctx) expr method arguments
                  pos env
            | NodeExpr _ => raise RecursionError
            | NodeOther _ _ _ => NodeVisitor.not_implemented node
            end).
  pose proof (visit_steps ctx R HR) as Hsub.
  assert (Hbind : ∀ A B (m : M Reg A) (f : A → M Reg B),
            steps R m → (∀ a, steps R (f a)) → steps R (m ≫= f))
    by (intros; by apply (steps_bind ctx R HR)).
  assert (Hcall : ∀ c f, placed ctx c f → steps R (call c f))
    by (intros; by apply (steps_call ctx R HR)).
  assert (Hret : ∀ v : Val, steps R (mret v))
    by (intros; apply (steps_ret ctx R HR)).
  assert (Hraise : ∀ e, steps (A := Val) R (raise e))
    by (intros; apply (steps_raise ctx R HR)).
  destruct node.
  - apply Hret.
  - apply Hret.
  - apply Hret.
  - apply Hret.
  - apply Hbind; [apply (steps_env_read ctx R HR)|]. intros e. apply Hcall.
    constructor.
  - apply (steps_env_get ctx R HR).
  - apply Hbind; [apply Hcall; constructor|]. intros r.
    destruct (is_error r); apply Hret.
  - apply Hbind; [apply Hsub|]. intros r. destruct (is_error r); [apply Hret|].
    apply Hbind; [apply (steps_env_read ctx R HR)|]. intros e. apply Hcall.
    constructor.
  - apply Hbind; [apply Hsub|]. intros t1. apply Hbind; [apply Hsub|].
    intros t2. destruct (is_error t1); [apply Hret|].
    destruct (is_error t2); [apply Hret|].
    destruct (is_arithmetic kind); [apply Hcall; constructor|].
    destruct (is_equal kind); [apply Hcall; constructor | apply Hret].
  - apply Hbind; [apply Hsub|]. intros t. destruct (is_error t); [apply Hret|].
    apply Hbind; [apply (steps_env_update ctx R HR)|]. intros _.
    apply Hbind; [apply (steps_env_get ctx R HR)|]. intros d. apply Hcall.
    constructor.
  - apply (let_complex_loop_steps ctx R HR).
    + apply Forall_forall. intros l _ e. apply Hsub.
    + intros e. apply Hsub.
  - apply Hbind; [apply Hsub|]. intros t. destruct (is_error t); [apply Hret|].
    apply (dispatch_loop_steps ctx R HR). apply Forall_forall. intros a _ e.
    apply Hsub.
  - apply Hraise.
  - apply Hraise.
Qed.

End VisitEntered.

(** ** What a visit records, and what it keeps *)

Section VisitInvariants.
Context {Reg : Type} (ctx : Context Reg).
Import TypeCheckerVisitor.

Lemma records_step_relation : step_relation ctx records_expression_events.
Proof.
  split.
  - intros s. exists []. by rewrite app_nil_r.
  - intros s1 s2 s3 (e1 & H1 & F1) (e2 & H2 & F2). exists (e1 ++ e2).
    rewrite H2, H1, app_assoc. split; [done | by apply Forall_app].
  - intros node env s. exists [EvVisit node env]. split; [done|].
    by repeat constructor.
  - intros e s. exists []. by rewrite app_nil_r.
  - intros l k v s. exists []. by rewrite app_nil_r.
  - intros c f s Hp. exists [EvCall c]. split; [done|].
    repeat constructor. by destruct Hp.
Qed.

Lemma registry_step_relation :
  pure_checks ctx → step_relation ctx (λ s s', registry s' = registry s).
Proof.
  intros Hpure. split.
  - done.
  - intros s1 s2 s3 H1 H2. by rewrite H2.
  - done.
  - done.
  - done.
  - intros c f s Hp. exact (Hpure c f Hp (registry s)).
Qed.


(** X1. A visit only appends to the trace: first its own entry, then
    visits of expression nodes and calls of the seven checks of the
    context.  It never calls [createType], [relateInheritance],
    [buildEnv], [buildEnvForMethod] or [checkReturnType]. *)
Theorem visit_records_only_expression_events node env s s' o :
  visit ctx node env s = (s', o) →
  ∃ evs, trace s' = trace s ++ EvVisit node env :: evs
         ∧ Forall expression_event evs.
Proof.
  intros Hrun.
  destruct (visit_steps_entered ctx _ records_step_relation _ _ _ _ _ Hrun)
    as (evs & Htr & Hevs).
  exists evs. split; [|done]. rewrite Htr. cbn [enter trace].
  by rewrite <- app_assoc.
Qed.

(** X2. When the checks of the context leave its state as it is, so does
    every visit, whatever its outcome. *)
Theorem visit_keeps_registry node env s s' o :
  pure_checks ctx →
  visit ctx node env s = (s', o) →
  registry s' = registry s.
Proof.
  intros Hpure Hrun.
  exact (visit_steps ctx _ (registry_step_relation Hpure) node env _ _ _ Hrun).
Qed.


End VisitInvariants.

Lemma spec_context_pure_checks : pure_checks SpecContext.programContext.
Proof.
  intros c f Hp r. destruct Hp; cbn.
  - unfold SpecContext.getType. by destruct (SpecContext.lookup _ _).
  - unfold SpecContext.searchValue. destruct node; try done.
    by destruct (_ !! _).
  - unfold SpecContext.checkAssign. by destruct (SpecContext.conforms _ _ _).
  - unfold SpecContext.checkAssign_node. destruct node; try done.
    destruct (_ !! _); [|done]. unfold SpecContext.checkAssign.
    by destruct (SpecContext.conforms _ _ _).
  - unfold SpecContext.checkArithmetic. destruct t1, t2; try done.
    by destruct (_ && _).
  - unfold SpecContext.checkEqualOp. destruct t1, t2; try done.
    by destruct (_ || _).
  - unfold SpecContext.checkDynamicDispatch. destruct typeExpr; try done.
    destruct (SpecContext.find_method _ _ _ _) as [[formals ret]|]; [|done].
    destruct (negb _); [done|]. by destruct (forallb _ _).
Qed.

Lemma visit_records_only_expression_events_witness :
  ∃ evs,
    trace (TypeCheckerVisitor.visit SpecContext.programContext let_chain 0
             (SpecContext.start ∅)).1
    = trace (SpecContext.start ∅) ++ EvVisit let_chain 0 :: evs
    ∧ Forall expression_event evs.
Proof.
  eapply (visit_records_only_expression_events SpecContext.programContext
            let_chain 0 (SpecContext.start ∅)).
  apply surjective_pairing.
Defined.

Lemma visit_keeps_registry_witness :
  registry (TypeCheckerVisitor.visit SpecContext.programContext let_chain 0
              (SpecContext.start ∅)).1
  = SpecContext.builtins.
Proof.
  eapply (visit_keeps_registry SpecContext.programContext let_chain 0
            (SpecContext.start ∅) _ _ spec_context_pure_checks).
  apply surjective_pairing.
Defined.


(** ** Expressions without a single let *)

Section NoBareLet.
Context {Reg : Type} (ctx : Context Reg).
Import TypeCheckerVisitor.

Lemma dispatch_loop_untouched typeExpr method pos env arguments :
  Forall (λ arg, ∀ env, touches_only None (visit ctx arg env)) arguments →
  ∀ argTypes,
    touches_only None
      (visit_NodeDynamicDispatch_loop ctx (visit ctx) typeExpr method pos env
         arguments argTypes).
Proof.
  induction 1 as [|arg arguments Harg _ IH]; intros argTypes;
    cbn [visit_NodeDynamicDispatch_loop].
  - apply touches_call.
  - apply touches_bind; [apply Harg|]. intros t.
    destruct (is_error t); [apply touches_ret | apply IH].
Qed.

Lemma visit_untouched node :
  no_bare_let node = true → ∀ env, touches_only None (visit ctx node env).
Proof.
  induction node using Node_nested_ind; intros Hnb env;
    cbn [no_bare_let] in Hnb; try discriminate Hnb;
    rewrite visit_method_of;
    (apply touches_bind; [apply touches_log | intros _]).
  - apply touches_ret.
  - apply touches_ret.
  - apply touches_ret.
  - apply touches_ret.
  - apply touches_bind; [apply touches_env_read|]. intros e. apply touches_call.
  - apply touches_env_get.
  - apply touches_bind; [apply touches_call|]. intros r.
    destruct (is_error r); apply touches_ret.
  - apply touches_bind; [by apply IHnode|]. intros r.
    destruct (is_error r); [apply touches_ret|].
    apply touches_bind; [apply touches_env_read|]. intros e. apply touches_call.
  - apply andb_true_iff in Hnb as [H1 H2].
    apply touches_bind; [by apply IHnode1|]. intros t1.
    apply touches_bind; [by apply IHnode2|]. intros t2.
    destruct (is_error t1); [apply touches_ret|].
    destruct (is_error t2); [apply touches_ret|].
    destruct (is_arithmetic kind); [apply touches_call|].
    destruct (is_equal kind); [apply touches_call | apply touches_ret].
  - apply let_complex_loop_touches.
    + apply Forall_forall. intros l _ e. apply visit_touches.
    + intros e. apply visit_touches.
  - apply andb_true_iff in Hnb as [H1 H2].
    apply touches_bind; [by apply IHnode|]. intros t.
    destruct (is_error t); [apply touches_ret|].
    apply dispatch_loop_untouched.
    rewrite forallb_forall in H2. rewrite Forall_forall in H |- *.
    intros a Ha. apply H; [done|]. apply H2. by apply list_elem_of_In.
  - apply touches_raise.
  - apply touches_raise.
Qed.

(** X4. An expression in which no single let is visited with the
    environment of the caller (lets only occur in chains) leaves every
    dictionary that existed before the visit as it was, the environment
    it is given included, whatever its outcome. *)
Theorem visit_without_bare_let_keeps_store node env s s' o :
  no_bare_let node = true →
  visit ctx node env s = (s', o) →
  ∀ l, l < length (heap s) → heap s' !! l = heap s !! l.
Proof.
  intros Hnb Hrun l Hl.
  destruct (visit_untouched node Hnb env _ _ _ Hrun) as [_ Hsame].
  by apply Hsame.
Qed.

End NoBareLet.

Lemma visit_without_bare_let_keeps_store_witness :
  heap (TypeCheckerVisitor.visit SpecContext.programContext
          (NodeBinaryOperation NodeAddition let_chain
             (NodeAssignment "c" (NodeInteger p0) p0) p0) 0
          (SpecContext.start {["c" := VStr "Int"]})).1 !! 0
  = Some {["c" := VStr "Int"]}.
Proof.
  transitivity (heap (SpecContext.start {["c" := VStr "Int"]}) !! 0);
    [|reflexivity].
  eapply (visit_without_bare_let_keeps_store SpecContext.programContext
            (NodeBinaryOperation NodeAddition let_chain
               (NodeAssignment "c" (NodeInteger p0) p0) p0) 0
            (SpecContext.start {["c" := VStr "Int"]}) _ _ eq_refl).
  - apply surjective_pairing.
  - cbn. lia.
Defined.

(** ** The methods for single expressions *)

Section ExpressionMethods.
Context {Reg : Type} (ctx : Context Reg).
Import TypeCheckerVisitor.

(** X6. When both operands of a binary node return, the result is the
    diagnostic of the first operand if it yielded one, else the diagnostic
    of the second if it yielded one, else the answer of [checkArithmetic]
    for the four arithmetic kinds, of [checkEqualOp] for an equality, each
    called with the two types and the position of the binary node, and
    [None] for any other kind.  An exception raised by the first operand,
    unlike a diagnostic, ends the visit before the second operand is
    visited. *)
Theorem visit_NodeBinaryOperation_result kind first second pos env s :
  let node := NodeBinaryOperation kind first second pos in
  (∀ s1 t1 s2 t2,
     visit ctx first env (enter node env s) = (s1, Ret t1) →
     visit ctx second env s1 = (s2, Ret t2) →
     visit ctx node env s =
       if is_error t1 then (s2, Ret t1)
       else if is_error t2 then (s2, Ret t2)
       else if is_arithmetic kind then
         (called (CheckArithmetic t1 t2 pos)
            (checkArithmetic ctx t1 t2 pos (registry s2)).1 s2,
          Ret (checkArithmetic ctx t1 t2 pos (registry s2)).2)
       else if is_equal kind then
         (called (CheckEqualOp t1 t2 pos)
            (checkEqualOp ctx t1 t2 pos (registry s2)).1 s2,
          Ret (checkEqualOp ctx t1 t2 pos (registry s2)).2)
       else (s2, Ret VNone))
  ∧
  (∀ s1 e,
     visit ctx first env (enter node env s) = (s1, Raise e) →
     visit ctx node env s = (s1, Raise e)).
Proof.
  intros node. subst node. split.
  - intros s1 t1 s2 t2 H1 H2. rewrite visit_binary.
    unfold visit_NodeBinaryOperation.
    rewrite (run_bind_ret _ _ _ _ _ H1), (run_bind_ret _ _ _ _ _ H2).
    destruct (is_error t1); [reflexivity|].
    destruct (is_error t2); [reflexivity|].
    destruct (is_arithmetic kind); [apply run_call|].
    destruct (is_equal kind); [apply run_call | reflexivity].
  - intros s1 e H1. rewrite visit_binary. unfold visit_NodeBinaryOperation.
    by rewrite (run_bind_raise _ _ _ _ _ H1).
Qed.

(** X7. A single let whose initializer yields a diagnostic returns it in
    the state reached after the initializer: no binding is added and
    [checkAssign] is not called.  Otherwise the binding of the name to
    the declared type is written into the environment before
    [checkAssign] is called with the name, the declared type, the type of
    the initializer and the position of the initializer; the answer is
    the result, and the binding stays in the environment whatever the
    answer is. *)
Theorem visit_NodeLet_steps nodeLet env s :
  let node := NodeLet nodeLet in
  (∀ s1 d,
     visit ctx (let_body nodeLet) env (enter node env s) = (s1, Ret d) →
     is_error d = true →
     visit ctx node env s = (s1, Ret d))
  ∧
  (∀ s1 t,
     visit ctx (let_body nodeLet) env (enter node env s) = (s1, Ret t) →
     is_error t = false →
     env < length (heap s1) →
     let declared := VStr (let_type nodeLet) in
     let s2 :=
       mkState (<[env := <[let_idName nodeLet := declared]> (deref env s1)]>
                  (heap s1))
         (registry s1) (trace s1) in
     let pos := node_pos (let_body nodeLet) in
     let answer :=
       checkAssign ctx (let_idName nodeLet) declared t pos (registry s1) in
     visit ctx node env s =
       (called (CheckAssign (let_idName nodeLet) declared t pos) answer.1 s2,
        Ret answer.2)).
Proof.
  intros node. subst node. split.
  - intros s1 d Hbody Hd. rewrite visit_let. unfold visit_NodeLet.
    by rewrite (run_bind_ret _ _ _ _ _ Hbody), Hd.
  - intros s1 t Hbody Ht Hlt declared s2 pos answer.
    rewrite visit_let. unfold visit_NodeLet.
    rewrite (run_bind_ret _ _ _ _ _ Hbody), Ht, run_bind.
    cbn [env_update]. fold declared. fold s2.
    rewrite run_bind. unfold env_get at 1.
    assert (Hd : deref env s2 =
                 <[let_idName nodeLet := declared]> (deref env s1)).
    { unfold deref at 1. subst s2. cbn [heap].
      by rewrite list_lookup_insert_eq. }
    rewrite Hd, lookup_insert_eq. apply run_call.
Qed.

(** X8. An assignment whose right-hand side yields a diagnostic returns
    it without calling [checkAssign]; otherwise [checkAssign] is called
    with the assignment node, the type of the right-hand side and the
    content of the environment as the right-hand side left it, and its
    answer is the result.  The visitor itself writes nothing into the
    environment for the assigned name. *)
Theorem visit_NodeAssignment_steps idName expr pos env s :
  let node := NodeAssignment idName expr pos in
  (∀ s1 d,
     visit ctx expr env (enter node env s) = (s1, Ret d) →
     is_error d = true →
     visit ctx node env s = (s1, Ret d))
  ∧
  (∀ s1 t,
     visit ctx expr env (enter node env s) = (s1, Ret t) →
     is_error t = false →
     let answer := checkAssign_node ctx node t (deref env s1) (registry s1) in
     visit ctx node env s =
       (called (CheckAssignNode node t (deref env s1)) answer.1 s1,
        Ret answer.2)).
Proof.
  intros node. subst node. split.
  - intros s1 d Hexpr Hd. rewrite visit_method_of, run_bind. cbn [log].
    unfold visit_NodeAssignment.
    change (mkState (heap s) (registry s) (trace s ++ [_]))
      with (enter (NodeAssignment idName expr pos) env s).
    by rewrite (run_bind_ret _ _ _ _ _ Hexpr), Hd.
  - intros s1 t Hexpr Ht answer. rewrite visit_method_of, run_bind. cbn [log].
    unfold visit_NodeAssignment.
    change (mkState (heap s) (registry s) (trace s ++ [_]))
      with (enter (NodeAssignment idName expr pos) env s).
    rewrite (run_bind_ret _ _ _ _ _ Hexpr), Ht, run_bind. cbn [env_read].
    apply run_call.
Qed.

(** X9. A chained let without any nested let raises [UnboundLocalError]
    (the variable [newEnv] is only set in the loop body): the body is not
    visited. *)
Theorem visit_NodeLetComplex_empty_raises body pos env s :
  visit ctx (NodeLetComplex [] body pos) env s =
    (enter (NodeLetComplex [] body pos) env s,
     Raise (UnboundLocalError "newEnv")).
Proof. reflexivity. Qed.

(** X10. [self] yields what the environment binds [wrapperType] to, and
    raises [KeyError] when the environment has no such binding. *)
Theorem visit_NodeSelf_result pos env s :
  visit ctx (NodeSelf pos) env s =
    (enter (NodeSelf pos) env s,
     match deref env s !! "wrapperType" with
     | Some v => Ret v
     | None => Raise (KeyError "wrapperType")
     end).
Proof.
  rewrite visit_method_of, run_bind. cbn [log]. unfold visit_NodeSelf, env_get.
  fold (enter (NodeSelf pos) env s).
  change (deref env (enter (NodeSelf pos) env s)) with (deref env s).
  by destruct (deref env s !! "wrapperType").
Qed.

End ExpressionMethods.

(** ** Pass 4 over classes and programs *)

Section CheckerProgram.
Context {Reg : Type} (ctx : Context Reg).
Import TypeCheckerVisitor.

Lemma for_append_errors {A} (f : A → M Reg Val) xs acc s s' errors :
  for_append f is_error xs acc s = (s', Ret errors) →
  ∃ more, errors = acc ++ more
          ∧ Forall (λ v, is_error v = true) more
          ∧ length more ≤ length xs.
Proof.
  rewrite for_append_visit_all, run_bind.
  destruct (visit_all f xs s) as [s1 [vs|e]] eqn:E; [|discriminate].
  intros [= <- <-]. exists (List.filter is_error vs). split; [done|]. split.
  - apply Forall_forall. intros v Hv.
    apply list_elem_of_In, List.filter_In in Hv. tauto.
  - etransitivity; [apply filter_length_le|].
    by rewrite (visit_all_length _ _ _ _ _ E).
Qed.

Lemma visit_NodeClass_errors node env s s' errors :
  visit_NodeClass ctx node env s = (s', Ret errors) →
  Forall (λ v, is_error v = true) errors
  ∧ length errors ≤ declared_members node.
Proof.
  unfold visit_NodeClass. rewrite run_bind.
  destruct (for_append _ _ (attributes node) [] s) as [s1 [ea|e]] eqn:Ea;
    [|discriminate].
  intros Em.
  apply for_append_errors in Ea as (ma & -> & Fa & La).
  apply for_append_errors in Em as (mm & -> & Fm & Lm).
  cbn [app]. split; [by apply Forall_app|].
  rewrite length_app. unfold declared_members. lia.
Qed.

Lemma checker_program_loop_errors classes acc s s' errors :
  visit_NodeProgram_loop ctx classes acc s = (s', Ret errors) →
  ∃ more, errors = acc ++ more
          ∧ Forall (λ v, is_error v = true) more
          ∧ length more ≤ sum_list_with declared_members classes.
Proof.
  revert acc s. induction classes as [|c classes IH]; intros acc s.
  - intros [= <- <-]. exists []. rewrite app_nil_r. by repeat split.
  - cbn [visit_NodeProgram_loop sum_list_with]. rewrite run_bind, run_call.
    rewrite run_bind. cbn [env_new]. rewrite run_bind.
    destruct (visit_NodeClass ctx c _ _) as [s1 [errs|e]] eqn:Ec;
      [|discriminate].
    intros Hrest. apply IH in Hrest as (more & -> & Fm & Lm).
    apply visit_NodeClass_errors in Ec as [Fc Lc].
    exists (errs ++ more). rewrite app_assoc. split; [done|].
    split; [by apply Forall_app|]. rewrite length_app. lia.
Qed.

(** X11. When pass 4 returns, every element of its result is a
    diagnostic, and there are at most as many of them as the classes of
    the program declare attributes and methods.  A program without
    classes yields no diagnostic and leaves the state as it is. *)
Theorem pass4_diagnostics node s :
  (∀ s' errors,
     visit_NodeProgram ctx node s = (s', Ret errors) →
     Forall (λ v, is_error v = true) errors
     ∧ length errors ≤ sum_list_with declared_members (class_list node))
  ∧ (class_list node = [] → visit_NodeProgram ctx node s = (s, Ret [])).
Proof.
  split.
  - intros s' errors Hrun.
    apply checker_program_loop_errors in Hrun as (more & -> & F & L). done.
  - intros Hnil. unfold visit_NodeProgram. by rewrite Hnil.
Qed.

Lemma for_append_touches {A} env (f : A → M Reg Val) test xs :
  (∀ x, touches_only env (f x)) →
  ∀ acc, touches_only env (for_append f test xs acc).
Proof.
  intros Hf. induction xs as [|x xs IH]; intros acc; cbn [for_append].
  - apply touches_ret.
  - apply touches_bind; [apply Hf|]. intros r. apply IH.
Qed.

Lemma visit_NodeClassMethod_touches node env :
  touches_only None (visit_NodeClassMethod ctx node env).
Proof.
  unfold visit_NodeClassMethod.
  apply touches_bind; [apply touches_env_read|]. intros e.
  apply touches_bind; [apply touches_call|]. intros [d|newEnv].
  - apply touches_ret.
  - apply touches_new_bind. intros l.
    apply touches_bind; [apply visit_touches|]. intros t.
    destruct (is_error t); [apply touches_ret | apply touches_call].
Qed.

Lemma visit_NodeClass_touches node env :
  touches_only (Some env) (visit_NodeClass ctx node env).
Proof.
  unfold visit_NodeClass. apply touches_bind.
  - apply for_append_touches. intros a. apply visit_touches.
  - intros errors. apply for_append_touches. intros m.
    eapply touches_weaken; [by left|]. apply visit_NodeClassMethod_touches.
Qed.

Lemma checker_program_loop_touches classes :
  ∀ acc, touches_only None (visit_NodeProgram_loop ctx classes acc).
Proof.
  induction classes as [|c classes IH]; intros acc;
    cbn [visit_NodeProgram_loop].
  - apply touches_ret.
  - apply touches_bind; [apply touches_call|]. intros e.
    apply touches_new_bind. intros l.
    apply touches_bind; [apply visit_NodeClass_touches|]. intros errs.
    eapply touches_weaken; [by left|]. apply IH.
Qed.

(** X12. Pass 4 works on dictionaries of its own: whatever its outcome,
    every dictionary that existed before it ran is left as it was. *)
Theorem pass4_keeps_store node s s' o :
  visit_NodeProgram ctx node s = (s', o) →
  length (heap s) ≤ length (heap s')
  ∧ ∀ l, l < length (heap s) → heap s' !! l = heap s !! l.
Proof.
  intros Hrun.
  destruct (checker_program_loop_touches _ _ _ _ _ Hrun) as [Hlen Hsame].
  split; [done|]. intros l Hl. by apply Hsame.
Qed.

Lemma records_refl P (s : State Reg) : records P s s.
Proof. exists []. by rewrite app_nil_r. Qed.

Lemma records_trans P (s1 s2 s3 : State Reg) :
  records P s1 s2 → records P s2 s3 → records P s1 s3.
Proof.
  intros (e1 & H1 & F1) (e2 & H2 & F2). exists (e1 ++ e2).
  rewrite H2, H1, app_assoc. split; [done | by apply Forall_app].
Qed.

Lemma records_bind {A B} P (m : M Reg A) (f : A → M Reg B) :
  steps (records P) m → (∀ a, steps (records P) (f a)) →
  steps (records P) (m ≫= f).
Proof.
  intros Hm Hf s s' o. rewrite run_bind.
  destruct (m s) as [s1 [a|e]] eqn:E.
  - intros Hrun. eapply records_trans; [by eapply Hm | by eapply Hf].
  - intros [= <- <-]. by eapply Hm.
Qed.

Lemma records_call {A} (P : Event → Prop) c (f : Reg → Reg * A) :
  P (EvCall c) → steps (records P) (call c f).
Proof.
  intros Hc s s' o. rewrite run_call. intros [= <- <-].
  exists [EvCall c]. split; [done | by repeat constructor].
Qed.

Lemma records_visit node env :
  steps (records class_event) (visit ctx node env).
Proof.
  intros s s' o Hrun.
  destruct (visit_steps ctx _ (records_step_relation ctx) node env _ _ _ Hrun)
    as (evs & Htr & F).
  exists evs. split; [done|]. eapply Forall_impl; [exact F|].
  intros [n e|c]; [done|]. cbn. intros Hc. by destruct c.
Qed.

Lemma records_for_append {A} P (f : A → M Reg Val) test xs :
  (∀ x, steps (records P) (f x)) →
  ∀ acc, steps (records P) (for_append f test xs acc).
Proof.
  intros Hf. induction xs as [|x xs IH]; intros acc; cbn [for_append].
  - intros s s' o [= <- <-]. apply records_refl.
  - apply records_bind; [apply Hf|]. intros r. apply IH.
Qed.

Lemma records_class node env :
  steps (records class_event) (visit_NodeClass ctx node env).
Proof.
  unfold visit_NodeClass. apply records_bind.
  - apply records_for_append. intros a. apply records_visit.
  - intros errors. apply records_for_append. intros m.
    unfold visit_NodeClassMethod.
    apply records_bind; [intros s s' o [= <- <-]; apply records_refl|].
    intros e. apply records_bind; [by apply records_call|].
    intros [d|newEnv]; [intros s s' o [= <- <-]; apply records_refl|].
    apply records_bind;
      [intros s s' o [= <- <-]; exists []; by rewrite app_nil_r|].
    intros l. apply records_bind; [apply records_visit|]. intros t.
    destruct (is_error t); [intros s s' o [= <- <-]; apply records_refl|].
    by apply records_call.
Qed.

Lemma build_env_calls_class_events evs :
  Forall class_event evs → build_env_calls evs = [].
Proof.
  induction 1 as [|ev evs Hev _ IH]; [done|].
  unfold build_env_calls in *. cbn [omap list_omap]. rewrite IH.
  destruct ev as [n e|c]; [done|]. by destruct c.
Qed.

(** X13. When pass 4 returns, it has called [buildEnv] exactly once for
    every class of the program, with the name of the class and in
    declaration order; checking the classes themselves never calls
    [buildEnv]. *)
Theorem pass4_builds_one_env_per_class node s s' errors :
  visit_NodeProgram ctx node s = (s', Ret errors) →
  build_env_calls (trace s') =
    build_env_calls (trace s) ++ (class_idName <$> class_list node).
Proof.
  unfold visit_NodeProgram. generalize (@nil Val) as acc.
  revert s. induction (class_list node) as [|c classes IH]; intros s acc.
  - intros [= <- <-]. by rewrite app_nil_r.
  - cbn [visit_NodeProgram_loop]. rewrite run_bind, run_call.
    rewrite run_bind. cbn [env_new]. rewrite run_bind.
    destruct (visit_NodeClass ctx c _ _) as [s1 [errs|e]] eqn:Ec;
      [|discriminate].
    intros Hrest. apply IH in Hrest. rewrite Hrest.
    destruct (records_class _ _ _ _ _ Ec) as (evs & Htr & F).
    rewrite Htr. cbn [trace called]. unfold build_env_calls.
    rewrite !omap_app. fold (build_env_calls evs).
    rewrite (build_env_calls_class_events evs F), app_nil_r.
    cbn. by rewrite <- app_assoc.
Qed.

End CheckerProgram.

(** ** Pass 3 *)

Section Builder.
Context {Reg : Type} (ctx : Context Reg)
  (defs : TypeBuilderVisitor.Definitions Reg).
Import TypeBuilderVisitor.

Lemma run_builder_bind {A C} (m : B Reg A) (f : A → B Reg C) s :
  (m ≫= f) s = f (m s).2 (m s).1.
Proof. unfold mbind, B_bind. by destruct (m s). Qed.

Lemma run_builder_call c (f : Reg → Reg * Val) s :
  builder_call c f s =
    (mkBuilder (currentTypeName s) (f (builder_registry s)).1
       (builder_trace s ++ [c]),
     (f (builder_registry s)).2).
Proof. unfold builder_call. by destruct (f (builder_registry s)). Qed.

Lemma comprehension_calls {A} (call_of : A → BuilderCall)
    (f : A → Reg → Reg * Val) xs s :
  let r := comprehension (λ x, builder_call (call_of x) (f x)) xs s in
  builder_trace r.1 = builder_trace s ++ (call_of <$> xs)
  ∧ currentTypeName r.1 = currentTypeName s
  ∧ length r.2 = length xs.
Proof.
  revert s. induction xs as [|x xs IH]; intros s.
  - cbn. by rewrite app_nil_r.
  - cbn [comprehension]. rewrite run_builder_bind, run_builder_call.
    cbn [fst snd]. rewrite run_builder_bind.
    destruct (IH (mkBuilder (currentTypeName s) (f x (builder_registry s)).1
                    (builder_trace s ++ [call_of x]))) as (Ht & Hn & Hl).
    cbn [mret B_ret fst snd]. rewrite Ht, Hn. cbn [length]. rewrite Hl.
    cbn. by rewrite <- app_assoc.
Qed.

Lemma filter_is_error (vs : list Val) :
  Forall (λ v, is_error v = true) (List.filter is_error vs).
Proof.
  apply Forall_forall. intros v Hv.
  apply list_elem_of_In, List.filter_In in Hv. tauto.
Qed.

Lemma method_step name node :
  builder_step name name (method_calls name node) (method_slots node)
    (visit_NodeClassMethod ctx defs node).
Proof.
  intros s <-. unfold visit_NodeClassMethod.
  rewrite run_builder_bind, run_builder_call. cbn [fst snd].
  rewrite run_builder_bind.
  set (s1 := mkBuilder _ _ _).
  destruct (comprehension_calls
              (λ f, GetTypeOf (formal_type f) (formal_pos f))
              (λ f, getType ctx (formal_type f) (formal_pos f))
              (formal_param_list node) s1) as (Ht & Hn & Hl).
  cbn zeta in Ht, Hn, Hl.
  rewrite run_builder_bind. cbn [get_currentTypeName fst snd].
  rewrite run_builder_bind, run_builder_call. cbn [mret B_ret fst snd].
  rewrite Ht, Hn. subst s1. cbn [builder_trace currentTypeName].
  unfold method_calls, method_slots. repeat split.
  - by rewrite <- !app_assoc.
  - apply filter_is_error.
  - etransitivity; [apply filter_length_le|].
    cbn [app length]. rewrite length_app, Hl. cbn. lia.
Qed.

Lemma attr_step name node :
  builder_step name name [DefineAttrInType name node] 1
    (visit_NodeAttr defs node).
Proof.
  intros s <-. unfold visit_NodeAttr.
  rewrite run_builder_bind. cbn [get_currentTypeName fst snd].
  rewrite run_builder_bind, run_builder_call. cbn [fst snd].
  destruct (is_error _) eqn:E; cbn; repeat split; auto.
Qed.

Lemma for_extend_steps {A} (f : A → B Reg (list Val)) name
    (calls : A → list BuilderCall) (slots : A → nat) xs :
  (∀ x, builder_step name name (calls x) (slots x) (f x)) →
  ∀ acc s, currentTypeName s = name →
    builder_trace (for_extend f xs acc s).1 =
      builder_trace s ++ concat (calls <$> xs)
    ∧ currentTypeName (for_extend f xs acc s).1 = name
    ∧ ∃ more, (for_extend f xs acc s).2 = acc ++ more
              ∧ Forall (λ v, is_error v = true) more
              ∧ length more ≤ sum_list_with slots xs.
Proof.
  intros Hf. induction xs as [|x xs IH]; intros acc s Hname.
  - cbn. rewrite app_nil_r. repeat split; [done|]. exists [].
    by rewrite app_nil_r.
  - cbn [for_extend]. rewrite run_builder_bind.
    destruct (Hf x s Hname) as (Ht & Hn & Fe & Le).
    destruct (IH (acc ++ (f x s).2) (f x s).1 Hn)
      as (Ht' & Hn' & more & Hm & Fm & Lm).
    rewrite Ht', Ht, Hn', Hm. cbn [fmap list_fmap concat sum_list_with].
    repeat split; [by rewrite <- app_assoc|].
    exists ((f x s).2 ++ more). rewrite app_assoc. split; [done|].
    split; [by apply Forall_app|]. rewrite length_app. lia.
Qed.

Lemma class_step name node :
  builder_step name (class_idName node) (class_calls node) (class_slots node)
    (visit_NodeClass ctx defs node).
Proof.
  intros s _. unfold visit_NodeClass.
  rewrite run_builder_bind. cbn [set_currentTypeName fst snd].
  rewrite run_builder_bind.
  set (s1 := mkBuilder _ _ _).
  destruct (for_extend_steps (visit_NodeAttr defs) (class_idName node)
              (λ a, [DefineAttrInType (class_idName node) a]) (λ _, 1)
              (attributes node) (attr_step _) [] s1 eq_refl)
    as (Ht & Hn & ma & Hm & Fa & La).
  destruct (for_extend_steps (visit_NodeClassMethod ctx defs)
              (class_idName node) (method_calls (class_idName node))
              method_slots (methods node) (method_step _)
              (for_extend (visit_NodeAttr defs) (attributes node) [] s1).2
              (for_extend (visit_NodeAttr defs) (attributes node) [] s1).1 Hn)
    as (Ht' & Hn' & mm & Hm' & Fm & Lm).
  rewrite Ht', Ht, Hn', Hm', Hm. subst s1. cbn [builder_trace app].
  unfold class_calls, class_slots. repeat split.
  - assert (Hflat : ∀ l : list NodeAttr,
              concat ((λ a, [DefineAttrInType (class_idName node) a]) <$> l)
              = DefineAttrInType (class_idName node) <$> l).
    { induction l as [|a l IHl]; [done|]. cbn. by rewrite IHl. }
    by rewrite Hflat, <- app_assoc.
  - by apply Forall_app.
  - rewrite length_app.
    assert (Hone : ∀ l : list NodeAttr,
              sum_list_with (λ _ : NodeAttr, 1) l = length l).
    { induction l as [|a l IHl]; [done|]. cbn [sum_list_with length].
      by rewrite IHl. }
    rewrite Hone in La. lia.
Qed.

Lemma answers_app calls1 calls2 r :
  answers ctx defs (calls1 ++ calls2) r =
    ((answers ctx defs calls2 (answers ctx defs calls1 r).1).1,
     (answers ctx defs calls1 r).2
     ++ (answers ctx defs calls2 (answers ctx defs calls1 r).1).2).
Proof.
  revert r. induction calls1 as [|c calls1 IH]; intros r;
    cbn [app answers fst snd].
  - by destruct (answers ctx defs calls2 r).
  - by rewrite IH.
Qed.

Lemma answers_length calls r :
  length (answers ctx defs calls r).2 = length calls.
Proof.
  revert r. induction calls as [|c calls IH]; intros r; [done|].
  cbn [answers snd length]. by rewrite IH.
Qed.

Lemma comprehension_run {A} (call_of : A → BuilderCall)
    (f : A → Reg → Reg * Val) xs :
  (∀ x, answer_of ctx defs (call_of x) = f x) →
  ∀ s,
    comprehension (λ x, builder_call (call_of x) (f x)) xs s =
      (mkBuilder (currentTypeName s)
         (answers ctx defs (call_of <$> xs) (builder_registry s)).1
         (builder_trace s ++ (call_of <$> xs)),
       (answers ctx defs (call_of <$> xs) (builder_registry s)).2).
Proof.
  intros Hf. induction xs as [|x xs IH]; intros s.
  - cbn. rewrite app_nil_r. by destruct s.
  - cbn [comprehension]. rewrite run_builder_bind, run_builder_call.
    cbn [fst snd]. rewrite run_builder_bind, IH. rewrite fmap_cons.
    cbn [mret B_ret fst snd currentTypeName builder_registry builder_trace
         answers].
    by rewrite Hf, <- app_assoc.
Qed.

Lemma method_run name node :
  builder_run ctx defs name name (method_calls name node)
    (visit_NodeClassMethod ctx defs node).
Proof.
  intros s <-. unfold visit_NodeClassMethod.
  rewrite run_builder_bind, run_builder_call. cbn [fst snd].
  rewrite run_builder_bind.
  rewrite (comprehension_run
             (λ f, GetTypeOf (formal_type f) (formal_pos f))
             (λ f, getType ctx (formal_type f) (formal_pos f)))
    by reflexivity.
  cbn [fst snd currentTypeName builder_registry builder_trace].
  rewrite run_builder_bind. cbn [get_currentTypeName fst snd].
  rewrite run_builder_bind, run_builder_call.
  cbn [mret B_ret fst snd currentTypeName builder_registry builder_trace].
  unfold method_calls. cbn [answers answer_of fst snd].
  rewrite answers_app. cbn [answers answer_of fst snd].
  by rewrite <- !app_assoc.
Qed.

Lemma attr_run name node :
  builder_run ctx defs name name [DefineAttrInType name node]
    (visit_NodeAttr defs node).
Proof.
  intros s <-. unfold visit_NodeAttr.
  rewrite run_builder_bind. cbn [get_currentTypeName fst snd].
  rewrite run_builder_bind, run_builder_call.
  cbn [fst snd answers answer_of List.filter].
  by destruct (is_error _).
Qed.

Lemma for_extend_run {A} (f : A → B Reg (list Val)) name
    (calls : A → list BuilderCall) xs :
  (∀ x, builder_run ctx defs name name (calls x) (f x)) →
  ∀ acc s, currentTypeName s = name →
    for_extend f xs acc s =
      (mkBuilder name
         (answers ctx defs (concat (calls <$> xs)) (builder_registry s)).1
         (builder_trace s ++ concat (calls <$> xs)),
       acc ++ List.filter is_error
                (answers ctx defs (concat (calls <$> xs))
                   (builder_registry s)).2).
Proof.
  intros Hf. induction xs as [|x xs IH]; intros acc s Hname.
  - cbn. rewrite !app_nil_r. destruct s. cbn in Hname. by subst.
  - cbn [for_extend]. rewrite run_builder_bind, (Hf x s Hname).
    cbn [fst snd]. rewrite IH by reflexivity.
    cbn [currentTypeName builder_registry builder_trace].
    rewrite fmap_cons. cbn [concat]. rewrite answers_app. cbn [fst snd].
    by rewrite List.filter_app, <- !app_assoc.
Qed.

Lemma class_run name node :
  builder_run ctx defs name (class_idName node) (class_calls node)
    (visit_NodeClass ctx defs node).
Proof.
  intros s _. unfold visit_NodeClass.
  rewrite run_builder_bind. cbn [set_currentTypeName fst snd].
  rewrite run_builder_bind.
  rewrite (for_extend_run (visit_NodeAttr defs) (class_idName node)
             (λ a, [DefineAttrInType (class_idName node) a])
             (attributes node) (attr_run _)) by reflexivity.
  cbn [fst snd currentTypeName builder_registry builder_trace app].
  rewrite (for_extend_run (visit_NodeClassMethod ctx defs) (class_idName node)
             (method_calls (class_idName node)) (methods node) (method_run _))
    by reflexivity.
  cbn [currentTypeName builder_registry builder_trace].
  assert (Hflat : ∀ l : list NodeAttr,
            concat ((λ a, [DefineAttrInType (class_idName node) a]) <$> l)
            = DefineAttrInType (class_idName node) <$> l).
  { induction l as [|a l IHl]; [done|]. cbn. by rewrite IHl. }
  unfold class_calls. rewrite answers_app, Hflat. cbn [fst snd].
  by rewrite List.filter_app, <- !app_assoc.
Qed.

(** X14. Registering a method calls [getType] for the return type, then
    for the type of every formal in order, then [defineMethod] with the
    current type name, in every case: an unknown type does not keep the
    method from being defined.  The result is the list of the diagnostics
    among the answers to these calls, in the order of the calls (there
    are two more answers than formals); [currentTypeName] is not
    changed. *)
Theorem builder_method_calls node s :
  let calls := method_calls (currentTypeName s) node in
  let answered := answers ctx defs calls (builder_registry s) in
  visit_NodeClassMethod ctx defs node s =
    (mkBuilder (currentTypeName s) answered.1 (builder_trace s ++ calls),
     List.filter is_error answered.2)
  ∧ length answered.2 = 2 + length (formal_param_list node).
Proof.
  split; [exact (method_run (currentTypeName s) node s eq_refl)|].
  rewrite answers_length. unfold method_calls. cbn [length].
  rewrite length_app, length_fmap. cbn. lia.
Qed.

(** X15. Pass 3 on a class, whatever [currentTypeName] was before,
    defines every attribute and then every method of the class under the
    name of that class, in declaration order; for an attribute it calls
    [defineAttrInType] only (the declared type of an attribute is not
    looked up with [getType]).  It leaves [currentTypeName] at the name
    of the class and returns diagnostics only. *)
Theorem builder_class_calls node s :
  let r := visit_NodeClass ctx defs node s in
  builder_trace r.1 = builder_trace s ++ class_calls node
  ∧ currentTypeName r.1 = class_idName node
  ∧ Forall (λ v, is_error v = true) r.2
  ∧ length r.2 ≤ class_slots node.
Proof. exact (class_step (currentTypeName s) node s eq_refl). Qed.

Lemma program_run classes :
  ∀ acc s,
    for_extend (visit_NodeClass ctx defs) classes acc s =
      (mkBuilder
         (default (currentTypeName s) (last (class_idName <$> classes)))
         (answers ctx defs (concat (class_calls <$> classes))
            (builder_registry s)).1
         (builder_trace s ++ concat (class_calls <$> classes)),
       acc ++ List.filter is_error
                (answers ctx defs (concat (class_calls <$> classes))
                   (builder_registry s)).2).
Proof.
  induction classes as [|c classes IH]; intros acc s.
  - cbn. rewrite !app_nil_r. by destruct s.
  - cbn [for_extend].
    rewrite run_builder_bind, (class_run (currentTypeName s) c s eq_refl).
    cbn [fst snd]. rewrite IH.
    cbn [currentTypeName builder_registry builder_trace].
    rewrite !fmap_cons. cbn [concat]. rewrite answers_app. cbn [fst snd].
    rewrite List.filter_app, <- !app_assoc, last_cons.
    by destruct (last (class_idName <$> classes)).
Qed.

(** X16. Pass 3 on a program places the calls of its classes, class
    after class in declaration order, whatever the answers, and returns
    the diagnostics among the answers to all these calls, in the order of
    the calls: a diagnostic in one class does not stop the others and is
    not lost.  Afterwards [currentTypeName] is the name of the last class
    (it is unchanged when the program has no class). *)
Theorem builder_program_calls node s :
  let calls := concat (class_calls <$> class_list node) in
  let answered := answers ctx defs calls (builder_registry s) in
  visit_NodeProgram ctx defs node s =
    (mkBuilder
       (default (currentTypeName s) (last (class_idName <$> class_list node)))
       answered.1 (builder_trace s ++ calls),
     List.filter is_error answered.2).
Proof. exact (program_run (class_list node) [] s). Qed.

End Builder.

Lemma visit_NodeBinaryOperation_result_witness :
  TypeCheckerVisitor.visit SpecContext.programContext
    (NodeBinaryOperation NodeAddition (NodeInteger p0) (NodeString p0) p0) 0
    (SpecContext.start ∅)
  = (mkState [∅] SpecContext.builtins
       [ EvVisit (NodeBinaryOperation NodeAddition (NodeInteger p0)
                    (NodeString p0) p0) 0;
         EvVisit (NodeInteger p0) 0; EvVisit (NodeString p0) 0;
         EvCall (CheckArithmetic (VStr "Int") (VStr "String") p0) ],
     Ret (VErr (mk_error "TypeMismatch" "arithmetic" p0))).
Proof.
  etransitivity.
  - apply (proj1 (visit_NodeBinaryOperation_result SpecContext.programContext
                    NodeAddition (NodeInteger p0) (NodeString p0) p0 0
                    (SpecContext.start ∅))
             (mkState [∅] SpecContext.builtins
                [ EvVisit (NodeBinaryOperation NodeAddition (NodeInteger p0)
                             (NodeString p0) p0) 0;
                  EvVisit (NodeInteger p0) 0 ])
             (VStr "Int")
             (mkState [∅] SpecContext.builtins
                [ EvVisit (NodeBinaryOperation NodeAddition (NodeInteger p0)
                             (NodeString p0) p0) 0;
                  EvVisit (NodeInteger p0) 0; EvVisit (NodeString p0) 0 ])
             (VStr "String")); reflexivity.
  - reflexivity.
Defined.

Lemma visit_NodeLet_steps_witness :
  TypeCheckerVisitor.visit SpecContext.programContext
    (NodeLet (mkNodeLet "a" "Int" (NodeString p0) p0)) 0 (SpecContext.start ∅)
  = (mkState [{["a" := VStr "Int"]}] SpecContext.builtins
       [ EvVisit (NodeLet (mkNodeLet "a" "Int" (NodeString p0) p0)) 0;
         EvVisit (NodeString p0) 0;
         EvCall (CheckAssign "a" (VStr "Int") (VStr "String") p0) ],
     Ret (VErr (mk_error "TypeMismatch" "a" p0))).
Proof.
  etransitivity.
  - apply (proj2 (visit_NodeLet_steps SpecContext.programContext
                    (mkNodeLet "a" "Int" (NodeString p0) p0) 0
                    (SpecContext.start ∅))
             (mkState [∅] SpecContext.builtins
                [ EvVisit (NodeLet (mkNodeLet "a" "Int" (NodeString p0) p0)) 0;
                  EvVisit (NodeString p0) 0 ])
             (VStr "String")); [reflexivity | reflexivity | cbn; lia].
  - reflexivity.
Defined.

Lemma visit_NodeAssignment_steps_witness :
  TypeCheckerVisitor.visit SpecContext.programContext
    (NodeAssignment "c" (NodeInteger p0) p0) 0
    (SpecContext.start {["c" := VStr "Int"]})
  = (mkState [{["c" := VStr "Int"]}] SpecContext.builtins
       [ EvVisit (NodeAssignment "c" (NodeInteger p0) p0) 0;
         EvVisit (NodeInteger p0) 0;
         EvCall (CheckAssignNode (NodeAssignment "c" (NodeInteger p0) p0)
                   (VStr "Int") {["c" := VStr "Int"]}) ],
     Ret (VStr "Int")).
Proof.
  etransitivity.
  - apply (proj2 (visit_NodeAssignment_steps SpecContext.programContext
                    "c" (NodeInteger p0) p0 0
                    (SpecContext.start {["c" := VStr "Int"]}))
             (mkState [{["c" := VStr "Int"]}] SpecContext.builtins
                [ EvVisit (NodeAssignment "c" (NodeInteger p0) p0) 0;
                  EvVisit (NodeInteger p0) 0 ])
             (VStr "Int")); reflexivity.
  - reflexivity.
Defined.

Lemma pass4_diagnostics_witness :
  ∃ s',
    TypeCheckerVisitor.visit_NodeProgram SpecContext.programContext
      program_two_classes (SpecContext.start ∅)
    = (s', Ret [VErr (mk_error "UnknownVariable" "y" p0)])
    ∧ 1 ≤ 2.
Proof.
  eexists. split; [reflexivity|].
  exact (proj2 (proj1 (pass4_diagnostics SpecContext.programContext
                         program_two_classes (SpecContext.start ∅))
                  _ _ eq_refl)).
Defined.

Lemma pass4_keeps_store_witness :
  heap (TypeCheckerVisitor.visit_NodeProgram SpecContext.programContext
          program_two_classes
          (SpecContext.start {["c" := VStr "Int"]})).1 !! 0
  = Some {["c" := VStr "Int"]}.
Proof.
  transitivity (heap (SpecContext.start {["c" := VStr "Int"]}) !! 0);
    [|reflexivity].
  eapply (proj2 (pass4_keeps_store SpecContext.programContext
                   program_two_classes
                   (SpecContext.start {["c" := VStr "Int"]}) _ _
                   (surjective_pairing _))).
  cbn. lia.
Defined.

Lemma pass4_builds_one_env_per_class_witness :
  build_env_calls
    (trace (TypeCheckerVisitor.visit_NodeProgram SpecContext.programContext
              program_two_classes (SpecContext.start ∅)).1)
  = ["A"; "B"].
Proof.
  eapply (pass4_builds_one_env_per_class SpecContext.programContext
            program_two_classes (SpecContext.start ∅) _
            [VErr (mk_error "UnknownVariable" "y" p0)]).
  reflexivity.
Defined.

(** ** Pass 2 at its edges, and after pass 1 *)

Section InheritanceEdges.
Context {Reg : Type} (ctx : Context Reg).
Import TypeInheritanceVisitor.

Lemma dict_get_None {A} (d : list (string * A)) k :
  k ∉ d.*1 → dict_get d k = None.
Proof.
  unfold dict_get. induction d as [|[k0 a] d IH]; [done|].
  rewrite fmap_cons, not_elem_of_cons. intros [Hne Hnot]. cbn [List.find fst].
  cbn in Hne. destruct (String.eqb_spec k0 k); [congruence | by apply IH].
Qed.

Lemma dict_get_first {A} (pre rest : list (string * A)) k a :
  k ∉ pre.*1 → dict_get (pre ++ (k, a) :: rest) k = Some a.
Proof.
  unfold dict_get. induction pre as [|[k0 a0] pre IH]; cbn [app List.find fst].
  - intros _. by rewrite String.eqb_refl.
  - rewrite fmap_cons, not_elem_of_cons. intros [Hne Hnot]. cbn in Hne.
    destruct (String.eqb_spec k0 k); [congruence | by apply IH].
Qed.

(** X17. [visitForInherit] on a name that is not registered raises
    [KeyError] for that name and places no call; the state is left as it
    is. *)
Theorem visitForInherit_unregistered _type line_and_col s :
  _type ∉ names_of ctx (registry s) →
  visitForInherit ctx _type line_and_col s = (s, Raise (KeyError _type)).
Proof.
  intros Hnot. unfold visitForInherit. by rewrite dict_get_None.
Qed.

Lemma inheritance_loop_skips_root line_and_col pre rest s :
  types ctx (registry s) = pre ++ rest →
  Forall (λ kv, kv.1 = "Object") pre →
  ∀ n skipped fuel errors,
    skipped + n = length pre →
    visit_NodeProgram_loop ctx line_and_col (length (pre ++ rest)) (n + fuel)
      skipped errors s =
    visit_NodeProgram_loop ctx line_and_col (length (pre ++ rest)) fuel
      (length pre) errors s.
Proof.
  intros Htypes Hroot. induction n as [|n IH]; intros skipped fuel errors Hn.
  - cbn [Nat.add]. by replace skipped with (length pre) by lia.
  - cbn [Nat.add visit_NodeProgram_loop]. rewrite Htypes, Nat.eqb_refl.
    cbn [negb].
    destruct (lookup_lt_is_Some_2 pre skipped) as [[k i] Hk]; [lia|].
    rewrite (lookup_app_l_Some _ _ _ _ Hk).
    rewrite Forall_forall in Hroot.
    assert (k = "Object") as ->.
    { apply (Hroot (k, i)). by eapply list_elem_of_lookup_2. }
    change (String.eqb "Object" "Object") with true. cbn [negb].
    apply IH. lia.
Qed.

(** X18. Pass 2 walks the dictionary of types while [relateInheritance]
    runs: when the call for the first type other than [Object] changes the
    number of registered types, pass 2 raises [RuntimeError] right after
    that call, and returns no diagnostics. *)
Theorem pass2_raises_when_registry_changes_size node line_and_col s pre _type
    info rest :
  types ctx (registry s) = pre ++ (_type, info) :: rest →
  Forall (λ kv, kv.1 = "Object") pre →
  _type ≠ "Object" →
  let pos := default (0, 0)%Z (line_and_col !! _type) in
  let answer := relateInheritance ctx _type (parent info) pos (registry s) in
  length (types ctx answer.1) ≠ length (types ctx (registry s)) →
  visit_NodeProgram ctx node line_and_col s =
    (called (RelateInheritance _type (parent info) pos) answer.1 s,
     Raise (RuntimeError "dictionary changed size during iteration")).
Proof.
  intros Htypes Hroot Hne pos answer Hsize. unfold visit_NodeProgram.
  rewrite Htypes.
  replace (length (pre ++ (_type, info) :: rest))
    with (length pre + S (length rest)) at 2
    by (rewrite length_app; cbn; lia).
  rewrite (inheritance_loop_skips_root line_and_col pre _ s Htypes Hroot
             (length pre) 0 (S (length rest)) [] eq_refl).
  cbn [visit_NodeProgram_loop]. rewrite Htypes, Nat.eqb_refl. cbn [negb].
  rewrite list_lookup_middle by done.
  destruct (String.eqb_spec _type "Object") as [|_]; [done|]. cbn [negb].
  rewrite run_bind. unfold visitForInherit. rewrite Htypes.
  rewrite dict_get_first.
  2:{ intros Hin. apply list_elem_of_fmap in Hin as ([k i] & -> & Hin).
      rewrite Forall_forall in Hroot. by apply Hne, (Hroot (k, i)). }
  rewrite run_call. fold pos. fold answer.
  destruct rest as [|r rest]; cbn [length visit_NodeProgram_loop called registry].
  - rewrite Htypes in Hsize.
    destruct (Nat.eqb_spec (length (types ctx answer.1))
                (length (pre ++ [(_type, info)]))); [done|]. reflexivity.
  - rewrite Htypes in Hsize.
    destruct (Nat.eqb_spec (length (types ctx answer.1))
                (length (pre ++ (_type, info) :: r :: rest))); [done|].
    reflexivity.
Qed.

(** X19. Pass 2 run with the positions that pass 1 returned: provided
    [relateInheritance] leaves the registered names as they are, the
    position handed over for a type is the one of the last class the
    program declares under that name, and [(0, 0)] for a type that the
    program does not declare. *)
Theorem pass2_after_pass1_positions node s s1 errors line_and_col s2 errors2 :
  keeps_names ctx →
  TypeCollectorVisitor.visit_NodeProgram ctx node s
    = (s1, Ret (errors, line_and_col)) →
  visit_NodeProgram ctx node line_and_col s1 = (s2, Ret errors2) →
  ∃ calls,
    calls_of (trace s2) = calls_of (trace s1) ++ calls
    ∧ Forall2
        (λ _type c,
           ∃ declared,
             c = RelateInheritance _type declared
                   (position_of (class_list node) _type))
        (non_root (names_of ctx (registry s1))) calls.
Proof.
  intros Hkeep H1 H2.
  assert (Hlc : line_and_col = recorded_positions (class_list node)).
  { unfold TypeCollectorVisitor.visit_NodeProgram in H1.
    rewrite collector_loop, run_bind in H1.
    destruct (visit_all _ _ s) as [sx [vs|e]]; [|discriminate].
    by injection H1 as _ _ <-. }
  unfold visit_NodeProgram in H2.
  pose proof (inheritance_loop ctx line_and_col Hkeep
                (names_of ctx (registry s1)) [] (length (names_of ctx (registry s1)))
                [] s1 eq_refl (reflexivity _)) as Hloop.
  cbn [app length] in Hloop. unfold names_of in Hloop at 1 2.
  rewrite length_fmap in Hloop. rewrite Hloop in H2. injection H2 as <- _.
  exists (fst <$> (relate_all ctx line_and_col (names_of ctx (registry s1))
                    (registry s1)).2).
  split.
  - cbn [trace]. unfold calls_of. rewrite omap_app. f_equal.
    generalize (relate_all ctx line_and_col (names_of ctx (registry s1))
                  (registry s1)).2.
    intros cvs. induction cvs as [|cv cvs IH]; [done|].
    cbn [fmap list_fmap omap list_omap compose]. by rewrite IH.
  - pose proof (relate_all_calls ctx line_and_col Hkeep
                  (names_of ctx (registry s1)) (names_of ctx (registry s1))
                  (registry s1) eq_refl (reflexivity _)) as Hcalls.
    apply Forall2_fmap_r. eapply Forall2_impl; [exact Hcalls|].
    intros t cv (r_t & info & _ & _ & Hc & _). exists (parent info).
    rewrite Hc. unfold position_of. by rewrite Hlc, recorded_positions_lookup.
Qed.

End InheritanceEdges.

Lemma visitForInherit_unregistered_witness :
  TypeInheritanceVisitor.visitForInherit SpecContext.programContext "Foo"
    (3, 1)%Z (mkState [] SpecContext.builtins [])
  = (mkState [] SpecContext.builtins [], Raise (KeyError "Foo")).
Proof.
  apply (visitForInherit_unregistered SpecContext.programContext "Foo" (3, 1)%Z
           (mkState [] SpecContext.builtins [])).
  apply (bool_decide_unpack _). reflexivity.
Defined.

Lemma pass2_raises_when_registry_changes_size_witness :
  TypeInheritanceVisitor.visit_NodeProgram growing_context (mkNodeProgram []) ∅
    (mkState [] SpecContext.builtins [])
  = (mkState []
       (SpecContext.builtins
        ++ [("Int'", SpecContext.mkClassInfo (VStr "Object") [] [])])
       [EvCall (RelateInheritance "Int" (VStr "Object") (0, 0)%Z)],
     Raise (RuntimeError "dictionary changed size during iteration")).
Proof.
  refine (eq_trans
            (pass2_raises_when_registry_changes_size growing_context
               (mkNodeProgram []) ∅ (mkState [] SpecContext.builtins [])
               [("Object", mkTypeInfo VNone)] "Int"
               (mkTypeInfo (VStr "Object"))
               [ ("Bool", mkTypeInfo (VStr "Object"));
                 ("String", mkTypeInfo (VStr "Object")) ] _ _ _ _)
            eq_refl).
  - reflexivity.
  - by repeat constructor.
  - discriminate.
  - cbn. lia.
Defined.

Lemma pass2_after_pass1_positions_witness :
  let run1 :=
    TypeCollectorVisitor.visit_NodeProgram SpecContext.programContext
      program_duplicate (mkState [] SpecContext.builtins []) in
  let run2 :=
    TypeInheritanceVisitor.visit_NodeProgram SpecContext.programContext
      program_duplicate (recorded_positions (class_list program_duplicate))
      run1.1 in
  ∃ calls,
    calls_of (trace run2.1) = calls_of (trace run1.1) ++ calls
    ∧ Forall2
        (λ _type c,
           ∃ declared,
             c = RelateInheritance _type declared
                   (position_of (class_list program_duplicate) _type))
        ["Int"; "Bool"; "String"; "A"; "B"] calls.
Proof.
  intros run1 run2.
  exact (pass2_after_pass1_positions SpecContext.programContext
           program_duplicate (mkState [] SpecContext.builtins [])
           run1.1 [VErr (mk_error "DuplicateType" "A" (5, 1)%Z)]
           (recorded_positions (class_list program_duplicate))
           run2.1 []
           spec_context_keeps_names eq_refl eq_refl).
Defined.

(** ** The nodes entered and the exceptions raised *)

Section Confined.
Context {Reg : Type} (ctx : Context Reg).
Import TypeCheckerVisitor.

Lemma confined_mono {A} ns ns' env (m : M Reg A) :
  (∀ n, n ∈ ns → n ∈ ns') → confined ns env m → confined ns' env m.
Proof.
  intros Hsub H s s' o Hl Hrun.
  destruct (H s s' o Hl Hrun) as [(evs & Ht & F) Hr]. split.
  - exists evs. split; [done|]. eapply Forall_impl; [exact F|].
    intros [n e|c]; cbn; auto.
  - intros e He Hne. destruct (Hr e He Hne) as (n & Hn & Hc). eauto.
Qed.

Lemma confined_ret {A} ns env (a : A) : confined (Reg := Reg) ns env (mret a).
Proof.
  intros s s' o _ [= <- <-]. split; [|done]. exists []. by rewrite app_nil_r.
Qed.

Lemma confined_call {A} ns env c (f : Reg → Reg * A) :
  confined ns env (call c f).
Proof.
  intros s s' o _. rewrite run_call. intros [= <- <-]. split; [|done].
  exists [EvCall c]. split; [done | by repeat constructor].
Qed.

Lemma confined_env_read ns env l : confined (Reg := Reg) ns env (env_read l).
Proof.
  intros s s' o _ [= <- <-]. split; [|done]. exists []. by rewrite app_nil_r.
Qed.

Lemma confined_log ns env n env' :
  n ∈ ns → confined (Reg := Reg) ns env (log (EvVisit n env')).
Proof.
  intros Hn s s' o _ [= <- <-]. split; [|done].
  exists [EvVisit n env']. split; [done | by repeat constructor].
Qed.

Lemma confined_raise {A} ns env e n :
  n ∈ ns → cause e n → confined (Reg := Reg) (A := A) ns env (raise e).
Proof.
  intros Hn Hc s s' o _ [= <- <-]. split.
  - exists []. by rewrite app_nil_r.
  - intros e' [= <-] _. eauto.
Qed.

Lemma confined_recursion {A} ns env :
  confined (Reg := Reg) (A := A) ns env (raise RecursionError).
Proof.
  intros s s' o _ [= <- <-]. split.
  - exists []. by rewrite app_nil_r.
  - by intros e' [= <-].
Qed.

Lemma confined_self ns env l n :
  n ∈ ns → cause (KeyError "wrapperType") n →
  confined (Reg := Reg) ns env (env_get l "wrapperType").
Proof.
  intros Hn Hc s s' o _. unfold env_get.
  destruct (deref l s !! "wrapperType"); intros [= <- <-]; split;
    try (exists []; by rewrite app_nil_r); try done.
  intros e [= <-] _. eauto.
Qed.

Lemma confined_bind {A B} ns env (m : M Reg A) (f : A → M Reg B) e0 :
  confined ns env m → touches_only e0 m → (∀ a, confined ns env (f a)) →
  confined ns env (m ≫= f).
Proof.
  intros Hm Hg Hf s s' o Hl. rewrite run_bind.
  destruct (m s) as [s1 [a|e]] eqn:E.
  - intros Hrun. destruct (Hm _ _ _ Hl E) as [(ev1 & Ht1 & F1) _].
    destruct (Hg _ _ _ E) as [Hlen _].
    destruct (Hf a s1 s' o ltac:(lia) Hrun) as [(ev2 & Ht2 & F2) Hr].
    split; [|done]. exists (ev1 ++ ev2). rewrite Ht2, Ht1, app_assoc.
    split; [done | by apply Forall_app].
  - intros [= <- <-]. destruct (Hm _ _ _ Hl E) as [Ht Hr]. split; [done|].
    intros e' [= <-]. by apply Hr.
Qed.

(** [previousEnv.update({k: v})] followed by [previousEnv[k]] does not
    raise *)
Lemma confined_update_get {B} ns env k v (f : Val → M Reg B) :
  (∀ d, confined ns env (f d)) →
  confined ns env (env_update env k v ≫= λ _, env_get env k ≫= f).
Proof.
  intros Hf s s' o Hl. rewrite run_bind. cbn [env_update]. rewrite run_bind.
  unfold env_get at 1. set (s1 := mkState _ _ _).
  assert (Hd : deref env s1 = <[k := v]> (deref env s)).
  { unfold deref at 1. subst s1. cbn [heap]. by rewrite list_lookup_insert_eq. }
  rewrite Hd, lookup_insert_eq. intros Hrun.
  apply (Hf v s1 s' o); [|done]. subst s1. cbn [heap]. by rewrite length_insert.
Qed.

Lemma let_method_confined nodeLet :
  (∀ env, confined (visited_nodes (let_body nodeLet)) env
            (visit ctx (let_body nodeLet) env)) →
  ∀ env, confined (visited_nodes (NodeLet nodeLet)) env
           (visit_NodeLet ctx (visit ctx) nodeLet env).
Proof.
  intros Hbody env. unfold visit_NodeLet. cbn [visited_nodes].
  eapply confined_bind; [| apply visit_touches | intros t].
  { eapply confined_mono; [|apply Hbody]. intros n Hn. apply elem_of_cons.
    by right. }
  destruct (is_error t); [apply confined_ret|].
  apply confined_update_get. intros d. apply confined_call.
Qed.

Lemma let_confined nodeLet :
  (∀ env, confined (visited_nodes (let_body nodeLet)) env
            (visit ctx (let_body nodeLet) env)) →
  ∀ env, confined (visited_nodes (NodeLet nodeLet)) env
           (visit ctx (NodeLet nodeLet) env).
Proof.
  intros Hbody env. rewrite visit_method_of.
  eapply confined_bind; [| apply (touches_log None) | intros _].
  { apply confined_log. apply elem_of_cons. by left. }
  by apply let_method_confined.
Qed.

Lemma let_complex_loop_confined ns body previousEnv nestedLets :
  Forall (λ nodeLet,
            ∀ env, confined (visited_nodes (let_body nodeLet)) env
                     (visit ctx (let_body nodeLet) env)) nestedLets →
  (∀ env, confined (visited_nodes body) env (visit ctx body env)) →
  (∀ n,
     n ∈ flat_map (λ nodeLet, NodeLet nodeLet :: visited_nodes (let_body nodeLet))
           nestedLets ++ visited_nodes body → n ∈ ns) →
  ∀ newEnv s s' o,
    match nestedLets, newEnv with
    | [], None => False
    | [], Some l => l < length (heap s)
    | _, _ => True
    end →
    visit_NodeLetComplex_loop ctx (visit ctx) body previousEnv nestedLets
      newEnv s = (s', o) →
    (∃ evs, trace s' = trace s ++ evs ∧ Forall (enters_only ns) evs)
    ∧ (∀ e, o = Raise e → e ≠ RecursionError → ∃ n, n ∈ ns ∧ cause e n).
Proof.
  intros Hlets Hbody. induction Hlets as [|nodeLet rest Hlet _ IH];
    intros Hsub newEnv s s' o Hnew.
  - destruct newEnv as [l|]; [|done]. cbn [visit_NodeLetComplex_loop].
    intros Hrun.
    by eapply (confined_mono (visited_nodes body) ns l); [|apply Hbody|..].
  - cbn [visit_NodeLetComplex_loop]. rewrite run_bind.
    cbn [env_copy env_new]. set (s1 := mkState _ _ _). set (l := length (heap s)).
    rewrite run_bind.
    change (visit_nodeLet ctx (visit ctx) nodeLet l)
      with (visit ctx (NodeLet nodeLet) l).
    assert (Hl1 : l < length (heap s1)).
    { subst s1 l. cbn [heap]. rewrite length_app. cbn. lia. }
    destruct (visit ctx (NodeLet nodeLet) l s1) as [s2 [r|e]] eqn:Elet.
    + destruct (let_confined nodeLet Hlet l _ _ _ Hl1 Elet)
        as [(ev1 & Ht1 & F1) _].
      assert (F1' : Forall (enters_only ns) ev1).
      { eapply Forall_impl; [exact F1|]. intros [n e|c]; cbn; [|done].
        intros Hn. apply Hsub. cbn [flat_map]. rewrite <- app_assoc.
        apply elem_of_app. by left. }
      destruct (visit_touches ctx (NodeLet nodeLet) l _ _ _ Elet) as [Hlen _].
      destruct (is_error r).
      * intros [= <- <-]. split; [|done]. exists ev1.
        by rewrite Ht1.
      * rewrite run_bind. cbn [env_update]. set (s3 := mkState _ _ _).
        intros Hrun.
        destruct (IH ltac:(intros n Hn; apply Hsub; cbn [flat_map];
                           rewrite <- app_assoc; apply elem_of_app; by right)
                    (Some l) s3 s' o) as [(ev2 & Ht2 & F2) Hr]; [|done|].
        { destruct rest; [|done]. subst s3. cbn [heap].
          rewrite length_insert. lia. }
        split; [|done]. exists (ev1 ++ ev2). rewrite Ht2. subst s3.
        cbn [trace]. rewrite Ht1, app_assoc.
        split; [done | by apply Forall_app].
    + intros [= <- <-].
      destruct (let_confined nodeLet Hlet l _ _ _ Hl1 Elet)
        as [(ev1 & Ht1 & F1) Hr].
      assert (Hin : ∀ n, n ∈ visited_nodes (NodeLet nodeLet) → n ∈ ns).
      { intros n Hn. apply Hsub. cbn [flat_map]. rewrite <- app_assoc.
        apply elem_of_app. by left. }
      split.
      * exists ev1. split; [by rewrite Ht1|].
        eapply Forall_impl; [exact F1|]. intros [n e0|c]; cbn; auto.
      * intros e' [= <-] Hne.
        destruct (Hr e eq_refl Hne) as (n & Hn & Hc). eauto.
Qed.

Lemma dispatch_loop_confined ns typeExpr method pos env arguments :
  Forall (λ arg, ∀ env, confined (visited_nodes arg) env (visit ctx arg env))
    arguments →
  (∀ n, n ∈ flat_map visited_nodes arguments → n ∈ ns) →
  ∀ argTypes,
    confined ns env
      (visit_NodeDynamicDispatch_loop ctx (visit ctx) typeExpr method pos env
         arguments argTypes).
Proof.
  induction 1 as [|arg arguments Harg _ IH]; intros Hsub argTypes;
    cbn [visit_NodeDynamicDispatch_loop].
  - apply confined_call.
  - eapply confined_bind; [| apply visit_touches | intros t].
    + eapply confined_mono; [|apply Harg]. intros n Hn. apply Hsub.
      cbn [flat_map]. apply elem_of_app. by left.
    + destruct (is_error t); [apply confined_ret|]. apply IH.
      intros n Hn. apply Hsub. cbn [flat_map]. apply elem_of_app. by right.
Qed.

Lemma visit_confined node :
  ∀ env, confined (visited_nodes node) env (visit ctx node env).
Proof.
  induction node using Node_nested_ind; intros env;
    try (rewrite visit_method_of;
         eapply confined_bind;
           [ apply confined_log; apply elem_of_cons; by left
           | apply (touches_log None)
           | intros _ ]).
  - apply confined_ret.
  - apply confined_ret.
  - apply confined_ret.
  - apply confined_ret.
  - unfold visit_NodeObject.
    eapply confined_bind; [apply confined_env_read | apply (touches_env_read None)|].
    intros e. apply confined_call.
  - eapply confined_self; [apply elem_of_cons; by left | done].
  - unfold visit_NodeNewObject.
    eapply confined_bind; [apply confined_call | apply (touches_call None)|].
    intros r. destruct (is_error r); apply confined_ret.
  - unfold visit_NodeAssignment. cbn [visited_nodes].
    eapply confined_bind; [| apply visit_touches | intros r].
    { eapply confined_mono; [|apply IHnode]. intros n Hn. apply elem_of_cons.
      by right. }
    destruct (is_error r); [apply confined_ret|].
    eapply confined_bind; [apply confined_env_read | apply (touches_env_read None)|].
    intros e. apply confined_call.
  - unfold visit_NodeBinaryOperation. cbn [visited_nodes].
    eapply confined_bind; [| apply visit_touches | intros t1].
    { eapply confined_mono; [|apply IHnode1]. intros n Hn. apply elem_of_cons.
      right. apply elem_of_app. by left. }
    eapply confined_bind; [| apply visit_touches | intros t2].
    { eapply confined_mono; [|apply IHnode2]. intros n Hn. apply elem_of_cons.
      right. apply elem_of_app. by right. }
    destruct (is_error t1); [apply confined_ret|].
    destruct (is_error t2); [apply confined_ret|].
    destruct (is_arithmetic kind); [apply confined_call|].
    destruct (is_equal kind); [apply confined_call | apply confined_ret].
  - by apply let_method_confined.
  - unfold visit_NodeLetComplex. intros s s' o Hl Hrun.
    destruct nestedLets as [|nodeLet rest].
    + injection Hrun as <- <-. split.
      * exists []. by rewrite app_nil_r.
      * intros e [= <-] _. eexists. split; [apply elem_of_cons; by left|].
        done.
    + eapply (let_complex_loop_confined _ node env (nodeLet :: rest) H IHnode);
        [| |exact Hrun]; [|done].
      intros n Hn. cbn [visited_nodes]. apply elem_of_cons. by right.
  - unfold visit_NodeDynamicDispatch. cbn [visited_nodes].
    eapply confined_bind; [| apply visit_touches | intros t].
    { eapply confined_mono; [|apply IHnode]. intros n Hn. apply elem_of_cons.
      right. apply elem_of_app. by left. }
    destruct (is_error t); [apply confined_ret|].
    apply dispatch_loop_confined; [done|].
    intros n Hn. apply elem_of_cons. right. apply elem_of_app. by right.
  - apply confined_recursion.
  - unfold NodeVisitor.not_implemented.
    eapply confined_raise; [apply elem_of_cons; by left | done].
Qed.

(** X20. Whatever its outcome, the visit of an expression only enters
    nodes of its tree that a method reaches: the node itself and the
    sub-expressions its method visits; the operand of a boolean
    complement is not visited, so [visited_nodes] stops there. *)
Theorem visit_enters_only_visited_nodes node env s s' o :
  env < length (heap s) →
  visit ctx node env s = (s', o) →
  ∃ evs, trace s' = trace s ++ evs
         ∧ Forall (enters_only (visited_nodes node)) evs.
Proof.
  intros Hl Hrun. by destruct (visit_confined node env s s' o Hl Hrun).
Qed.

(** X21. Every exception other than [RecursionError] that the visit of
    an expression raises is caused by a node it enters: the [Exception]
    of [not_implemented] by a node of a class the checker has no method
    for, [KeyError], always for [wrapperType], by a [self], and
    [UnboundLocalError], always for [newEnv], by a chained let without
    nested lets.  So, as long as the methods of [programContext] return,
    [AttributeError], [TypeError] and [RuntimeError] are never raised, and
    the read-back in [visit_NodeLet] never raises [KeyError].
    ([RecursionError] is left aside: the interpreter raises it wherever
    the calls are nested too deep.) *)
Theorem visit_exception_has_cause node env s s' e :
  env < length (heap s) →
  visit ctx node env s = (s', Raise e) →
  e ≠ RecursionError →
  ∃ n, n ∈ visited_nodes node ∧ cause e n.
Proof.
  intros Hl Hrun Hne.
  destruct (visit_confined node env s s' _ Hl Hrun) as [_ Hr]. by apply Hr.
Qed.

End Confined.

Lemma visit_enters_only_visited_nodes_witness :
  ∃ evs,
    trace (TypeCheckerVisitor.visit SpecContext.programContext
             (NodeBinaryOperation NodeEqual
                (NodeBooleanComplement (NodeOther "NodeIf" p0 eq_refl) p0)
                (NodeBoolean p0) p0) 0 (SpecContext.start ∅)).1
    = trace (SpecContext.start ∅) ++ evs
    ∧ Forall
        (enters_only
           [ NodeBinaryOperation NodeEqual
               (NodeBooleanComplement (NodeOther "NodeIf" p0 eq_refl) p0)
               (NodeBoolean p0) p0;
             NodeBooleanComplement (NodeOther "NodeIf" p0 eq_refl) p0;
             NodeBoolean p0 ]) evs.
Proof.
  eapply (visit_enters_only_visited_nodes SpecContext.programContext
            (NodeBinaryOperation NodeEqual
               (NodeBooleanComplement (NodeOther "NodeIf" p0 eq_refl) p0)
               (NodeBoolean p0) p0) 0 (SpecContext.start ∅)).
  - cbn. lia.
  - apply surjective_pairing.
Defined.

Lemma visit_exception_has_cause_witness :
  ∃ n,
    n ∈ visited_nodes
          (NodeBinaryOperation NodeAddition (NodeInteger p0)
             (NodeLetComplex [] (NodeInteger p0) p0) p0)
    ∧ cause (UnboundLocalError "newEnv") n.
Proof.
  eapply (visit_exception_has_cause SpecContext.programContext
            (NodeBinaryOperation NodeAddition (NodeInteger p0)
               (NodeLetComplex [] (NodeInteger p0) p0) p0) 0
            (SpecContext.start ∅)).
  - cbn. lia.
  - reflexivity.
  - discriminate.
Defined.
